(** * Elang (Eusha Language): a shallow embedding of the interpreter

    The development follows the Python sources:
    - [lexer.py]      token kinds, tokens and [Lexer] (module [Lexer]);
    - [nodes.py]      the AST ([Node]);
    - [parser.py]     the recursive-descent [Parser] (module [Parser]);
    - [evaluator.py]  runtime values, [Environment], [Evaluator];
    - [elang.py]      the driver [run_source] and [format_error].
    The definitions come first, the lexer and the parser before the
    evaluator, which loads modules through them; the properties follow.

    Modelling conventions.
    - Python objects with identity and mutable state (environments, lists,
      dicts) live in arenas of the interpreter state and are referred to by
      index, so aliasing is visible.  Function, lambda and module objects are
      immutable after creation; they carry their fields and an identity.
    - A Python [int] is a [Z]; a [str] is a [string] whose characters stand for
      code points below 256; a [float] is a binary64 [float].
    - Every way a Python call can leave is a constructor of [Raise]: the
      three error classes of the interpreter, its three control signals, and
      the exceptions of the host ([Host]).  [KeyboardInterrupt] is not
      modelled.
    - Host operations whose result is not described here (float arithmetic
      and formatting, [int] of a string, printf-style [%] on strings, Unicode
      case mapping and splitting, native functions of [math] and [random])
      end in [Unmodelled]: the model then says nothing about that run.  The
      file system of the host is a parameter of the state ([FileSystem]).  The host's recursion limit, its memory limits and its limit
      on the number of digits of an integer literal are not modelled;
      [OutOfFuel] is the model's own bound on the depth of the walk and on the
      number of rounds of a loop. *)

From Stdlib Require Import ZArith Floats Ascii Uint63.
From stdpp Require Import base option list gmap strings pretty sorting.

Set Warnings "-register-all".

Open Scope string_scope.
Open Scope list_scope.
Open Scope Z_scope.

(** ** lexer.py: token kinds and tokens *)

Inductive TokType :=
| TT_INT | TT_FLOAT | TT_STRING | TT_FSTRING | TT_IDENTIFIER | TT_KEYWORD
| TT_PLUS | TT_MINUS | TT_MUL | TT_DIV | TT_MOD | TT_POW
| TT_EQ | TT_PLUSEQ | TT_MINUSEQ | TT_MULEQ | TT_DIVEQ
| TT_EQEQ | TT_NEQ | TT_LT | TT_GT | TT_LTE | TT_GTE
| TT_LPAREN | TT_RPAREN | TT_LBRACE | TT_RBRACE | TT_LBRACKET | TT_RBRACKET
| TT_COMMA | TT_COLON | TT_DOT | TT_DOTDOT | TT_ARROW | TT_FATARROW
| TT_CMDPREFIX | TT_NEWLINE | TT_EOF.

Global Instance TokType_eq_dec : EqDecision TokType.
Proof. solve_decision. Defined.

(** The payload of a token ([Token.value]): [None], an [int], a [float],
    a [str], or the part list of an interpolated string, whose parts are
    [('str', text)] ([inl]) or [('expr', source text)] ([inr]). *)
Inductive TokValue :=
| TVNone
| TVInt (z : Z)
| TVFloat (f : float)
| TVStr (s : string)
| TVParts (parts : list (string + string)).

Record Token := mkToken {
  tok_type : TokType;
  tok_value : TokValue;
  tok_line : Z;
  tok_column : Z
}.

(** ** nodes.py: the AST *)

Inductive Node :=
| NumberNode (value : TokValue)
| StringNode (value : string)
| BoolNode (value : bool)
| NoneNode
| IdentifierNode (name : string)
| AssignNode (name : string) (value : Node)
| BinOpNode (left : Node) (op : string) (right : Node)
| UnaryOpNode (op : string) (operand : Node)
| SayNode (expr : Node) (modifiers : list string)
| TakeNode (prompt : option Node)
| MethodCallNode (obj : Node) (method : string) (args : list Node)
| IfNode (condition then_block : Node) (else_block : option Node)
| WhileNode (condition body : Node)
| ForRangeNode (var : string) (start end_ : Node) (step : option Node)
    (reverse : bool) (body : Node)
| ForEachNode (var : string) (iterable body : Node)
| FunctionDefNode (name : string) (params : list string) (body : Node)
    (return_type : TokValue)
| FunctionCallNode (name : string) (args : list Node)
| ReturnNode (value : Node)
| BlockNode (statements : list Node)
| BuiltinCommandNode (command : string)
| ListNode (elements : list Node)
| IndexGetNode (target index : Node)
| IndexSetNode (target index value : Node)
| UseNode (module_name : string)
| LambdaNode (params : list string) (body : Node)
| BreakNode
| ContinueNode
| FStringNode (parts : list (string + Node))
| CompoundAssignNode (name : string) (op : string) (value : Node)
| ObjectLiteralNode (pairs : list (Node * Node)).

(** ** evaluator.py: runtime values *)

Abbreviation loc := nat.

Inductive Value :=
| VNone
| VBool (b : bool)
| VInt (z : Z)
| VFloat (f : float)
| VStr (s : string)
| VList (l : loc)
| VDict (d : loc)
| EushaFunction (id : loc) (name : string) (params : list string)
    (body : Node) (env : loc) (return_type : TokValue)
| EushaLambda (id : loc) (params : list string) (body : Node) (env : loc)
| EushaModule (id : loc) (name : string) (env : loc)
| VNative (id : loc) (name : string).

(** Exceptions of the host that the interpreter does not define itself. *)
Inductive HostExc :=
| TypeError | ValueError | ZeroDivisionError | IndexError | KeyError
| OverflowError | RecursionError | PyRuntimeError | OSError.

(** The text of an error message: literal text, or text produced by the host
    ([str(e)] of a caught exception, [repr] or [str] of a value, the name of
    a value's type), which is recorded but not spelled out. *)
Inductive MsgPart :=
| Lit (s : string)
| StrOf (v : Value)
| ReprOf (v : Value)
| TypeOf (v : Value)
| ReprTok (v : TokValue)
| StrTok (v : TokValue)
| ExcText (e : HostExc).

Definition Message := list MsgPart.

Inductive Raise :=
| LexerError (msg : Message) (line column : Z) (hint : string)
| ParseError (msg : Message) (line column : Z) (hint : string)
| RuntimeError_ (msg : Message) (line column : Z) (hint : string)
| ReturnSignal (value : Value)
| BreakSignal
| ContinueSignal
| Host (e : HostExc)
| Unmodelled (what : string)
| OutOfFuel.

Inductive Result (A : Type) :=
| Ok (a : A)
| Raised (r : Raise).
Arguments Ok {A} a.
Arguments Raised {A} r.

(** ** Interpreter state *)

(** [class Environment]: [vars] and [parent]. *)
Record Environment := mkEnvironment {
  vars : gmap string Value;
  parent : option loc
}.

(** What the evaluator asks of the file system of the host, which it only
    reads: [os.getcwd()], [os.path.join(path, *paths)], [os.path.dirname],
    [os.path.exists], and [open(path, 'r', encoding='utf-8')] followed by
    [read()], which gives the text of the file or raises. *)
Record FileSystem := mkFileSystem {
  os_getcwd : string;
  os_path_join : string → list string → string;
  os_path_dirname : string → string;
  os_path_exists : string → bool;
  open_read : string → HostExc + string
}.

(** [base_path] is [self.base_path] of the evaluator whose method is
    running; the other fields of an evaluator are never read by its
    methods. *)
Record State := mkState {
  envs : list Environment;
  lists : list (list Value);
  dicts : list (list (Value * Value));
  next_id : loc;
  output : list string;  (* the texts written to the standard output, in order *)
  input : list string;   (* the lines still to be read from the standard input *)
  files : FileSystem;
  base_path : string
}.

Definition with_envs (f : list Environment → list Environment) (st : State) : State :=
  mkState (f (envs st)) (lists st) (dicts st) (next_id st) (output st) (input st)
    (files st) (base_path st).
Definition with_lists (f : list (list Value) → list (list Value)) (st : State) : State :=
  mkState (envs st) (f (lists st)) (dicts st) (next_id st) (output st) (input st)
    (files st) (base_path st).
Definition with_dicts (f : list (list (Value * Value)) → list (list (Value * Value)))
    (st : State) : State :=
  mkState (envs st) (lists st) (f (dicts st)) (next_id st) (output st) (input st)
    (files st) (base_path st).
Definition with_output (f : list string → list string) (st : State) : State :=
  mkState (envs st) (lists st) (dicts st) (next_id st) (f (output st)) (input st)
    (files st) (base_path st).
Definition with_base_path (path : string) (st : State) : State :=
  mkState (envs st) (lists st) (dicts st) (next_id st) (output st) (input st)
    (files st) path.

(** ** State passing with exceptions.  The state survives a raise, as the
    mutations of a Python call do. *)

Definition ST (S A : Type) : Type := S → Result A * S.

Global Instance ST_ret {S} : MRet (ST S) := λ A a st, (Ok a, st).
Global Instance ST_bind {S} : MBind (ST S) := λ A B f m st,
  match m st with
  | (Ok a, st') => f a st'
  | (Raised r, st') => (Raised r, st')
  end.

Definition raise {S A} (r : Raise) : ST S A := λ st, (Raised r, st).
Definition get_state {S} : ST S S := λ st, (Ok st, st).
Definition modify {S} (f : S → S) : ST S unit := λ st, (Ok tt, f st).
Definition lift {S A} (r : Result A) : ST S A := λ st, (r, st).

(** [try: m except E as e: h e], for the raises selected by [sel]. *)
Definition try_except {S A} (m : ST S A) (sel : Raise → bool) (h : Raise → ST S A)
    : ST S A :=
  λ st, match m st with
        | (Raised r, st') => if sel r then h r st' else (Raised r, st')
        | res => res
        end.

(** The evaluator's monad. *)
Abbreviation M := (ST State).

(** [raise RuntimeError_(msg)]: line 0, column 0 and an empty hint are the
    constructor's defaults, and the evaluator never passes others. *)
Definition runtime_error {A} (msg : Message) : M A :=
  raise (RuntimeError_ msg 0 0 "").

Definition is_TypeError (r : Raise) : bool :=
  match r with Host TypeError => true | _ => false end.

(** ** class Environment *)

Definition Environment_new (parent : option loc) : M loc := λ st,
  (Ok (length (envs st)), with_envs (λ es, es ++ [mkEnvironment ∅ parent]) st).

(** [Environment.get]: the frame's own [vars], then the parent chain.  A
    chain longer than the number of frames repeats a frame, and the Python
    recursion never ends. *)
Fixpoint get_chain (depth : nat) (es : list Environment) (e : loc) (name : string)
    : Result Value :=
  match es !! e with
  | None => Raised (Unmodelled "dangling environment")
  | Some fr =>
    match vars fr !! name with
    | Some v => Ok v
    | None =>
      match parent fr with
      | Some p =>
        match depth with
        | S d => get_chain d es p name
        | O => Raised (Host RecursionError)
        end
      | None =>
        Raised (RuntimeError_ [Lit ("Undefined variable '" +:+ name +:+ "'")] 0 0 "")
      end
    end
  end.

Definition Environment_get (e : loc) (name : string) : M Value := λ st,
  (get_chain (length (envs st)) (envs st) e name, st).

Definition set_var (e : loc) (name : string) (value : Value) (st : State) : State :=
  with_envs (alter (λ fr, mkEnvironment (<[name := value]> (vars fr)) (parent fr)) e) st.

Definition Environment_set (e : loc) (name : string) (value : Value) : M unit :=
  modify (set_var e name value).

(** [Environment.assign] has the body of [Environment.set]. *)
Definition Environment_assign (e : loc) (name : string) (value : Value) : M unit :=
  modify (set_var e name value).

(** The binding of [name] in the frame [e] itself. *)
Definition own_var (st : State) (e : loc) (name : string) : option Value :=
  fr ← envs st !! e; vars fr !! name.

(** ** Host primitives: what the Python operators and built-ins used by the
    evaluator do on the values of the language *)

Global Instance Result_ret : MRet Result := λ A a, Ok a.
Global Instance Result_bind : MBind Result := λ A B f r,
  match r with
  | Ok a => f a
  | Raised e => Raised e
  end.

Definition list_get (st : State) (l : loc) : list Value := default [] (lists st !! l).
Definition dict_get (st : State) (d : loc) : list (Value * Value) :=
  default [] (dicts st !! d).

Definition new_list (xs : list Value) : M Value := λ st,
  (Ok (VList (length (lists st))), with_lists (λ ls, ls ++ [xs]) st).
Definition new_dict (kvs : list (Value * Value)) : M Value := λ st,
  (Ok (VDict (length (dicts st))), with_dicts (λ ds, ds ++ [kvs]) st).
Definition set_list (l : loc) (xs : list Value) : M unit :=
  modify (with_lists (λ ls, <[l := xs]> ls)).
Definition set_dict (d : loc) (kvs : list (Value * Value)) : M unit :=
  modify (with_dicts (λ ds, <[d := kvs]> ds)).
Definition fresh_id : M loc := λ st,
  (Ok (next_id st),
   mkState (envs st) (lists st) (dicts st) (S (next_id st)) (output st) (input st)
     (files st) (base_path st)).

(** [print(text, end=e)]. *)
Definition print (text : string) : M unit := λ st,
  (Ok tt,
   mkState (envs st) (lists st) (dicts st) (next_id st) (output st ++ [text]) (input st)
     (files st) (base_path st)).

Definition nl : string := String (ascii_of_N 10) "".
Definition tab : string := String (ascii_of_N 9) "".

Fixpoint join (sep : string) (l : list string) : string :=
  match l with
  | [] => ""
  | [x] => x
  | x :: r => x +:+ sep +:+ join sep r
  end.

(** [bool(v)]. *)
Definition py_bool (st : State) (v : Value) : bool :=
  match v with
  | VNone => false
  | VBool b => b
  | VInt z => negb (z =? 0)
  | VFloat f => negb (PrimFloat.eqb f 0%float)
  | VStr s => negb (String.eqb s "")
  | VList l => match list_get st l with [] => false | _ => true end
  | VDict d => match dict_get st d with [] => false | _ => true end
  | _ => true
  end.

(** An [int], or a [bool] used as one. *)
Definition as_int (v : Value) : option Z :=
  match v with
  | VInt z => Some z
  | VBool b => Some (if b then 1 else 0)
  | _ => None
  end.

Definition is_float (v : Value) : bool :=
  match v with VFloat _ => true | _ => false end.
Definition is_number (v : Value) : bool :=
  match v with VInt _ | VBool _ | VFloat _ => true | _ => false end.
Definition is_str (v : Value) : bool :=
  match v with VStr _ => true | _ => false end.

(** The exact value of a float against an integer. *)
Definition float_eq_int (f : float) (z : Z) : bool :=
  match Prim2SF f with
  | S754_zero _ => z =? 0
  | S754_finite s m e =>
    let mz := if s then Z.neg m else Z.pos m in
    if 0 <=? e then mz * 2 ^ e =? z else mz =? z * 2 ^ (- e)
  | _ => false
  end.

(** [int(f)] of a float: truncation toward zero. *)
Definition float_to_int (f : float) : Result Z :=
  match Prim2SF f with
  | S754_zero _ => Ok 0
  | S754_finite s m e =>
    let mz := if s then Z.neg m else Z.pos m in
    Ok (if 0 <=? e then mz * 2 ^ e else Z.quot mz (2 ^ (- e)))
  | S754_infinity _ => Raised (Host OverflowError)
  | S754_nan => Raised (Host ValueError)
  end.

(** [int(v)]. *)
Definition py_int (v : Value) : Result Z :=
  match v with
  | VInt z => Ok z
  | VBool b => Ok (if b then 1 else 0)
  | VFloat f => float_to_int f
  | VStr _ => Raised (Unmodelled "int() of a string")
  | _ => Raised (Host TypeError)
  end.

(** *** [repr] and [str] *)

Definition hex_digit (n : N) : ascii :=
  if (n <? 10)%N then ascii_of_N (48 + n) else ascii_of_N (87 + n).

Definition repr_char (quote c : ascii) : string :=
  let n := N_of_ascii c in
  if bool_decide (c = quote) || bool_decide (c = "\"%char) then String "\" (String c "")
  else if (n =? 9)%N then "\t"
  else if (n =? 10)%N then "\n"
  else if (n =? 13)%N then "\r"
  else if (n <? 32)%N || (n =? 127)%N || ((128 <=? n)%N && (n <=? 160)%N) || (n =? 173)%N
  then String "\" (String "x" (String (hex_digit (n / 16)) (String (hex_digit (n mod 16)) "")))
  else String c "".

Fixpoint flat_map_string (f : ascii → string) (s : string) : string :=
  match s with
  | EmptyString => ""
  | String c r => f c +:+ flat_map_string f r
  end.

Fixpoint has_char (c : ascii) (s : string) : bool :=
  match s with
  | EmptyString => false
  | String c' r => bool_decide (c = c') || has_char c r
  end.

(** [repr(s)] of a [str]: single quotes, unless the text has a single quote
    and no double quote. *)
Definition repr_str (s : string) : string :=
  let dq := ascii_of_N 34 in
  let sq := "'"%char in
  let quote := if has_char sq s && negb (has_char dq s) then dq else sq in
  String quote (flat_map_string (repr_char quote) s +:+ String quote "").

(** [repr(v)].  A list or dict met again inside itself prints as [[...]] or
    [{...}]; [seen_l] and [seen_d] are the containers being printed. *)
Fixpoint py_repr (n : nat) (st : State) (seen_l seen_d : list loc) (v : Value)
    : Result string :=
  match v with
  | VNone => Ok "None"
  | VBool b => Ok (if b then "True" else "False")
  | VInt z => Ok (pretty z)
  | VFloat _ => Raised (Unmodelled "repr of a float")
  | VStr s => Ok (repr_str s)
  | VList l =>
    if bool_decide (l ∈ seen_l) then Ok "[...]" else
    match n with
    | O => Raised OutOfFuel
    | S n' =>
      items ← mapM (py_repr n' st (l :: seen_l) seen_d) (list_get st l);
      Ok ("[" +:+ join ", " items +:+ "]")
    end
  | VDict d =>
    if bool_decide (d ∈ seen_d) then Ok "{...}" else
    match n with
    | O => Raised OutOfFuel
    | S n' =>
      items ← mapM (λ kv : Value * Value,
                      k ← py_repr n' st seen_l (d :: seen_d) kv.1;
                      x ← py_repr n' st seen_l (d :: seen_d) kv.2;
                      Ok (k +:+ ": " +:+ x)) (dict_get st d);
      Ok ("{" +:+ join ", " items +:+ "}")
    end
  | EushaFunction _ name _ _ _ _ => Ok ("<fn " +:+ name +:+ ">")
  | EushaLambda _ params _ _ => Ok ("<lambda (" +:+ join ", " params +:+ ")>")
  | EushaModule _ name _ => Ok ("<module " +:+ name +:+ ">")
  | VNative _ _ => Raised (Unmodelled "repr of a native function")
  end.

(** Nesting cannot go deeper than the number of containers without meeting
    one of them again. *)
Definition containers (st : State) : nat := length (lists st) + length (dicts st).

(** [str(v)]. *)
Definition py_str (st : State) (v : Value) : Result string :=
  match v with
  | VStr s => Ok s
  | _ => py_repr (S (containers st)) st [] [] v
  end.

(** [Evaluator._format_value].  It has no guard against a container that
    contains itself: the recursion then never ends. *)
Fixpoint format_value_go (n : nat) (st : State) (value : Value) : Result string :=
  match value with
  | VNone => Ok "none"
  | VBool b => Ok (if b then "true" else "false")
  | VList l =>
    match n with
    | O => Raised (Host RecursionError)
    | S n' =>
      items ← mapM (format_value_go n' st) (list_get st l);
      Ok ("[" +:+ join ", " items +:+ "]")
    end
  | VDict d =>
    match n with
    | O => Raised (Host RecursionError)
    | S n' =>
      items ← mapM (λ kv : Value * Value,
                      k ← format_value_go n' st kv.1;
                      v ← format_value_go n' st kv.2;
                      Ok (k +:+ ": " +:+ v)) (dict_get st d);
      Ok ("{" +:+ join ", " items +:+ "}")
    end
  | _ => py_str st value
  end.

Definition _format_value (st : State) (value : Value) : Result string :=
  format_value_go (containers st) st value.

(** *** Equality *)

(** [a == b] for two values that are not both lists or both dicts: numbers
    by value (a [bool] is an [int]), strings by text, [None] with itself,
    function, lambda, module and native objects by identity; anything else is
    unequal. *)
Definition atom_eq (a b : Value) : bool :=
  match a, b with
  | VNone, VNone => true
  | VStr s, VStr t => String.eqb s t
  | VFloat f, VFloat g => PrimFloat.eqb f g
  | VFloat f, _ => match as_int b with Some z => float_eq_int f z | None => false end
  | _, VFloat g => match as_int a with Some z => float_eq_int g z | None => false end
  | EushaFunction i _ _ _ _ _, EushaFunction j _ _ _ _ _ => Nat.eqb i j
  | EushaLambda i _ _ _, EushaLambda j _ _ _ => Nat.eqb i j
  | EushaModule i _ _, EushaModule j _ _ => Nat.eqb i j
  | VNative i _, VNative j _ => Nat.eqb i j
  | _, _ =>
    match as_int a, as_int b with
    | Some x, Some y => x =? y
    | _, _ => false
    end
  end.

(** Elements of containers and keys of dicts are compared by "the same
    object, or equal".  Only for two NaNs does the answer depend on object
    identity that the model does not track. *)
Definition both_nan (a b : Value) : bool :=
  match a, b with
  | VFloat f, VFloat g => PrimFloat.is_nan f && PrimFloat.is_nan g
  | _, _ => false
  end.

Definition identical (a b : Value) : bool :=
  match a, b with
  | VList i, VList j => Nat.eqb i j
  | VDict i, VDict j => Nat.eqb i j
  | _, _ => false
  end.

Definition key_eq (a b : Value) : Result bool :=
  if both_nan a b then Raised (Unmodelled "identity of a NaN") else Ok (atom_eq a b).

Definition hashable (v : Value) : bool :=
  match v with VList _ | VDict _ => false | _ => true end.

Fixpoint dict_find (key : Value) (kvs : list (Value * Value)) : Result (option Value) :=
  match kvs with
  | [] => Ok None
  | (k, v) :: rest =>
    b ← key_eq k key;
    if b : bool then Ok (Some v) else dict_find key rest
  end.

(** [d[key]] as a lookup: [TypeError] for an unhashable key. *)
Definition dict_lookup (key : Value) (kvs : list (Value * Value)) : Result (option Value) :=
  if hashable key then dict_find key kvs else Raised (Host TypeError).

(** [d[key] = value]: an existing key keeps its place and its key object. *)
Fixpoint dict_store (key value : Value) (kvs : list (Value * Value))
    : Result (list (Value * Value)) :=
  match kvs with
  | [] => Ok [(key, value)]
  | (k, v) :: rest =>
    b ← key_eq k key;
    if b : bool then Ok ((k, value) :: rest)
    else rest' ← dict_store key value rest; Ok ((k, v) :: rest')
  end.

Definition dict_setitem (key value : Value) (kvs : list (Value * Value))
    : Result (list (Value * Value)) :=
  if hashable key then dict_store key value kvs else Raised (Host TypeError).

Fixpoint list_eq_go (eq : Value → Value → Result bool) (xs ys : list Value) : Result bool :=
  match xs, ys with
  | [], [] => Ok true
  | x :: xs', y :: ys' =>
    b ← eq x y;
    if b : bool then list_eq_go eq xs' ys' else Ok false
  | _, _ => Ok false
  end.

Fixpoint dict_eq_go (eq : Value → Value → Result bool) (kvs other : list (Value * Value))
    : Result bool :=
  match kvs with
  | [] => Ok true
  | (k, v) :: rest =>
    r ← dict_find k other;
    match r with
    | None => Ok false
    | Some w =>
      b ← eq v w;
      if b : bool then dict_eq_go eq rest other else Ok false
    end
  end.

(** [a == b].  Two distinct containers that contain each other are compared
    without end. *)
Fixpoint py_eq_go (n : nat) (st : State) (a b : Value) : Result bool :=
  match n with
  | O => Raised (Host RecursionError)
  | S n' =>
    let elem_eq (x y : Value) : Result bool :=
      if identical x y then Ok true
      else if both_nan x y then Raised (Unmodelled "identity of a NaN")
      else py_eq_go n' st x y in
    match a, b with
    | VList i, VList j =>
      let xs := list_get st i in
      let ys := list_get st j in
      if Nat.eqb (length xs) (length ys) then list_eq_go elem_eq xs ys else Ok false
    | VDict i, VDict j =>
      let xs := dict_get st i in
      let ys := dict_get st j in
      if Nat.eqb (length xs) (length ys) then dict_eq_go elem_eq xs ys else Ok false
    | _, _ => Ok (atom_eq a b)
    end
  end.

Definition py_eq (st : State) (a b : Value) : Result bool :=
  py_eq_go (S (S (containers st * containers st))) st a b.

(** *** Arithmetic.  Each function is the Python operator of its name on two
    evaluated operands; a [Host TypeError] is what the callers' [except
    TypeError] sees. *)

Fixpoint repeat_string (n : nat) (s : string) : string :=
  match n with
  | O => ""
  | S n' => s +:+ repeat_string n' s
  end.

Fixpoint repeat_list {A} (n : nat) (xs : list A) : list A :=
  match n with
  | O => []
  | S n' => xs ++ repeat_list n' xs
  end.

(** [a + b]. *)
Definition py_add (a b : Value) : M Value :=
  match as_int a, as_int b with
  | Some x, Some y => mret (VInt (x + y))
  | _, _ =>
    if is_number a && is_number b then raise (Unmodelled "float arithmetic")
    else match a, b with
         | VStr s, VStr t => mret (VStr (s +:+ t))
         | VList i, VList j =>
           st ← get_state; new_list (list_get st i ++ list_get st j)
         | _, _ => raise (Host TypeError)
         end
  end.

(** [a - b]. *)
Definition py_sub (a b : Value) : M Value :=
  match as_int a, as_int b with
  | Some x, Some y => mret (VInt (x - y))
  | _, _ =>
    if is_number a && is_number b then raise (Unmodelled "float arithmetic")
    else raise (Host TypeError)
  end.

(** [a * b]: product of numbers, or repetition of a string or list. *)
Definition py_mul (a b : Value) : M Value :=
  match as_int a, as_int b with
  | Some x, Some y => mret (VInt (x * y))
  | _, _ =>
    if is_number a && is_number b then raise (Unmodelled "float arithmetic")
    else match a, as_int b, as_int a, b with
         | VStr s, Some k, _, _ => mret (VStr (repeat_string (Z.to_nat k) s))
         | _, _, Some k, VStr s => mret (VStr (repeat_string (Z.to_nat k) s))
         | VList i, Some k, _, _ =>
           st ← get_state; new_list (repeat_list (Z.to_nat k) (list_get st i))
         | _, _, Some k, VList i =>
           st ← get_state; new_list (repeat_list (Z.to_nat k) (list_get st i))
         | _, _, _, _ => raise (Host TypeError)
         end
  end.

(** [a / b] for a divisor that passed the interpreter's zero check: true
    division, whose result is always a float. *)
Definition py_truediv (a b : Value) : M Value :=
  if is_number a && is_number b then raise (Unmodelled "float arithmetic")
  else raise (Host TypeError).

(** [v == 0], the interpreter's division check. *)
Definition eq_zero (v : Value) : bool := atom_eq v (VInt 0).

(** [a % b]: floor modulo on integers, with the host's own
    [ZeroDivisionError]; on a string it is printf-style formatting. *)
Definition py_mod (a b : Value) : M Value :=
  match as_int a, as_int b with
  | Some x, Some y =>
    if y =? 0 then raise (Host ZeroDivisionError) else mret (VInt (x mod y))
  | _, _ =>
    if is_number a && is_number b then
      if eq_zero b then raise (Host ZeroDivisionError)
      else raise (Unmodelled "float arithmetic")
    else if is_str a then raise (Unmodelled "printf-style formatting")
    else raise (Host TypeError)
  end.

(** [a ** b]. *)
Definition py_pow (a b : Value) : M Value :=
  match as_int a, as_int b with
  | Some x, Some y =>
    if 0 <=? y then mret (VInt (x ^ y))
    else if x =? 0 then raise (Host ZeroDivisionError)
    else raise (Unmodelled "float arithmetic")
  | _, _ =>
    if is_number a && is_number b then raise (Unmodelled "float arithmetic")
    else raise (Host TypeError)
  end.

Inductive Ordering := OLt | OGt | OLe | OGe.

Definition order_holds (o : Ordering) (c : comparison) : bool :=
  match o, c with
  | OLt, Lt | OGt, Gt | OLe, (Lt | Eq) | OGe, (Gt | Eq) => true
  | _, _ => false
  end.

(** [a < b], [a > b], [a <= b], [a >= b]. *)
Definition py_order (o : Ordering) (a b : Value) : M Value :=
  match as_int a, as_int b with
  | Some x, Some y => mret (VBool (order_holds o (x ?= y)))
  | _, _ =>
    if is_number a && is_number b then raise (Unmodelled "float comparison")
    else match a, b with
         | VStr s, VStr t => mret (VBool (order_holds o (String.compare s t)))
         | VList _, VList _ => raise (Unmodelled "ordering of lists")
         | _, _ => raise (Host TypeError)
         end
  end.

(** *** Sequences *)

(** [xs[i]] with Python's negative indices; [None] is [IndexError]. *)
Definition py_index (len : nat) (i : Z) : option nat :=
  let j := if i <? 0 then i + Z.of_nat len else i in
  if (0 <=? j) && (j <? Z.of_nat len) then Some (Z.to_nat j) else None.

Fixpoint chars (s : string) : list Value :=
  match s with
  | EmptyString => []
  | String c r => VStr (String c "") :: chars r
  end.

(** [range(start, stop, step)] for [step > 0], and [range(start, stop, -step)]
    when [down] is set. *)
Definition py_range (down : bool) (start stop step : Z) : list Z :=
  let span := if down then start - stop else stop - start in
  let count := Z.to_nat ((span + step - 1) / step) in
  map (λ i : nat, if down then start - Z.of_nat i * step else start + Z.of_nat i * step)
      (seq 0 count).

(** [sub in s] for two strings. *)
Fixpoint is_substring (sub s : string) : bool :=
  String.prefix sub s ||
  match s with
  | EmptyString => false
  | String _ r => is_substring sub r
  end.

Definition all_int (xs : list Value) : bool := forallb (λ v, bool_decide (is_Some (as_int v))) xs.
Definition all_str (xs : list Value) : bool := forallb is_str xs.

(** Insertion of [x] in front of the first element that is not smaller: with
    [foldr] a stable sort. *)
Fixpoint insert_sorted (le : Value → Value → bool) (x : Value) (ys : list Value)
    : list Value :=
  match ys with
  | [] => [x]
  | y :: r => if le x y then x :: ys else y :: insert_sorted le x r
  end.

Definition value_le (a b : Value) : bool :=
  match as_int a, as_int b, a, b with
  | Some x, Some y, _, _ => x <=? y
  | _, _, VStr s, VStr t => String.leb s t
  | _, _, _, _ => true
  end.

(** [list.sort()] where the outcome is determined: fewer than two elements,
    only integers, or only strings. *)
Definition py_sort (xs : list Value) : Result (list Value) :=
  if (Nat.leb (length xs) 1) || all_int xs || all_str xs
  then Ok (foldr (insert_sorted value_le) [] xs)
  else Raised (Unmodelled "sort of mixed values").

(** ** evaluator.py: HELP_REGISTRY and BUILTIN_COMMANDS *)

Definition dq : string := String (ascii_of_N 34) "".

Definition HELP_REGISTRY : list (string * string) := [
  ("say",
   "  say(expression)" +:+ nl +:+
   "  Prints a value. Use modifiers: .newl .space .tab" +:+ nl +:+
   "  Example: say(" +:+ dq +:+ "Hello" +:+ dq +:+ ").newl" +:+ nl);
  ("take",
   "  take() or take(" +:+ dq +:+ "prompt" +:+ dq +:+ ")" +:+ nl +:+
   "  Reads user input. Returns a string." +:+ nl +:+
   "  Example: name = take(" +:+ dq +:+ "What is your name? " +:+ dq +:+ ")" +:+ nl);
  ("if",
   "  if condition { ... } else { ... }" +:+ nl +:+
   "  Conditional branching." +:+ nl +:+
   "  Example:" +:+ nl +:+
   "    if x > 10 {" +:+ nl +:+
   "      say(" +:+ dq +:+ "big" +:+ dq +:+ ").newl" +:+ nl +:+
   "    } else {" +:+ nl +:+
   "      say(" +:+ dq +:+ "small" +:+ dq +:+ ").newl" +:+ nl +:+
   "    }" +:+ nl);
  ("for",
   "  for (var in start..end) { ... }" +:+ nl +:+
   "  for (var in start..end step N) { ... }" +:+ nl +:+
   "  for (item in collection) { ... }" +:+ nl +:+
   "  Loop over a range or collection." +:+ nl +:+
   "  Example: for (i in 1..5) { say(i).space }" +:+ nl);
  ("while",
   "  while (condition) { ... }" +:+ nl +:+
   "  Loops as long as condition is true." +:+ nl +:+
   "  Example: while (x < 10) { x = x + 1 }" +:+ nl);
  ("fn",
   "  fn name(params) { ... }" +:+ nl +:+
   "  Defines a function." +:+ nl +:+
   "  Example:" +:+ nl +:+
   "    fn add(a, b) {" +:+ nl +:+
   "      return a + b" +:+ nl +:+
   "    }" +:+ nl);
  ("return",
   "  return expression" +:+ nl +:+
   "  Returns a value from a function." +:+ nl);
  ("use",
   "  use module_name" +:+ nl +:+
   "  Imports a module as a namespace." +:+ nl +:+
   "  Example: use math" +:+ nl +:+
   "           say(math.sqrt(25)).newl" +:+ nl);
  ("break",
   "  break" +:+ nl +:+
   "  Exits the current loop immediately." +:+ nl);
  ("continue",
   "  continue" +:+ nl +:+
   "  Skips to the next iteration of the current loop." +:+ nl);
  ("len",
   "  len(collection)" +:+ nl +:+
   "  Returns the length of a list or string." +:+ nl +:+
   "  Example: len([1, 2, 3])  $$ returns 3" +:+ nl);
  ("help",
   "  help() or help(" +:+ dq +:+ "topic" +:+ dq +:+ ")" +:+ nl +:+
   "  Shows help information." +:+ nl +:+
   "  Available topics: say, take, if, for, while, fn, return," +:+ nl +:+
   "                    use, break, continue, len, help" +:+ nl)
].

Definition BUILTIN_COMMANDS : list (string * string) := [
  ("who.is.eusha",
   nl +:+
   "  Eusha Ibna Akbor" +:+ nl +:+
   nl +:+
   "  Eusha Ibna Akbor is a 16-year-old programmer from Bangladesh with a strong" +:+ nl +:+
   "  foundation in algorithms and software development." +:+ nl +:+
   nl +:+
   "  He works on AI-based systems, backend architecture, and programming language" +:+ nl +:+
   "  design. His projects focus on clean structure, performance, and thoughtful" +:+ nl +:+
   "  engineering decisions." +:+ nl +:+
   nl +:+
   "  He is the creator of Elang, a beginner-oriented programming language," +:+ nl +:+
   "  and founder of RareDev." +:+ nl +:+
   nl +:+
   "  His interests include systems design, artificial intelligence," +:+ nl +:+
   "  and scalable software engineering." +:+ nl)
].

Fixpoint assoc (key : string) (table : list (string * string)) : option string :=
  match table with
  | [] => None
  | (k, v) :: rest => if String.eqb k key then Some v else assoc key rest
  end.

Fixpoint insert_string (x : string) (ys : list string) : list string :=
  match ys with
  | [] => [x]
  | y :: r => if String.leb x y then x :: ys else y :: insert_string x r
  end.

Definition sorted_strings (xs : list string) : list string := foldr insert_string [] xs.

(** ** lexer.py: class Lexer

    The lexer state is the text from [self.pos] on, with the line and column
    counters; [self.source[start:self.pos]] is the text consumed since
    [start].  Loops consume a character in every round, so a budget of one
    more than the length of the source is never used up. *)

Module Lexer.

Record Lexer := mkLexer {
  source : string;
  line : Z;
  column : Z
}.

Abbreviation L := (ST Lexer).

Definition chr (n : N) : ascii := ascii_of_N n.
Definition is_char (c : ascii) (o : option ascii) : bool :=
  match o with
  | Some c' => Ascii.eqb c c'
  | None => false
  end.

Definition in_range (lo hi : N) (c : ascii) : bool :=
  ((lo <=? N_of_ascii c) && (N_of_ascii c <=? hi))%N.

(** [str.isdigit], [str.isalpha], [str.isalnum] on a code point below 256. *)
Definition isdigit (c : ascii) : bool :=
  in_range 48 57 c || in_range 178 179 c || in_range 185 185 c.
Definition isalpha (c : ascii) : bool :=
  in_range 65 90 c || in_range 97 122 c || in_range 170 170 c || in_range 181 181 c
  || in_range 186 186 c || in_range 192 214 c || in_range 216 246 c || in_range 248 255 c.
Definition isalnum (c : ascii) : bool :=
  isalpha c || isdigit c || in_range 188 190 c.

Definition KEYWORDS : list string := [
  "fn"; "return"; "if"; "else"; "while"; "for"; "in";
  "step"; "reverse"; "say"; "take"; "and"; "or"; "not";
  "true"; "false"; "none"; "use"; "break"; "continue"
].

Definition current : L (option ascii) := λ lx,
  (Ok (match source lx with String c _ => Some c | EmptyString => None end), lx).

Definition peek : L (option ascii) := λ lx,
  (Ok (match source lx with String _ (String c _) => Some c | _ => None end), lx).

(** [advance] does not test for the end of the source. *)
Definition advance : L ascii := λ lx,
  match source lx with
  | EmptyString => (Raised (Host IndexError), lx)
  | String ch r =>
    (Ok ch,
     if Ascii.eqb ch (chr 10) then mkLexer r (line lx + 1) 1
     else mkLexer r (line lx) (column lx + 1))
  end.

Fixpoint skip_whitespace (n : nat) : L unit :=
  match n with
  | O => raise OutOfFuel
  | S n' =>
    c ← current;
    if is_char " " c || is_char (chr 9) c || is_char (chr 13) c
    then _ ← advance; skip_whitespace n'
    else mret tt
  end.

Fixpoint skip_comment (n : nat) : L unit :=
  match n with
  | O => raise OutOfFuel
  | S n' =>
    c ← current;
    match c with
    | Some ch => if Ascii.eqb ch (chr 10) then mret tt else _ ← advance; skip_comment n'
    | None => mret tt
    end
  end.

Definition append_char (s : string) (c : ascii) : string := s +:+ String c "".

(** The body of an interpolation, up to its closing brace. *)
Fixpoint read_interpolation (n : nat) (depth : Z) (expr_chars : string) : L string :=
  match n with
  | O => raise OutOfFuel
  | S n' =>
    c ← current;
    match c with
    | None => mret expr_chars
    | Some ch =>
      if Ascii.eqb ch "{" then
        x ← advance; read_interpolation n' (depth + 1) (append_char expr_chars x)
      else if Ascii.eqb ch "}" then
        if depth - 1 =? 0 then mret expr_chars
        else x ← advance; read_interpolation n' (depth - 1) (append_char expr_chars x)
      else x ← advance; read_interpolation n' depth (append_char expr_chars x)
    end
  end.

Definition escape_map (esc : ascii) : ascii :=
  if Ascii.eqb esc "n" then chr 10
  else if Ascii.eqb esc "t" then chr 9
  else if Ascii.eqb esc "r" then chr 13
  else esc.

Definition flush_str (current_str : string) (interp_parts : list (string + string))
    : list (string + string) :=
  if String.eqb current_str "" then interp_parts else interp_parts ++ [inl current_str].

Fixpoint read_string_loop (n : nat) (quote_char : ascii) (has_interpolation : bool)
    (interp_parts : list (string + string)) (current_str : string)
    : L (bool * list (string + string) * string) :=
  match n with
  | O => raise OutOfFuel
  | S n' =>
    c ← current;
    match c with
    | None => mret (has_interpolation, interp_parts, current_str)
    | Some ch =>
      if Ascii.eqb ch quote_char then mret (has_interpolation, interp_parts, current_str)
      else if Ascii.eqb ch "\" then
        _ ← advance;
        esc ← advance;
        read_string_loop n' quote_char has_interpolation interp_parts
          (append_char current_str (escape_map esc))
      else if Ascii.eqb ch "{" && Ascii.eqb quote_char (chr 34) then
        let parts := flush_str current_str interp_parts in
        _ ← advance;
        expr_chars ← read_interpolation n' 1 "";
        c' ← current;
        lx ← get_state;
        if negb (is_char "}" c') then
          raise (LexerError [Lit "Unterminated string interpolation"] (line lx) (column lx)
                   "Did you forget a closing }?")
        else
          _ ← advance;
          read_string_loop n' quote_char true (parts ++ [inr expr_chars]) ""
      else
        x ← advance;
        read_string_loop n' quote_char has_interpolation interp_parts
          (append_char current_str x)
    end
  end.

(** [read_string]: [inr parts] is [('fstring', parts)], [inl s] is
    [('string', s)]. *)
Definition read_string (n : nat) (quote_char : ascii)
    : L (string + list (string + string)) :=
  start ← get_state;
  _ ← advance;
  r ← read_string_loop n quote_char false [] "";
  let '(has_interpolation, interp_parts, current_str) := r in
  c ← current;
  if negb (is_char quote_char c) then
    raise (LexerError [Lit "Unterminated string literal"] (line start) (column start)
             "Did you forget to close the quote?")
  else
    _ ← advance;
    if has_interpolation : bool then mret (inr (flush_str current_str interp_parts))
    else mret (inl current_str).

Fixpoint take_while (n : nat) (p : ascii → bool) (text : string) : L string :=
  match n with
  | O => raise OutOfFuel
  | S n' =>
    c ← current;
    match c with
    | Some ch => if p ch then x ← advance; take_while n' p (append_char text x) else mret text
    | None => mret text
    end
  end.

(** [int(text)] for a text of [isdigit] characters: only the ASCII digits are
    decimal digits for [int]. *)
Fixpoint int_of_digits (acc : Z) (text : string) : Result Z :=
  match text with
  | EmptyString => Ok acc
  | String c r =>
    if in_range 48 57 c then int_of_digits (10 * acc + Z.of_N (N_of_ascii c - 48)) r
    else Raised (Host ValueError)
  end.

(** [float(text)] for [text = whole "." frac]: the quotient of two floats
    that are exact is the correctly rounded value; longer literals are not
    modelled. *)
Definition float_of_text (whole frac : string) : Result float :=
  m ← int_of_digits 0 (whole +:+ frac);
  let k := Z.of_nat (String.length frac) in
  if (m <? 2 ^ 53) && (k <=? 18) then
    Ok (PrimFloat.div (PrimFloat.of_uint63 (Uint63.of_Z m))
                      (PrimFloat.of_uint63 (Uint63.of_Z (10 ^ k))))
  else Raised (Unmodelled "float literal with many digits").

Definition read_number (n : nat) : L (TokType * TokValue) :=
  whole ← take_while n isdigit "";
  c ← current;
  p ← peek;
  if is_char "." c && negb (is_char "." p) then
    _ ← advance;
    frac ← take_while n isdigit "";
    f ← lift (float_of_text whole frac);
    mret (TT_FLOAT, TVFloat f)
  else
    z ← lift (int_of_digits 0 whole);
    mret (TT_INT, TVInt z).

Definition read_identifier (n : nat) : L (TokType * TokValue) :=
  word ← take_while n (λ c, isalnum c || Ascii.eqb c "_") "";
  if bool_decide (word ∈ KEYWORDS) then mret (TT_KEYWORD, TVStr word)
  else mret (TT_IDENTIFIER, TVStr word).

Definition two_char_ops : list (string * TokType) := [
  ("**", TT_POW); ("..", TT_DOTDOT); ("=>", TT_FATARROW); ("->", TT_ARROW);
  ("+=", TT_PLUSEQ); ("-=", TT_MINUSEQ); ("*=", TT_MULEQ); ("/=", TT_DIVEQ);
  ("==", TT_EQEQ); ("!=", TT_NEQ); ("<=", TT_LTE); (">=", TT_GTE);
  ("&&", TT_CMDPREFIX)
].

Definition simple : list (string * TokType) := [
  ("+", TT_PLUS); ("-", TT_MINUS); ("*", TT_MUL); ("/", TT_DIV);
  ("%", TT_MOD); ("=", TT_EQ); ("<", TT_LT); (">", TT_GT);
  ("(", TT_LPAREN); (")", TT_RPAREN);
  ("{", TT_LBRACE); ("}", TT_RBRACE);
  ("[", TT_LBRACKET); ("]", TT_RBRACKET);
  (",", TT_COMMA); (".", TT_DOT); (":", TT_COLON)
].

Fixpoint lookup_op (key : string) (table : list (string * TokType)) : option TokType :=
  match table with
  | [] => None
  | (k, t) :: rest => if String.eqb k key then Some t else lookup_op key rest
  end.

Fixpoint tokenize_loop (n : nat) (tokens : list Token) : L (list Token) :=
  match n with
  | O => raise OutOfFuel
  | S n' =>
    c0 ← current;
    match c0 with
    | None => mret tokens
    | Some _ =>
      _ ← skip_whitespace n;
      c ← current;
      lx ← get_state;
      let tok t v := mkToken t v (line lx) (column lx) in
      match c with
      | None => mret tokens
      | Some ch =>
        p ← peek;
        if Ascii.eqb ch "$" && is_char "$" p then
          _ ← advance; _ ← advance; _ ← skip_comment n; tokenize_loop n' tokens
        else if Ascii.eqb ch (chr 10) then
          _ ← advance; tokenize_loop n' (tokens ++ [tok TT_NEWLINE TVNone])
        else if Ascii.eqb ch (chr 34) || Ascii.eqb ch "'" then
          result ← read_string n ch;
          match result with
          | inr parts => tokenize_loop n' (tokens ++ [tok TT_FSTRING (TVParts parts)])
          | inl text => tokenize_loop n' (tokens ++ [tok TT_STRING (TVStr text)])
          end
        else if isdigit ch then
          r ← read_number n; tokenize_loop n' (tokens ++ [tok r.1 r.2])
        else if isalpha ch || Ascii.eqb ch "_" then
          r ← read_identifier n; tokenize_loop n' (tokens ++ [tok r.1 r.2])
        else
          let two := String ch (match p with Some q => String q "" | None => "" end) in
          match lookup_op two two_char_ops with
          | Some t =>
            _ ← advance; _ ← advance; tokenize_loop n' (tokens ++ [tok t (TVStr two)])
          | None =>
            match lookup_op (String ch "") simple with
            | Some t => _ ← advance; tokenize_loop n' (tokens ++ [tok t (TVStr (String ch ""))])
            | None =>
              raise (LexerError [Lit ("Unknown character '" +:+ String ch "" +:+ "'")]
                       (line lx) (column lx)
                       "Remove the character or check for a typo.")
            end
          end
      end
    end
  end.

Definition tokenize_from : L (list Token) :=
  lx0 ← get_state;
  tokens ← tokenize_loop (S (String.length (source lx0))) [];
  lx ← get_state;
  mret (tokens ++ [mkToken TT_EOF TVNone (line lx) (column lx)]).

(** [Lexer(source).tokenize()]. *)
Definition tokenize (text : string) : Result (list Token) :=
  (tokenize_from (mkLexer text 1 1)).1.

End Lexer.

(** ** parser.py: class Parser

    [self.parse_expression], [self.parse_not], [self.parse_power],
    [self.parse_unary], [self.parse_statement] and [self.parse_if] are the
    entry points through which the descent comes back to a method that is
    already running; they are reached through [rec], and [budget] bounds the
    rounds of the [while] loops. *)

Module Parser.

Record Parser := mkParser {
  tokens : list Token;
  pos : nat
}.

Abbreviation P := (ST Parser).

Record Rec := mkRec {
  rec_expression : P Node;
  rec_not : P Node;
  rec_power : P Node;
  rec_unary : P Node;
  rec_statement : P Node;
  rec_if : P Node
}.

Definition tt_name (t : TokType) : string :=
  match t with
  | TT_INT => "INT" | TT_FLOAT => "FLOAT" | TT_STRING => "STRING"
  | TT_FSTRING => "FSTRING" | TT_IDENTIFIER => "IDENTIFIER" | TT_KEYWORD => "KEYWORD"
  | TT_PLUS => "PLUS" | TT_MINUS => "MINUS" | TT_MUL => "MUL" | TT_DIV => "DIV"
  | TT_MOD => "MOD" | TT_POW => "POW" | TT_EQ => "EQ" | TT_PLUSEQ => "PLUSEQ"
  | TT_MINUSEQ => "MINUSEQ" | TT_MULEQ => "MULEQ" | TT_DIVEQ => "DIVEQ"
  | TT_EQEQ => "EQEQ" | TT_NEQ => "NEQ" | TT_LT => "LT" | TT_GT => "GT"
  | TT_LTE => "LTE" | TT_GTE => "GTE" | TT_LPAREN => "LPAREN" | TT_RPAREN => "RPAREN"
  | TT_LBRACE => "LBRACE" | TT_RBRACE => "RBRACE" | TT_LBRACKET => "LBRACKET"
  | TT_RBRACKET => "RBRACKET" | TT_COMMA => "COMMA" | TT_COLON => "COLON"
  | TT_DOT => "DOT" | TT_DOTDOT => "DOTDOT" | TT_ARROW => "ARROW"
  | TT_FATARROW => "FATARROW" | TT_CMDPREFIX => "CMDPREFIX" | TT_NEWLINE => "NEWLINE"
  | TT_EOF => "EOF"
  end.

Definition is_type (t : TokType) (tok : Token) : bool := bool_decide (tok_type tok = t).

(** [tok.value == value] for a string [value]. *)
Definition has_value (value : string) (tok : Token) : bool :=
  match tok_value tok with
  | TVStr s => String.eqb s value
  | _ => false
  end.

(** The [value] of a token where the parser uses it as a name, an operator
    or a string literal.  The lexer gives such tokens a [str]. *)
Definition value_str (tok : Token) : P string :=
  match tok_value tok with
  | TVStr s => mret s
  | _ => raise (Unmodelled "a token value that is not a str")
  end.

(** *** helpers *)

Definition current : P Token := λ p,
  match tokens p !! pos p with
  | Some tok => (Ok tok, p)
  | None => (Raised (Host IndexError), p)
  end.

Definition peek : P Token := λ p,
  match tokens p !! S (pos p) with
  | Some tok => (Ok tok, p)
  | None =>
    match last (tokens p) with
    | Some tok => (Ok tok, p)
    | None => (Raised (Host IndexError), p)
    end
  end.

Definition advance : P Token :=
  tok ← current;
  _ ← modify (λ p, if Nat.ltb (S (pos p)) (length (tokens p))
                   then mkParser (tokens p) (S (pos p)) else p);
  mret tok.

Definition closer_hint (type_ : TokType) : string :=
  match type_ with
  | TT_RBRACE => "Did you forget to close a block with '}'?"
  | TT_RPAREN => "Did you forget a closing ')'?"
  | TT_RBRACKET => "Did you forget a closing ']'?"
  | _ => ""
  end.

Definition expect (type_ : TokType) (value : option string) : P Token :=
  tok ← current;
  if negb (is_type type_ tok) then
    raise (ParseError [Lit ("Expected '" +:+ tt_name type_ +:+ "', got '" +:+
                            tt_name (tok_type tok) +:+ "' (");
                       ReprTok (tok_value tok); Lit ")"]
             (tok_line tok) (tok_column tok) (closer_hint type_))
  else
    match value with
    | Some v =>
      if negb (has_value v tok) then
        raise (ParseError [Lit ("Expected '" +:+ v +:+ "', got '");
                           StrTok (tok_value tok); Lit "'"]
                 (tok_line tok) (tok_column tok) "")
      else advance
    | None => advance
    end.

(** [self.match(type_)] and [self.match(type_, value)]. *)
Definition match_ (type_ : TokType) : P bool :=
  tok ← current; mret (is_type type_ tok).

Definition match_value (type_ : TokType) (value : string) : P bool :=
  tok ← current; mret (is_type type_ tok && has_value value tok).

Fixpoint skip_newlines (n : nat) : P unit :=
  match n with
  | O => raise OutOfFuel
  | S n' =>
    b ← match_ TT_NEWLINE;
    if b : bool then _ ← advance; skip_newlines n' else mret tt
  end.

Definition set_pos (saved_pos : nat) : P unit :=
  modify (λ p, mkParser (tokens p) saved_pos).

Definition parse_error_here {A} (msg : Message) (hint : string) : P A :=
  tok ← current;
  raise (ParseError msg (tok_line tok) (tok_column tok) hint).

Section Descent.

Variable rec : Rec.
Variable budget : nat.

(** *** primaries *)

(** [while not self.match(TT_RPAREN): args.append(self.parse_expression());
     if self.match(TT_COMMA): self.advance()]. *)
Fixpoint arguments (n : nat) (args : list Node) : P (list Node) :=
  match n with
  | O => raise OutOfFuel
  | S n' =>
    closed ← match_ TT_RPAREN;
    if closed : bool then mret args
    else
      a ← rec_expression rec;
      comma ← match_ TT_COMMA;
      _ ← (if comma : bool then _ ← advance; mret tt else mret tt);
      arguments n' (args ++ [a])
  end.

Definition parse_call (name : string) : P Node :=
  _ ← expect TT_LPAREN None;
  args ← arguments budget [];
  _ ← expect TT_RPAREN None;
  mret (FunctionCallNode name args).

Definition parse_take : P Node :=
  _ ← advance;
  _ ← expect TT_LPAREN None;
  closed ← match_ TT_RPAREN;
  prompt ← (if closed : bool then mret None
            else e ← rec_expression rec; mret (Some e));
  _ ← expect TT_RPAREN None;
  mret (TakeNode prompt).

Fixpoint list_elements (n : nat) (elements : list Node) : P (list Node) :=
  match n with
  | O => raise OutOfFuel
  | S n' =>
    comma ← match_ TT_COMMA;
    if comma : bool then
      _ ← advance;
      closed ← match_ TT_RBRACKET;
      if closed : bool then mret elements
      else e ← rec_expression rec; list_elements n' (elements ++ [e])
    else mret elements
  end.

Definition parse_list : P Node :=
  _ ← advance;
  closed ← match_ TT_RBRACKET;
  elements ← (if closed : bool then mret []
              else e ← rec_expression rec; list_elements budget [e]);
  _ ← expect TT_RBRACKET None;
  mret (ListNode elements).

(** [Parser(tokens).parse_expression()] on the tokens of an interpolated
    fragment: a parser of its own, which leaves this one where it is. *)
Definition parse_fragment (text : string) : P Node := λ p,
  match Lexer.tokenize text with
  | Ok toks => ((rec_expression rec (mkParser toks 0)).1, p)
  | Raised r => (Raised r, p)
  end.

Fixpoint fstring_nodes (parts : list (string + string)) : P (list (string + Node)) :=
  match parts with
  | [] => mret []
  | inl value :: rest =>
    more ← fstring_nodes rest; mret (inl value :: more)
  | inr value :: rest =>
    expr_node ← parse_fragment value;
    more ← fstring_nodes rest;
    mret (inr expr_node :: more)
  end.

Definition parse_fstring (parts : TokValue) : P Node :=
  match parts with
  | TVParts ps => parsed ← fstring_nodes ps; mret (FStringNode parsed)
  | _ => raise (Unmodelled "an FSTRING token without parts")
  end.

(** The loop of [parse_object_literal]. *)
Fixpoint object_entries (n : nat) (pairs : list (Node * Node)) : P (list (Node * Node)) :=
  match n with
  | O => raise OutOfFuel
  | S n' =>
    _ ← skip_newlines budget;
    is_id ← match_ TT_IDENTIFIER;
    is_kw ← match_ TT_KEYWORD;
    is_s ← match_ TT_STRING;
    key ← (if is_id || is_kw then
             tok ← advance; s ← value_str tok; mret (StringNode s)
           else if is_s : bool then
             tok ← advance; s ← value_str tok; mret (StringNode s)
           else
             tok ← current;
             parse_error_here
               [Lit ("Expected a key in object literal, got '" +:+
                     tt_name (tok_type tok) +:+ "'")]
               "Object keys must be identifiers or strings.");
    _ ← expect TT_COLON None;
    value ← rec_expression rec;
    let pairs' := pairs ++ [(key, value)] in
    _ ← skip_newlines budget;
    comma ← match_ TT_COMMA;
    if comma : bool then
      _ ← advance;
      _ ← skip_newlines budget;
      closed ← match_ TT_RBRACE;
      if closed : bool then mret pairs' else object_entries n' pairs'
    else mret pairs'
  end.

Definition parse_object_literal : P Node :=
  _ ← advance;
  _ ← skip_newlines budget;
  closed ← match_ TT_RBRACE;
  if closed : bool then
    _ ← advance; mret (ObjectLiteralNode [])
  else
    pairs ← object_entries budget [];
    _ ← expect TT_RBRACE None;
    mret (ObjectLiteralNode pairs).

(** The parameters after the first one of a parenthesised lambda; the flag
    is [might_be_lambda]. *)
Fixpoint lambda_params (n : nat) (params : list string) : P (bool * list string) :=
  match n with
  | O => raise OutOfFuel
  | S n' =>
    comma ← match_ TT_COMMA;
    if comma : bool then
      _ ← advance;
      is_id ← match_ TT_IDENTIFIER;
      if is_id : bool then
        tok ← advance; s ← value_str tok; lambda_params n' (params ++ [s])
      else mret (false, params)
    else mret (true, params)
  end.

Definition grouped (saved_pos : nat) : P Node :=
  _ ← set_pos saved_pos;
  _ ← advance;
  expr ← rec_expression rec;
  _ ← expect TT_RPAREN None;
  mret expr.

Definition parse_paren_or_lambda : P Node :=
  p ← get_state;
  let saved_pos := pos p in
  _ ← advance;
  is_id ← match_ TT_IDENTIFIER;
  if is_id : bool then
    tok ← advance;
    first ← value_str tok;
    r ← lambda_params budget [first];
    closed ← match_ TT_RPAREN;
    if r.1 && closed then
      _ ← advance;
      arrow ← match_ TT_FATARROW;
      if arrow : bool then
        _ ← advance;
        body ← rec_expression rec;
        mret (LambdaNode r.2 body)
      else grouped saved_pos
    else grouped saved_pos
  else
    closed ← match_ TT_RPAREN;
    if closed : bool then
      _ ← advance;
      arrow ← match_ TT_FATARROW;
      if arrow : bool then
        _ ← advance;
        body ← rec_expression rec;
        mret (LambdaNode [] body)
      else grouped saved_pos
    else grouped saved_pos.

Definition valid_modifier (m : string) : bool :=
  String.eqb m "newl" || String.eqb m "space" || String.eqb m "tab".

Fixpoint say_modifiers (n : nat) (modifiers : list string) : P (list string) :=
  match n with
  | O => raise OutOfFuel
  | S n' =>
    dot ← match_ TT_DOT;
    if dot : bool then
      next_tok ← peek;
      if negb (is_type TT_IDENTIFIER next_tok || is_type TT_KEYWORD next_tok)
      then mret modifiers
      else
        _ ← advance;
        tok ← advance;
        m ← value_str tok;
        if negb (valid_modifier m) then
          parse_error_here [Lit ("Unknown say modifier '" +:+ m +:+ "'")]
            "Valid modifiers are: .newl, .space, .tab"
        else say_modifiers n' (modifiers ++ [m])
    else mret modifiers
  end.

Fixpoint say_parts (n : nat) (parts : list Node) : P (list Node) :=
  match n with
  | O => raise OutOfFuel
  | S n' =>
    comma ← match_ TT_COMMA;
    if comma : bool then
      _ ← advance;
      e ← rec_expression rec;
      say_parts n' (parts ++ [e])
    else mret parts
  end.

Definition say_chain (first : Node) (rest : list Node) : Node :=
  foldl (λ expr part, BinOpNode (BinOpNode expr "+" (StringNode " ")) "+" part) first rest.

Definition parse_say : P Node :=
  _ ← advance;
  _ ← expect TT_LPAREN None;
  closed ← match_ TT_RPAREN;
  expr ← (if closed : bool then
            _ ← advance; mret (StringNode "")
          else
            first ← rec_expression rec;
            comma ← match_ TT_COMMA;
            expr ← (if comma : bool then
                      parts ← say_parts budget [first];
                      match parts with
                      | [] => mret first
                      | x :: more => mret (say_chain x more)
                      end
                    else mret first);
            _ ← expect TT_RPAREN None;
            mret expr);
  modifiers ← say_modifiers budget [];
  mret (SayNode expr modifiers).

Definition parse_primary : P Node :=
  tok ← current;
  match tok_type tok with
  | TT_INT | TT_FLOAT => _ ← advance; mret (NumberNode (tok_value tok))
  | TT_STRING => _ ← advance; s ← value_str tok; mret (StringNode s)
  | TT_FSTRING => _ ← advance; parse_fstring (tok_value tok)
  | TT_KEYWORD =>
    if has_value "true" tok then _ ← advance; mret (BoolNode true)
    else if has_value "false" tok then _ ← advance; mret (BoolNode false)
    else if has_value "none" tok then _ ← advance; mret NoneNode
    else if has_value "take" tok then parse_take
    else if has_value "say" tok then parse_say
    else raise (ParseError [Lit "Unexpected token 'KEYWORD' ("; ReprTok (tok_value tok);
                            Lit ")"]
                  (tok_line tok) (tok_column tok) "Check your syntax near this location.")
  | TT_IDENTIFIER =>
    next_tok ← peek;
    if is_type TT_FATARROW next_tok then
      t ← advance;
      param ← value_str t;
      _ ← advance;
      body ← rec_expression rec;
      mret (LambdaNode [param] body)
    else
      t ← advance;
      name ← value_str t;
      call ← match_ TT_LPAREN;
      if call : bool then parse_call name else mret (IdentifierNode name)
  | TT_LBRACKET => parse_list
  | TT_LPAREN => parse_paren_or_lambda
  | TT_LBRACE => parse_object_literal
  | t => raise (ParseError [Lit ("Unexpected token '" +:+ tt_name t +:+ "' (");
                            ReprTok (tok_value tok); Lit ")"]
                  (tok_line tok) (tok_column tok) "Check your syntax near this location.")
  end.

(** *** expressions, from the tightest level to the loosest *)

Fixpoint postfix_chain (n : nat) (node : Node) : P Node :=
  match n with
  | O => raise OutOfFuel
  | S n' =>
    dot ← match_ TT_DOT;
    if dot : bool then
      next_tok ← peek;
      if is_type TT_IDENTIFIER next_tok || is_type TT_KEYWORD next_tok then
        _ ← advance;
        tok ← advance;
        method ← value_str tok;
        paren ← match_ TT_LPAREN;
        args ← (if paren : bool then
                  _ ← advance;
                  args ← arguments budget [];
                  _ ← expect TT_RPAREN None;
                  mret args
                else mret []);
        postfix_chain n' (MethodCallNode node method args)
      else mret node
    else
      bracket ← match_ TT_LBRACKET;
      if bracket : bool then
        _ ← advance;
        index ← rec_expression rec;
        _ ← expect TT_RBRACKET None;
        postfix_chain n' (IndexGetNode node index)
      else mret node
  end.

Definition parse_postfix : P Node :=
  node ← parse_primary;
  postfix_chain budget node.

Definition parse_unary : P Node :=
  minus ← match_ TT_MINUS;
  if minus : bool then
    tok ← advance;
    op ← value_str tok;
    operand ← rec_unary rec;
    mret (UnaryOpNode op operand)
  else parse_postfix.

Definition parse_power : P Node :=
  lhs ← parse_unary;
  pow ← match_ TT_POW;
  if pow : bool then
    tok ← advance;
    op ← value_str tok;
    rhs ← rec_power rec;
    mret (BinOpNode lhs op rhs)
  else mret lhs.

(** [while <the current token is one of the operators>: op = advance().value;
     right = operand(); left = BinOpNode(left, op, right)]. *)
Fixpoint binary_chain (n : nat) (is_op : Token → bool) (operand : P Node) (lhs : Node)
    : P Node :=
  match n with
  | O => raise OutOfFuel
  | S n' =>
    tok ← current;
    if is_op tok then
      t ← advance;
      op ← value_str t;
      rhs ← operand;
      binary_chain n' is_op operand (BinOpNode lhs op rhs)
    else mret lhs
  end.

Definition parse_mul_div : P Node :=
  lhs ← parse_power;
  binary_chain budget
    (λ tok, is_type TT_MUL tok || is_type TT_DIV tok || is_type TT_MOD tok)
    parse_power lhs.

Definition parse_add_sub : P Node :=
  lhs ← parse_mul_div;
  binary_chain budget (λ tok, is_type TT_PLUS tok || is_type TT_MINUS tok)
    parse_mul_div lhs.

Definition parse_comparison : P Node :=
  lhs ← parse_add_sub;
  binary_chain budget
    (λ tok, is_type TT_EQEQ tok || is_type TT_NEQ tok || is_type TT_LT tok
            || is_type TT_GT tok || is_type TT_LTE tok || is_type TT_GTE tok)
    parse_add_sub lhs.

Definition parse_not : P Node :=
  b ← match_value TT_KEYWORD "not";
  if b : bool then
    tok ← advance;
    op ← value_str tok;
    operand ← rec_not rec;
    mret (UnaryOpNode op operand)
  else parse_comparison.

Definition parse_and : P Node :=
  lhs ← parse_not;
  binary_chain budget (λ tok, is_type TT_KEYWORD tok && has_value "and" tok)
    parse_not lhs.

Definition parse_or : P Node :=
  lhs ← parse_and;
  binary_chain budget (λ tok, is_type TT_KEYWORD tok && has_value "or" tok)
    parse_and lhs.

Definition parse_expression : P Node := parse_or.

(** *** statements *)

Fixpoint block_body (n : nat) (stmts : list Node) : P (list Node) :=
  match n with
  | O => raise OutOfFuel
  | S n' =>
    closed ← match_ TT_RBRACE;
    eof ← match_ TT_EOF;
    if closed || eof then mret stmts
    else
      stmt ← rec_statement rec;
      _ ← skip_newlines budget;
      block_body n' (stmts ++ [stmt])
  end.

Definition parse_block : P Node :=
  _ ← skip_newlines budget;
  eof ← match_ TT_EOF;
  if eof : bool then
    parse_error_here [Lit "Expected '{' but found end of file"]
      "Did you forget to open a block with '{'?"
  else
    _ ← expect TT_LBRACE None;
    _ ← skip_newlines budget;
    stmts ← block_body budget [];
    eof' ← match_ TT_EOF;
    if eof' : bool then
      parse_error_here [Lit "Expected '}' but found end of file"]
        "Did you forget to close a block with '}'?"
    else
      _ ← expect TT_RBRACE None;
      mret (BlockNode stmts).

Definition parse_assignment : P Node :=
  tok ← advance;
  name ← value_str tok;
  _ ← advance;
  value ← parse_expression;
  mret (AssignNode name value).

Definition op_map (key : string) : P string :=
  if String.eqb key "+=" then mret "+"
  else if String.eqb key "-=" then mret "-"
  else if String.eqb key "*=" then mret "*"
  else if String.eqb key "/=" then mret "/"
  else raise (Host KeyError).

Definition parse_compound_assignment : P Node :=
  tok ← advance;
  name ← value_str tok;
  op_tok ← advance;
  key ← value_str op_tok;
  op ← op_map key;
  value ← parse_expression;
  mret (CompoundAssignNode name op value).

Definition parse_possible_index_assignment : P Node :=
  p ← get_state;
  let saved_pos := pos p in
  name_tok ← advance;
  _ ← advance;
  index ← parse_expression;
  _ ← expect TT_RBRACKET None;
  eq ← match_ TT_EQ;
  if eq : bool then
    _ ← advance;
    value ← parse_expression;
    name ← value_str name_tok;
    mret (IndexSetNode (IdentifierNode name) index value)
  else
    _ ← set_pos saved_pos;
    parse_expression.

Definition parse_return : P Node :=
  _ ← advance;
  tok ← current;
  if is_type TT_NEWLINE tok || is_type TT_RBRACE tok || is_type TT_EOF tok
  then mret (ReturnNode NoneNode)
  else value ← parse_expression; mret (ReturnNode value).

Fixpoint def_params (n : nat) (params : list string) : P (list string) :=
  match n with
  | O => raise OutOfFuel
  | S n' =>
    closed ← match_ TT_RPAREN;
    if closed : bool then mret params
    else
      tok ← expect TT_IDENTIFIER None;
      name ← value_str tok;
      comma ← match_ TT_COMMA;
      _ ← (if comma : bool then _ ← advance; mret tt else mret tt);
      def_params n' (params ++ [name])
  end.

Definition parse_function_def : P Node :=
  _ ← advance;
  tok ← expect TT_IDENTIFIER None;
  name ← value_str tok;
  _ ← expect TT_LPAREN None;
  params ← def_params budget [];
  _ ← expect TT_RPAREN None;
  arrow ← match_ TT_ARROW;
  return_type ← (if arrow : bool then
                   _ ← advance; t ← advance; mret (tok_value t)
                 else mret TVNone);
  body ← parse_block;
  mret (FunctionDefNode name params body return_type).

Definition parse_if : P Node :=
  _ ← advance;
  condition ← parse_expression;
  then_block ← parse_block;
  _ ← skip_newlines budget;
  has_else ← match_value TT_KEYWORD "else";
  else_block ← (if has_else : bool then
                  _ ← advance;
                  nested ← match_value TT_KEYWORD "if";
                  if nested : bool then e ← rec_if rec; mret (Some e)
                  else e ← parse_block; mret (Some e)
                else mret None);
  mret (IfNode condition then_block else_block).

Definition parse_while : P Node :=
  _ ← advance;
  _ ← expect TT_LPAREN None;
  condition ← parse_expression;
  _ ← expect TT_RPAREN None;
  body ← parse_block;
  mret (WhileNode condition body).

Definition parse_for : P Node :=
  _ ← advance;
  _ ← expect TT_LPAREN None;
  tok ← expect TT_IDENTIFIER None;
  var ← value_str tok;
  _ ← expect TT_KEYWORD (Some "in");
  start_expr ← parse_expression;
  range ← match_ TT_DOTDOT;
  if range : bool then
    _ ← advance;
    end_expr ← parse_expression;
    has_step ← match_value TT_KEYWORD "step";
    step_expr ← (if has_step : bool then
                   _ ← advance; e ← parse_expression; mret (Some e)
                 else mret None);
    has_reverse ← match_value TT_KEYWORD "reverse";
    reverse ← (if has_reverse : bool then _ ← advance; mret true else mret false);
    _ ← expect TT_RPAREN None;
    body ← parse_block;
    mret (ForRangeNode var start_expr end_expr step_expr reverse body)
  else
    _ ← expect TT_RPAREN None;
    body ← parse_block;
    mret (ForEachNode var start_expr body).

Definition parse_use : P Node :=
  _ ← advance;
  tok ← expect TT_IDENTIFIER None;
  name ← value_str tok;
  mret (UseNode name).

Fixpoint command_parts (n : nat) (parts : list string) : P (list string) :=
  match n with
  | O => raise OutOfFuel
  | S n' =>
    dot ← match_ TT_DOT;
    if dot : bool then
      _ ← advance;
      tok ← expect TT_IDENTIFIER None;
      s ← value_str tok;
      command_parts n' (parts ++ [s])
    else mret parts
  end.

Definition parse_builtin_command : P Node :=
  _ ← advance;
  tok ← expect TT_IDENTIFIER None;
  s ← value_str tok;
  parts ← command_parts budget [s];
  mret (BuiltinCommandNode (join "." parts)).

Definition parse_statement : P Node :=
  tok ← current;
  let kw value := is_type TT_KEYWORD tok && has_value value tok in
  if kw "fn" then parse_function_def
  else if kw "return" then parse_return
  else if kw "if" then parse_if
  else if kw "while" then parse_while
  else if kw "for" then parse_for
  else if kw "say" then parse_say
  else if kw "use" then parse_use
  else if kw "break" then _ ← advance; mret BreakNode
  else if kw "continue" then _ ← advance; mret ContinueNode
  else if is_type TT_CMDPREFIX tok then parse_builtin_command
  else if is_type TT_IDENTIFIER tok then
    next_tok ← peek;
    if is_type TT_EQ next_tok then parse_assignment
    else if is_type TT_PLUSEQ next_tok || is_type TT_MINUSEQ next_tok
            || is_type TT_MULEQ next_tok || is_type TT_DIVEQ next_tok
    then parse_compound_assignment
    else if is_type TT_LBRACKET next_tok then parse_possible_index_assignment
    else parse_expression
  else parse_expression.

End Descent.

(** The parsers with the descent tied back to them, [fuel] levels deep. *)
Fixpoint descend (fuel : nat) : Rec :=
  match fuel with
  | O => mkRec (raise OutOfFuel) (raise OutOfFuel) (raise OutOfFuel)
               (raise OutOfFuel) (raise OutOfFuel) (raise OutOfFuel)
  | S f =>
    let rec := descend f in
    mkRec (parse_expression rec f) (parse_not rec f) (parse_power rec f)
          (parse_unary rec f) (parse_statement rec f) (parse_if rec f)
  end.

Fixpoint program (rec : Rec) (budget n : nat) (stmts : list Node) : P (list Node) :=
  match n with
  | O => raise OutOfFuel
  | S n' =>
    eof ← match_ TT_EOF;
    if eof : bool then mret stmts
    else
      stmt ← parse_statement rec budget;
      _ ← skip_newlines budget;
      program rec budget n' (stmts ++ [stmt])
  end.

(** [Parser.parse]. *)
Definition parse_from (fuel : nat) : P Node :=
  _ ← skip_newlines fuel;
  stmts ← program (descend fuel) fuel fuel [];
  mret (BlockNode stmts).

(** [Parser(tokens).parse()]. *)
Definition parse (fuel : nat) (toks : list Token) : Result Node :=
  (parse_from fuel (mkParser toks 0)).1.

End Parser.

(** ** evaluator.py: class Evaluator

    Each [eval_XNode] is the method of that name.  [ev] stands for
    [self.eval] on the sub-nodes, and [budget] bounds the number of
    iterations of a loop over a condition or over a list that the body may
    extend. *)

Section Evaluator.

Variable ev : Node → loc → M Value.
Variable budget : nat.

Definition is_RuntimeError_ (r : Raise) : bool :=
  match r with RuntimeError_ _ _ _ _ => true | _ => false end.

Definition eval_args (args : list Node) (env : loc) : M (list Value) :=
  mapM (λ a, ev a env) args.

(** *** Literals *)

Definition eval_NumberNode (value : TokValue) : M Value :=
  match value with
  | TVInt z => mret (VInt z)
  | TVFloat f => mret (VFloat f)
  | TVStr s => mret (VStr s)
  | TVNone => mret VNone
  | TVParts _ => raise (Unmodelled "a number literal holding string parts")
  end.

Definition eval_StringNode (value : string) : M Value := mret (VStr value).
Definition eval_BoolNode (value : bool) : M Value := mret (VBool value).
Definition eval_NoneNode : M Value := mret VNone.

(** *** Lists and objects *)

Definition eval_ListNode (elements : list Node) (env : loc) : M Value :=
  xs ← eval_args elements env;
  new_list xs.

Fixpoint object_pairs (obj : loc) (pairs : list (Node * Node)) (env : loc) : M unit :=
  match pairs with
  | [] => mret tt
  | (key_node, val_node) :: rest =>
    key ← ev key_node env;
    val ← ev val_node env;
    st ← get_state;
    kvs ← lift (dict_setitem key val (dict_get st obj));
    _ ← set_dict obj kvs;
    object_pairs obj rest env
  end.

Definition eval_ObjectLiteralNode (pairs : list (Node * Node)) (env : loc) : M Value :=
  obj ← new_dict [];
  match obj with
  | VDict d => _ ← object_pairs d pairs env; mret obj
  | _ => mret obj
  end.

(** *** F-strings *)

Fixpoint fstring_parts (parts : list (string + Node)) (env : loc) : M (list string) :=
  match parts with
  | [] => mret []
  | inl value :: rest =>
    more ← fstring_parts rest env; mret (value :: more)
  | inr value :: rest =>
    result ← ev value env;
    st ← get_state;
    text ← lift (_format_value st result);
    more ← fstring_parts rest env;
    mret (text :: more)
  end.

Definition eval_FStringNode (parts : list (string + Node)) (env : loc) : M Value :=
  texts ← fstring_parts parts env;
  mret (VStr (join "" texts)).

(** *** Indexing *)

Definition is_index_error (r : Raise) : bool :=
  match r with
  | Host IndexError | Host TypeError | Host KeyError => true
  | _ => false
  end.

Definition exc_text (r : Raise) : MsgPart :=
  match r with
  | Host e => ExcText e
  | _ => Lit ""
  end.

Definition eval_IndexGetNode (target_node index_node : Node) (env : loc) : M Value :=
  target ← ev target_node env;
  index ← ev index_node env;
  try_except
    (st ← get_state;
     match target with
     | VDict d =>
       r ← lift (dict_lookup index (dict_get st d));
       match r with
       | Some v => mret v
       | None => raise (Host KeyError)
       end
     | _ =>
       i ← lift (py_int index);
       match target with
       | VList l =>
         let xs := list_get st l in
         match py_index (length xs) i ≫= (xs !!.) with
         | Some v => mret v
         | None => raise (Host IndexError)
         end
       | VStr s =>
         let xs := chars s in
         match py_index (length xs) i ≫= (xs !!.) with
         | Some v => mret v
         | None => raise (Host IndexError)
         end
       | _ => raise (Host TypeError)
       end
     end)
    is_index_error
    (λ e, runtime_error [Lit "Index error: "; exc_text e]).

Definition eval_IndexSetNode (target_node index_node value_node : Node) (env : loc)
    : M Value :=
  target ← ev target_node env;
  index ← ev index_node env;
  value ← ev value_node env;
  try_except
    (st ← get_state;
     match target with
     | VDict d =>
       kvs ← lift (dict_setitem index value (dict_get st d));
       _ ← set_dict d kvs;
       mret value
     | _ =>
       i ← lift (py_int index);
       match target with
       | VList l =>
         let xs := list_get st l in
         match py_index (length xs) i with
         | Some j => _ ← set_list l (<[j := value]> xs); mret value
         | None => raise (Host IndexError)
         end
       | _ => raise (Host TypeError)
       end
     end)
    is_index_error
    (λ e, runtime_error [Lit "Index assignment error: "; exc_text e]).

(** *** Variables *)

Definition eval_IdentifierNode (name : string) (env : loc) : M Value :=
  Environment_get env name.

Definition eval_AssignNode (name : string) (value_node : Node) (env : loc) : M Value :=
  value ← ev value_node env;
  _ ← Environment_assign env name value;
  mret value.

(** The string branch shared by [+] and [+=]: [str(a) + str(b)]. *)
Definition str_concat (a b : Value) : M Value :=
  st ← get_state;
  s ← lift (py_str st a);
  t ← lift (py_str st b);
  mret (VStr (s +:+ t)).

Definition eval_CompoundAssignNode (name op : string) (value_node : Node) (env : loc)
    : M Value :=
  current ← Environment_get env name;
  right ← ev value_node env;
  result ← try_except
    (if String.eqb op "+" then
       if is_str current || is_str right then str_concat current right
       else py_add current right
     else if String.eqb op "-" then py_sub current right
     else if String.eqb op "*" then py_mul current right
     else if String.eqb op "/" then
       if eq_zero right then runtime_error [Lit "Division by zero"]
       else py_truediv current right
     else runtime_error [Lit ("Unknown compound operator '" +:+ op +:+ "'")])
    is_TypeError
    (λ e, runtime_error [exc_text e]);
  _ ← Environment_assign env name result;
  mret result.

(** *** Operations *)

Definition py_eq_op (negate : bool) (a b : Value) : M Value :=
  st ← get_state;
  r ← lift (py_eq st a b);
  mret (VBool (if negate then negb r else r)).

Definition eval_BinOpNode (left_node : Node) (op : string) (right_node : Node) (env : loc)
    : M Value :=
  left ← ev left_node env;
  right ← ev right_node env;
  try_except
    (if String.eqb op "+" then
       if is_str left || is_str right then str_concat left right
       else py_add left right
     else if String.eqb op "-" then py_sub left right
     else if String.eqb op "*" then py_mul left right
     else if String.eqb op "/" then
       if eq_zero right then runtime_error [Lit "Division by zero"]
       else py_truediv left right
     else if String.eqb op "%" then py_mod left right
     else if String.eqb op "**" then py_pow left right
     else if String.eqb op "==" then py_eq_op false left right
     else if String.eqb op "!=" then py_eq_op true left right
     else if String.eqb op "<" then py_order OLt left right
     else if String.eqb op ">" then py_order OGt left right
     else if String.eqb op "<=" then py_order OLe left right
     else if String.eqb op ">=" then py_order OGe left right
     else if String.eqb op "and" then
       st ← get_state; mret (VBool (py_bool st left && py_bool st right))
     else if String.eqb op "or" then
       st ← get_state; mret (VBool (py_bool st left || py_bool st right))
     else runtime_error [Lit ("Unknown operator '" +:+ op +:+ "'")])
    is_TypeError
    (λ e, runtime_error [exc_text e]).

Definition eval_UnaryOpNode (op : string) (operand : Node) (env : loc) : M Value :=
  val ← ev operand env;
  if String.eqb op "-" then
    match val with
    | VFloat f => mret (VFloat (PrimFloat.opp f))
    | _ =>
      match as_int val with
      | Some z => mret (VInt (- z))
      | None => raise (Host TypeError)
      end
    end
  else if String.eqb op "not" then
    st ← get_state; mret (VBool (negb (py_bool st val)))
  else runtime_error [Lit ("Unknown unary op '" +:+ op +:+ "'")].

(** *** say and take *)

Definition modifier_end (modifiers : list string) : string :=
  foldl (λ e modifier,
           let e1 := if String.eqb modifier "newl" then e +:+ nl else e in
           let e2 := if String.eqb modifier "space" then e1 +:+ " " else e1 in
           if String.eqb modifier "tab" then e2 +:+ tab else e2)
        "" modifiers.

Definition eval_SayNode (expr : Node) (modifiers : list string) (env : loc) : M Value :=
  value ← ev expr env;
  st ← get_state;
  text ← lift (_format_value st value);
  _ ← print (text +:+ modifier_end modifiers);
  mret VNone.

(** [input(prompt)]: the prompt goes to the output, then a line is read; at
    the end of the input the result is the empty string. *)
Definition read_line : M Value := λ st,
  match input st with
  | [] => (Ok (VStr ""), st)
  | line :: rest =>
    (Ok (VStr line),
     mkState (envs st) (lists st) (dicts st) (next_id st) (output st) rest
       (files st) (base_path st))
  end.

Definition eval_TakeNode (prompt_node : option Node) (env : loc) : M Value :=
  prompt ← match prompt_node with
           | Some p =>
             v ← ev p env; st ← get_state; lift (py_str st v)
           | None => mret ""
           end;
  _ ← print prompt;
  read_line.

(** *** Calls *)

Fixpoint bind_params (call_env : loc) (params : list string) (args : list Value)
    : M unit :=
  match params, args with
  | param :: ps, arg :: rest =>
    _ ← Environment_set call_env param arg;
    bind_params call_env ps rest
  | _, _ => mret tt
  end.

Definition is_ReturnSignal (r : Raise) : bool :=
  match r with ReturnSignal _ => true | _ => false end.

Definition _call_function (fn : Value) (args : list Value) : M Value :=
  match fn with
  | EushaLambda _ params body fn_env =>
    if negb (Nat.eqb (length args) (length params)) then
      runtime_error [Lit ("Lambda expects " +:+ pretty (length params) +:+
                          " args, got " +:+ pretty (length args))]
    else
      call_env ← Environment_new (Some fn_env);
      _ ← bind_params call_env params args;
      ev body call_env
  | EushaFunction _ name params body fn_env _ =>
    if negb (Nat.eqb (length args) (length params)) then
      runtime_error [Lit ("'" +:+ name +:+ "' expects " +:+ pretty (length params) +:+
                          " args, got " +:+ pretty (length args))]
    else
      call_env ← Environment_new (Some fn_env);
      _ ← bind_params call_env params args;
      try_except
        (_ ← ev body call_env; mret VNone)
        is_ReturnSignal
        (λ rs, match rs with ReturnSignal value => mret value | _ => mret VNone end)
  | _ => runtime_error [Lit "Value is not callable"]
  end.

(** *** Method calls *)

(** [for item in obj: ...] of [.filter]: the iteration reads the list as it
    is at each step. *)
Fixpoint filter_loop (n : nat) (fn : Value) (obj : loc) (i : nat) (result : loc) : M unit :=
  match n with
  | O => raise OutOfFuel
  | S n' =>
    st ← get_state;
    match list_get st obj !! i with
    | None => mret tt
    | Some item =>
      val ← _call_function fn [item];
      st' ← get_state;
      _ ← (if py_bool st' val then set_list result (list_get st' result ++ [item])
           else mret tt);
      filter_loop n' fn obj (S i) result
    end
  end.

Fixpoint map_loop (n : nat) (fn : Value) (obj : loc) (i : nat) (acc : list Value)
    : M (list Value) :=
  match n with
  | O => raise OutOfFuel
  | S n' =>
    st ← get_state;
    match list_get st obj !! i with
    | None => mret acc
    | Some item =>
      val ← _call_function fn [item];
      map_loop n' fn obj (S i) (acc ++ [val])
    end
  end.

(** [max(xs)] and [min(xs)]: the first element that no later one beats. *)
Fixpoint extremum (o : Ordering) (best : Value) (rest : list Value) : M Value :=
  match rest with
  | [] => mret best
  | item :: more =>
    c ← py_order o item best;
    st ← get_state;
    extremum o (if py_bool st c then item else best) more
  end.

Definition is_conversion_error (r : Raise) : bool :=
  match r with
  | Host ValueError | Host TypeError => true
  | _ => false
  end.

Definition module_method (obj : Value) (name : string) (mod_env : loc)
    (method : string) (args : list Value) : M Value :=
  fn ← try_except (Environment_get mod_env method) is_RuntimeError_
         (λ _, runtime_error [Lit ("Module '" +:+ name +:+ "' has no attribute '" +:+
                                   method +:+ "'")]);
  match fn with
  | VNative _ _ => raise (Unmodelled "call of a native function")
  | EushaFunction _ _ _ _ _ _ | EushaLambda _ _ _ _ => _call_function fn args
  | _ =>
    match args with
    | [] => mret fn
    | _ => runtime_error [Lit ("'" +:+ method +:+ "' in module '" +:+ name +:+
                               "' is not callable")]
    end
  end.

Definition dict_method (d : loc) (method : string) (args : list Value) : M Value :=
  st ← get_state;
  let kvs := dict_get st d in
  if String.eqb method "keys" then new_list (map fst kvs)
  else if String.eqb method "values" then new_list (map snd kvs)
  else if String.eqb method "length" then mret (VInt (Z.of_nat (length kvs)))
  else if String.eqb method "has" then
    match args with
    | [key] => r ← lift (dict_lookup key kvs); mret (VBool (bool_decide (is_Some r)))
    | _ => runtime_error [Lit ".has() takes exactly 1 argument"]
    end
  else
    r ← lift (dict_find (VStr method) kvs);
    match r, args with
    | Some v, [] => mret v
    | _, _ => runtime_error [Lit ("Unknown object method '." +:+ method +:+ "()'")]
    end.

(** [int(obj)], [float(obj)], [str(obj)] for the three conversion methods;
    [None] when [method] is none of them. *)
Definition conversion (obj : Value) (method : string) : M (option Value) :=
  try_except
    (if String.eqb method "to_int" then
       z ← lift (py_int obj); mret (Some (VInt z))
     else if String.eqb method "to_float" then
       match obj with
       | VFloat f => mret (Some (VFloat f))
       | VInt _ | VBool _ | VStr _ => raise (Unmodelled "float() of an int or a string")
       | _ => raise (Host TypeError)
       end
     else if String.eqb method "to_str" then
       st ← get_state; s ← lift (py_str st obj); mret (Some (VStr s))
     else mret None)
    is_conversion_error
    (λ e, runtime_error [Lit "Cannot convert "; ReprOf obj;
                         Lit (" with ." +:+ method +:+ "(): "); exc_text e]).

Definition list_method (obj : Value) (l : loc) (method : string) (args : list Value)
    : M Value :=
  st ← get_state;
  let xs := list_get st l in
  if String.eqb method "push" then
    match args with
    | [x] => _ ← set_list l (xs ++ [x]); mret obj
    | _ => runtime_error [Lit ".push() takes exactly 1 argument"]
    end
  else if String.eqb method "pop" then
    match last xs with
    | None => runtime_error [Lit "Cannot .pop() from an empty list"]
    | Some x => _ ← set_list l (removelast xs); mret x
    end
  else if String.eqb method "sort" then
    sorted ← lift (py_sort xs); _ ← set_list l sorted; mret obj
  else if String.eqb method "reverse" then
    _ ← set_list l (reverse xs); mret obj
  else if String.eqb method "sum" then
    foldl (λ acc x, a ← acc; py_add a x) (mret (VInt 0)) xs
  else if String.eqb method "max" then
    match xs with
    | [] => raise (Host ValueError)
    | x :: rest => extremum OGt x rest
    end
  else if String.eqb method "min" then
    match xs with
    | [] => raise (Host ValueError)
    | x :: rest => extremum OLt x rest
    end
  else if String.eqb method "length" then mret (VInt (Z.of_nat (length xs)))
  else if String.eqb method "filter" then
    match args with
    | [fn] =>
      result ← new_list [];
      match result with
      | VList r => _ ← filter_loop budget fn l 0 r; mret result
      | _ => mret result
      end
    | _ => runtime_error [Lit ".filter() takes exactly 1 argument (a function)"]
    end
  else if String.eqb method "map" then
    match args with
    | [fn] => ys ← map_loop budget fn l 0 []; new_list ys
    | _ => runtime_error [Lit ".map() takes exactly 1 argument (a function)"]
    end
  else runtime_error [Lit ("Unknown list method '." +:+ method +:+ "()'")].

Definition string_method (s : string) (method : string) (args : list Value) : M Value :=
  if String.eqb method "length" then mret (VInt (Z.of_nat (String.length s)))
  else if String.eqb method "upper" then raise (Unmodelled "str.upper")
  else if String.eqb method "lower" then raise (Unmodelled "str.lower")
  else if String.eqb method "trim" then raise (Unmodelled "str.strip")
  else if String.eqb method "contains" then
    match args with
    | [VStr sub] => mret (VBool (is_substring sub s))
    | [_] => raise (Host TypeError)
    | _ => runtime_error [Lit ".contains() takes exactly 1 argument"]
    end
  else if String.eqb method "split" then raise (Unmodelled "str.split")
  else if String.eqb method "replace" then
    match args with
    | [_; _] => raise (Unmodelled "str.replace")
    | _ => runtime_error [Lit ".replace() takes exactly 2 arguments"]
    end
  else runtime_error [Lit ("Unknown string method '." +:+ method +:+ "()'")].

Definition call_method (obj : Value) (method : string) (args : list Value) : M Value :=
  match obj with
  | EushaModule _ name mod_env => module_method obj name mod_env method args
  | VDict d => dict_method d method args
  | _ =>
    c ← conversion obj method;
    match c with
    | Some v => mret v
    | None =>
      match obj with
      | VList l => list_method obj l method args
      | VStr s => string_method s method args
      | _ => runtime_error [Lit ("Unknown method '." +:+ method +:+ "()' on ");
                            TypeOf obj]
      end
    end
  end.

Definition eval_MethodCallNode (obj_node : Node) (method : string) (arg_nodes : list Node)
    (env : loc) : M Value :=
  obj ← ev obj_node env;
  args ← eval_args arg_nodes env;
  call_method obj method args.

(** *** Control flow *)

Definition eval_IfNode (condition then_block : Node) (else_block : option Node)
    (env : loc) : M Value :=
  c ← ev condition env;
  st ← get_state;
  if py_bool st c then ev then_block env
  else match else_block with
       | Some e => ev e env
       | None => mret VNone
       end.

(** One pass through a loop body:
    [try: self.eval(node.body, env)  except BreakSignal: break
     except ContinueSignal: continue  except ReturnSignal: raise].
    The result tells whether the loop goes on. *)
Definition run_body (body : Node) (env : loc) : M bool := λ st,
  match ev body env st with
  | (Ok _, st') => (Ok true, st')
  | (Raised BreakSignal, st') => (Ok false, st')
  | (Raised ContinueSignal, st') => (Ok true, st')
  | (Raised r, st') => (Raised r, st')
  end.

Fixpoint while_loop (n : nat) (condition body : Node) (env : loc) : M Value :=
  match n with
  | O => raise OutOfFuel
  | S n' =>
    c ← ev condition env;
    st ← get_state;
    if py_bool st c then
      go ← run_body body env;
      if go : bool then while_loop n' condition body env else mret VNone
    else mret VNone
  end.

Definition eval_WhileNode (condition body : Node) (env : loc) : M Value :=
  while_loop budget condition body env.

(** [for item in items: env.set(var, item); ...] over a sequence that cannot
    change while the loop runs (a [range], the characters of a string). *)
Fixpoint for_items (var : string) (body : Node) (env : loc) (items : list Value)
    : M Value :=
  match items with
  | [] => mret VNone
  | item :: rest =>
    _ ← Environment_set env var item;
    go ← run_body body env;
    if go : bool then for_items var body env rest else mret VNone
  end.

(** The same loop over a list object, read again at every step. *)
Fixpoint for_list (n : nat) (var : string) (body : Node) (env : loc) (l : loc) (i : nat)
    : M Value :=
  match n with
  | O => raise OutOfFuel
  | S n' =>
    st ← get_state;
    match list_get st l !! i with
    | None => mret VNone
    | Some item =>
      _ ← Environment_set env var item;
      go ← run_body body env;
      if go : bool then for_list n' var body env l (S i) else mret VNone
    end
  end.

(** The same loop over the keys of a dict: every step first checks that the
    dict still has the size it had when the loop began. *)
Fixpoint for_keys (var : string) (body : Node) (env : loc) (d : loc) (size : nat)
    (keys : list Value) : M Value :=
  st ← get_state;
  if negb (Nat.eqb (length (dict_get st d)) size) then raise (Host PyRuntimeError)
  else match keys with
       | [] => mret VNone
       | key :: rest =>
         _ ← Environment_set env var key;
         go ← run_body body env;
         if go : bool then for_keys var body env d size rest else mret VNone
       end.

Definition eval_ForRangeNode (var : string) (start_node end_node : Node)
    (step_node : option Node) (reverse : bool) (body : Node) (env : loc) : M Value :=
  start ← ev start_node env;
  end_ ← ev end_node env;
  step ← match step_node with
         | Some s => ev s env
         | None => mret (VInt 1)
         end;
  if negb (is_number start) then runtime_error [Lit "Range start must be a number"]
  else if negb (is_number end_) then runtime_error [Lit "Range end must be a number"]
  else
    s ← lift (py_int start);
    e ← lift (py_int end_);
    k ← lift (py_int step);
    if Z.abs k =? 0 then raise (Host ValueError)
    else
      let rng := if reverse then py_range true s (e - 1) (Z.abs k)
                 else py_range false s (e + 1) (Z.abs k) in
      for_items var body env (map VInt rng).

Definition eval_ForEachNode (var : string) (iterable_node body : Node) (env : loc)
    : M Value :=
  iterable ← ev iterable_node env;
  match iterable with
  | VStr s => for_items var body env (chars s)
  | VList l => for_list budget var body env l 0
  | VDict d =>
    st ← get_state;
    let kvs := dict_get st d in
    for_keys var body env d (length kvs) (map fst kvs)
  | _ => runtime_error [Lit "'"; StrOf iterable; Lit "' is not iterable"]
  end.

Definition eval_BreakNode : M Value := raise BreakSignal.
Definition eval_ContinueNode : M Value := raise ContinueSignal.

(** *** Lambdas and functions *)

Definition eval_LambdaNode (params : list string) (body : Node) (env : loc) : M Value :=
  id ← fresh_id;
  mret (EushaLambda id params body env).

Definition eval_FunctionDefNode (name : string) (params : list string) (body : Node)
    (return_type : TokValue) (env : loc) : M Value :=
  id ← fresh_id;
  _ ← Environment_set env name (EushaFunction id name params body env return_type);
  mret VNone.

Definition help_all : M Value :=
  _ ← print (nl +:+ "  Elang Help System" +:+ nl);
  _ ← print ("  " +:+ repeat_string 30 "=" +:+ nl);
  _ ← print ("  Available topics:" +:+ nl);
  _ ← foldl (λ acc topic, _ ← acc; print ("    - " +:+ topic +:+ nl)) (mret tt)
        (sorted_strings (map fst HELP_REGISTRY));
  _ ← print (nl +:+ "  Usage: help(" +:+ dq +:+ "topic" +:+ dq +:+ ")" +:+ nl +:+ nl);
  mret VNone.

Definition help_topic (topic : string) : M Value :=
  match assoc topic HELP_REGISTRY with
  | Some text =>
    _ ← print (nl +:+ "  Help: " +:+ topic +:+ nl);
    _ ← print ("  " +:+ repeat_string 30 "-" +:+ nl);
    _ ← print (text +:+ nl);
    mret VNone
  | None =>
    _ ← print (nl +:+ "  No help available for '" +:+ topic +:+ "'." +:+ nl +:+ nl);
    mret VNone
  end.

Definition eval_FunctionCallNode (name : string) (arg_nodes : list Node) (env : loc)
    : M Value :=
  args ← eval_args arg_nodes env;
  if String.eqb name "len" then
    match args with
    | [VStr s] => mret (VInt (Z.of_nat (String.length s)))
    | [VList l] => st ← get_state; mret (VInt (Z.of_nat (length (list_get st l))))
    | [obj] => runtime_error [Lit "len() not supported for "; TypeOf obj]
    | _ => runtime_error [Lit "len() takes exactly 1 argument"]
    end
  else if String.eqb name "help" then
    match args with
    | [] => help_all
    | arg :: _ => st ← get_state; topic ← lift (py_str st arg); help_topic topic
    end
  else
    fn ← Environment_get env name;
    match fn with
    | EushaFunction _ _ _ _ _ _ | EushaLambda _ _ _ _ => _call_function fn args
    | _ => runtime_error [Lit ("'" +:+ name +:+ "' is not a function")]
    end.

Definition eval_ReturnNode (value_node : Node) (env : loc) : M Value :=
  value ← ev value_node env;
  raise (ReturnSignal value).

(** *** Modules *)

Fixpoint set_natives (mod_env : loc) (names : list string) : M unit :=
  match names with
  | [] => mret tt
  | name :: rest =>
    id ← fresh_id;
    _ ← Environment_set mod_env name (VNative id name);
    set_natives mod_env rest
  end.

Definition bind_module (module_name : string) (mod_env : loc) (env : loc) : M Value :=
  id ← fresh_id;
  _ ← Environment_set env module_name (EushaModule id module_name mod_env);
  mret VNone.

(** [Evaluator(source_lines, base_path)]: [__init__] makes a global
    environment of its own, with the two markers of [_setup_builtins], and
    takes [base_path or os.getcwd()] as its base path. *)
Definition Evaluator_new (path : string) : M (loc * string) :=
  global_env ← Environment_new None;
  _ ← Environment_set global_env "__builtin_len__" (VBool true);
  _ ← Environment_set global_env "__builtin_help__" (VBool true);
  st ← get_state;
  mret (global_env, if String.eqb path "" then os_getcwd (files st) else path).

(** A method of another evaluator, run to its end: while it runs,
    [self.base_path] is the base path of that evaluator; afterwards, after a
    return as after a raise, it is again the one of the caller. *)
Definition in_evaluator {A} (path : string) (m : M A) : M A := λ st,
  let '(r, st') := m (with_base_path path st) in
  (r, with_base_path (base_path st) st').

Definition read_source (module_path : string) : M string := λ st,
  match open_read (files st) module_path with
  | inr source => (Ok source, st)
  | inl e => (Raised (Host e), st)
  end.

Definition eval_UseNode (module_name : string) (env : loc) : M Value :=
  if String.eqb module_name "math" then
    mod_env ← Environment_new None;
    _ ← Environment_set mod_env "pi" (VFloat 0x1.921fb54442d18p+1%float);
    _ ← Environment_set mod_env "e" (VFloat 0x1.5bf0a8b145769p+1%float);
    _ ← set_natives mod_env
          ["sqrt"; "abs"; "floor"; "ceil"; "round"; "pow"; "sin"; "cos"; "tan"; "log"];
    bind_module module_name mod_env env
  else if String.eqb module_name "random" then
    mod_env ← Environment_new None;
    _ ← set_natives mod_env ["randint"; "random"; "choice"; "shuffle"; "uniform"];
    bind_module module_name mod_env env
  else
    st ← get_state;
    let fs := files st in
    let module_path := os_path_join fs (base_path st) [module_name +:+ ".elang"] in
    let module_path :=
      if negb (os_path_exists fs module_path)
      then os_path_join fs (base_path st) ["modules"; module_name +:+ ".elang"]
      else module_path in
    if negb (os_path_exists fs module_path)
    then runtime_error [Lit ("Module '" +:+ module_name +:+ "' not found")]
    else
      source ← read_source module_path;
      tokens ← lift (Lexer.tokenize source);
      ast ← lift (Parser.parse budget tokens);
      mod_env ← Environment_new None;
      mod_evaluator ← Evaluator_new (os_path_dirname fs module_path);
      _ ← in_evaluator mod_evaluator.2 (ev ast mod_env);
      bind_module module_name mod_env env.

(** *** Built-in commands and blocks *)

Definition eval_BuiltinCommandNode (command : string) : M Value :=
  _ ← match assoc command BUILTIN_COMMANDS with
      | Some text => print (text +:+ nl)
      | None => print ("[elang] Unknown command: &&" +:+ command +:+ nl)
      end;
  mret VNone.

Fixpoint block_statements (statements : list Node) (env : loc) (result : Value)
    : M Value :=
  match statements with
  | [] => mret result
  | stmt :: rest =>
    r ← ev stmt env;
    block_statements rest env r
  end.

Definition eval_BlockNode (statements : list Node) (env : loc) : M Value :=
  block_statements statements env VNone.

End Evaluator.

(** [Evaluator.eval]: dispatch on the class of the node.  [fuel] bounds the
    depth of the walk. *)
Fixpoint eval (fuel : nat) (node : Node) (env : loc) : M Value :=
  match fuel with
  | O => raise OutOfFuel
  | S f =>
    let ev := eval f in
    match node with
    | NumberNode value => eval_NumberNode value
    | StringNode value => eval_StringNode value
    | BoolNode value => eval_BoolNode value
    | NoneNode => eval_NoneNode
    | ListNode elements => eval_ListNode ev elements env
    | ObjectLiteralNode pairs => eval_ObjectLiteralNode ev pairs env
    | FStringNode parts => eval_FStringNode ev parts env
    | IndexGetNode target index => eval_IndexGetNode ev target index env
    | IndexSetNode target index value => eval_IndexSetNode ev target index value env
    | IdentifierNode name => eval_IdentifierNode name env
    | AssignNode name value => eval_AssignNode ev name value env
    | CompoundAssignNode name op value => eval_CompoundAssignNode ev name op value env
    | BinOpNode lhs op rhs => eval_BinOpNode ev lhs op rhs env
    | UnaryOpNode op operand => eval_UnaryOpNode ev op operand env
    | SayNode expr modifiers => eval_SayNode ev expr modifiers env
    | TakeNode prompt => eval_TakeNode ev prompt env
    | MethodCallNode obj method args => eval_MethodCallNode ev f obj method args env
    | IfNode condition then_block else_block =>
      eval_IfNode ev condition then_block else_block env
    | WhileNode condition body => eval_WhileNode ev f condition body env
    | ForRangeNode var start end_ step reverse body =>
      eval_ForRangeNode ev var start end_ step reverse body env
    | ForEachNode var iterable body => eval_ForEachNode ev f var iterable body env
    | BreakNode => eval_BreakNode
    | ContinueNode => eval_ContinueNode
    | LambdaNode params body => eval_LambdaNode params body env
    | FunctionDefNode name params body return_type =>
      eval_FunctionDefNode name params body return_type env
    | FunctionCallNode name args => eval_FunctionCallNode ev name args env
    | ReturnNode value => eval_ReturnNode ev value env
    | UseNode module_name => eval_UseNode ev f module_name env
    | BuiltinCommandNode command => eval_BuiltinCommandNode command
    | BlockNode statements => eval_BlockNode ev statements env
    end
  end.

(** [Evaluator.__init__] of the evaluator that [elang.py] makes: the global
    environment with the two built-in markers of [_setup_builtins], on a
    host with the files [fs] and the lines [stdin] on its standard input. *)
Definition global_env : loc := 0%nat.

Definition Evaluator_init (fs : FileSystem) (path : string) (stdin : list string)
    : State :=
  set_var global_env "__builtin_help__" (VBool true)
    (set_var global_env "__builtin_len__" (VBool true)
       (mkState [mkEnvironment ∅ None] [] [] 0%nat [] stdin fs
          (if String.eqb path "" then os_getcwd fs else path))).

(** [Evaluator.run]. *)
Definition run (fuel : nat) (ast : Node) : M Value := eval fuel ast global_env.

(** ** elang.py: the driver *)

(** The [except] clause of [run_source] that handles a raise:
    - [Structured]: [except (LexerError, ParseError, RuntimeError_)], which
      prints [format_error(e, source_lines)];
    - [RecursionDepth]: [except RecursionError];
    - [Internal]: [except Exception], which prints [Internal Error: {e}].
    The control signals are subclasses of [Exception]. *)
Inductive Handler := Structured | RecursionDepth | Internal.

Definition handler_of (r : Raise) : option Handler :=
  match r with
  | LexerError _ _ _ _ | ParseError _ _ _ _ | RuntimeError_ _ _ _ _ => Some Structured
  | Host RecursionError => Some RecursionDepth
  | Host _ | ReturnSignal _ | BreakSignal | ContinueSignal => Some Internal
  | Unmodelled _ | OutOfFuel => None
  end.

(** What a call of [run_source] does: [Success] returns [True]; [Failure]
    prints a message on the standard error through the given clause and
    returns [False]; [Beyond] is a run the model does not describe. *)
Inductive Outcome :=
| Success
| Failure (h : Handler) (e : Raise)
| Beyond (e : Raise).

Definition returns (o : Outcome) : option bool :=
  match o with
  | Success => Some true
  | Failure _ _ => Some false
  | Beyond _ => None
  end.

Definition handle (r : Raise) : Outcome :=
  match handler_of r with
  | Some h => Failure h r
  | None => Beyond r
  end.

(** The part of [run_source] from [evaluator.run(ast)] on. *)
Definition run_ast (fuel : nat) (ast : Node) (st : State) : Outcome * State :=
  match run fuel ast st with
  | (Ok _, st') => (Success, st')
  | (Raised r, st') => (handle r, st')
  end.

(** [run_source(source, evaluator)]; [st] is the state of the evaluator. *)
Definition run_source (fuel : nat) (text : string) (st : State) : Outcome * State :=
  match Lexer.tokenize text with
  | Raised r => (handle r, st)
  | Ok toks =>
    match Parser.parse fuel toks with
    | Raised r => (handle r, st)
    | Ok ast => run_ast fuel ast st
    end
  end.

(** *** format_error *)

(** [str.splitlines()] on code points below 256: the line boundaries are
    [\n], [\r], [\r\n], [\v], [\f], [\x1c], [\x1d], [\x1e] and [\x85]; a
    last line is there only if it is not empty. *)
Definition is_linebreak (c : ascii) : bool :=
  bool_decide (N_of_ascii c ∈ [10; 11; 12; 13; 28; 29; 30; 133]%N).

Fixpoint splitlines_go (current_line : string) (s : string) : list string :=
  match s with
  | EmptyString => if String.eqb current_line "" then [] else [current_line]
  | String c r =>
    if is_linebreak c then
      current_line ::
      match r with
      | String c2 r2 =>
        if Ascii.eqb c (ascii_of_N 13) && Ascii.eqb c2 (ascii_of_N 10)
        then splitlines_go "" r2 else splitlines_go "" r
      | EmptyString => splitlines_go "" r
      end
    else splitlines_go (current_line +:+ String c "") r
  end.

Definition splitlines (s : string) : list string := splitlines_go "" s.

(** The text of a message all of whose parts are literal. *)
Fixpoint message_text (msg : Message) : Result string :=
  match msg with
  | [] => Ok ""
  | Lit s :: rest => t ← message_text rest; Ok (s +:+ t)
  | _ :: _ => Raised (Unmodelled "text produced by the host")
  end.

(** [format_error(error, source_lines)] for the three classes of error that
    [run_source] passes to it. *)
Definition format_error (error : Raise) (source_lines : list string) : Result string :=
  match error with
  | LexerError msg line_num column hint
  | ParseError msg line_num column hint
  | RuntimeError_ msg line_num column hint =>
    let error_type :=
      match error with RuntimeError_ _ _ _ _ => "RuntimeError" | _ => "SyntaxError" end in
    text ← message_text msg;
    let header := [nl +:+ "  " +:+ error_type +:+ " at line " +:+ pretty line_num +:+ ":"] in
    let snippet :=
      if (0 <? line_num) && (line_num <=? Z.of_nat (length source_lines)) then
        match source_lines !! Z.to_nat (line_num - 1) with
        | Some src_line =>
          ["    " +:+ src_line] ++
          (if 0 <? column
           then [repeat_string (Z.to_nat (column - 1 + 4)) " " +:+ "^"]
           else [])
        | None => []
        end
      else [] in
    let hint_line := if String.eqb hint "" then [] else ["  Hint: " +:+ hint] in
    Ok (join nl (header ++ snippet ++ ["  " +:+ text] ++ hint_line ++ [""]))
  | _ => Raised (Unmodelled "format_error of another exception")
  end.

(** * Properties *)

(** ** Running a bind *)

Lemma bind_run_Ok {S A B} (m : ST S A) (k : A → ST S B) (st st1 : S) (a : A) :
  m st = (Ok a, st1) → (m ≫= k) st = k a st1.
Proof. intros H. unfold mbind, ST_bind. by rewrite H. Qed.

Lemma bind_run_Raised {S A B} (m : ST S A) (k : A → ST S B) (st st1 : S) (r : Raise) :
  m st = (Raised r, st1) → (m ≫= k) st = (Raised r, st1).
Proof. intros H. unfold mbind, ST_bind. by rewrite H. Qed.

Lemma bind_Ok_inv {S A B} (m : ST S A) (k : A → ST S B) (st st' : S) (b : B) :
  (m ≫= k) st = (Ok b, st') →
  ∃ a st1, m st = (Ok a, st1) ∧ k a st1 = (Ok b, st').
Proof.
  unfold mbind, ST_bind. destruct (m st) as [[a|r] st1]; intros H.
  - by exists a, st1.
  - discriminate.
Qed.

Lemma try_except_Ok {S A} (m : ST S A) (sel : Raise → bool) (h : Raise → ST S A)
    (st st1 : S) (a : A) :
  m st = (Ok a, st1) → try_except m sel h st = (Ok a, st1).
Proof. intros H. unfold try_except. by rewrite H. Qed.

(** Program text used in the examples. *)
Definition num (z : Z) : Node := NumberNode (TVInt z).
Definition lines (l : list string) : string := join nl l.

(** A host without files, where paths are joined with slashes, and the
    evaluator that a main program in its directory [/elang] gets. *)
Definition no_files : FileSystem :=
  mkFileSystem "/elang"
    (λ path paths, foldl (λ a b, a +:+ "/" +:+ b) path paths)
    (λ path, path) (λ _, false) (λ _, inl OSError).

Definition fresh : State := Evaluator_init no_files "/elang" [].

(** ** The end-to-end scenarios of the specification, run through the lexer,
    the parser and the evaluator *)

Definition printed (text : string) : Outcome * list string :=
  let '(o, st) := run_source 30 text fresh in (o, output st).

Example scenario_hello :
  printed ("say(" +:+ dq +:+ "Hello, world!" +:+ dq +:+ ").newl")
  = (Success, ["Hello, world!" +:+ nl]).
Proof. vm_compute. reflexivity. Qed.

Example scenario_precedence :
  printed "say(2 + 3 * 4).newl" = (Success, ["14" +:+ nl])
  ∧ printed "say(2 ** 3 ** 2).newl" = (Success, ["512" +:+ nl]).
Proof. split; vm_compute; reflexivity. Qed.

Example scenario_closure_capture :
  printed (lines ["fn make_counter(start) { return () => start + 1 }";
                  "c = make_counter(10)";
                  "say(c()).newl"])
  = (Success, ["11" +:+ nl]).
Proof. vm_compute. reflexivity. Qed.

Example scenario_for_range :
  printed "for (i in 1..10 step 3) { say(i).space }"
  = (Success, ["1 "; "4 "; "7 "; "10 "])
  ∧ printed "for (i in 10..1 step 3 reverse) { say(i).space }"
    = (Success, ["10 "; "7 "; "4 "; "1 "])
  ∧ printed "for (i in 5..5) { say(i) }" = (Success, ["5"])
  ∧ printed "for (i in 3..1) { say(i) }" = (Success, [])
  ∧ printed "for (i in 3..1 reverse) { say(i) }" = (Success, ["3"; "2"; "1"]).
Proof. repeat split; vm_compute; reflexivity. Qed.

Example scenario_map_filter :
  printed "say([1,2,3,4].filter(x => x > 2).map(x => x * 10)).newl"
  = (Success, ["[30, 40]" +:+ nl]).
Proof. vm_compute. reflexivity. Qed.

Example scenario_interpolation :
  printed (lines ["name = 'Ada'";
                  "say(" +:+ dq +:+ "Hello, {name}! 1+1={1+1}" +:+ dq +:+ ").newl"])
  = (Success, ["Hello, Ada! 1+1=2" +:+ nl]).
Proof. vm_compute. reflexivity. Qed.

Example scenario_division_by_zero :
  printed "say(1/0).newl"
  = (Failure Structured (RuntimeError_ [Lit "Division by zero"] 0 0 ""), []).
Proof. vm_compute. reflexivity. Qed.

Example host_repr_of_strings :
  repr_str "a'b" = dq +:+ "a'b" +:+ dq
  ∧ repr_str ("a" +:+ dq +:+ "b") = "'a" +:+ dq +:+ "b'"
  ∧ repr_str ("a'" +:+ dq +:+ "b") = "'a\'" +:+ dq +:+ "b'"
  ∧ repr_str (tab +:+ nl) = "'\t\n'".
Proof. repeat split; vm_compute; reflexivity. Qed.

(** ** C1: [and] and [or] *)

Definition bool_op (op : string) (a b : bool) : bool :=
  if String.eqb op "and" then a && b else a || b.

(** C1, counterexample.  The left operand of [false and 1/0] is falsy and
    the division by zero of the right operand is raised all the same; the left
    operand of [true or say("x")] is truthy and the right operand prints. *)
Lemma and_or_do_not_short_circuit :
  eval 3 (BinOpNode (BoolNode false) "and" (BinOpNode (num 1) "/" (num 0)))
       global_env fresh
  = (Raised (RuntimeError_ [Lit "Division by zero"] 0 0 ""), fresh)
  ∧ (let '(r, st) := eval 3 (BinOpNode (BoolNode true) "or"
                               (SayNode (StringNode "x") [])) global_env fresh in
     r = Ok (VBool true) ∧ output st = ["x"]).
Proof. split; [|split]; vm_compute; reflexivity. Qed.

(** C1, as amended.  [and] and [or] evaluate the left operand and then, in
    every case, the right operand: the state after the operator is the state
    after the right operand, an error of the right operand is the error of the
    whole expression, and when both operands have a value the result is the
    boolean combination of their truth values, never an operand. *)
Theorem and_or_evaluate_both_operands
    (f : nat) (op : string) (l r : Node) (env : loc) (st st1 : State) (v : Value) :
  op = "and" ∨ op = "or" →
  eval f l env st = (Ok v, st1) →
  match eval f r env st1 with
  | (Ok w, st2) =>
    eval (S f) (BinOpNode l op r) env st
    = (Ok (VBool (bool_op op (py_bool st2 v) (py_bool st2 w))), st2)
  | (Raised e, st2) =>
    eval (S f) (BinOpNode l op r) env st = (Raised e, st2)
  end.
Proof.
  intros Hop Hl. cbn [eval]. unfold eval_BinOpNode.
  rewrite (bind_run_Ok _ _ _ _ _ Hl).
  destruct (eval f r env st1) as [[w|e] st2] eqn:Hr.
  - rewrite (bind_run_Ok _ _ _ _ _ Hr).
    destruct Hop as [-> | ->]; reflexivity.
  - by rewrite (bind_run_Raised _ _ _ _ _ Hr).
Qed.

Lemma and_or_evaluate_both_operands_witness :
  eval 3 (BinOpNode (BoolNode false) "and" (SayNode (StringNode "x") [])) global_env fresh
  = (Ok (VBool false),
     mkState (envs fresh) [] [] 0%nat ["x"] [] (files fresh) (base_path fresh)).
Proof.
  exact (and_or_evaluate_both_operands 2 "and" (BoolNode false)
           (SayNode (StringNode "x") []) global_env fresh fresh (VBool false)
           (or_introl eq_refl) eq_refl).
Defined.

(** ** C2: host exceptions *)

(** The unary minus of any operand that is not a number: the host's
    [TypeError], as it is. *)
Lemma unary_minus_of_a_non_number
    (f : nat) (e : Node) (env : loc) (st st1 : State) (v : Value) :
  eval f e env st = (Ok v, st1) →
  is_number v = false →
  eval (S f) (UnaryOpNode "-" e) env st = (Raised (Host TypeError), st1).
Proof.
  intros He Hv. cbn [eval]. unfold eval_UnaryOpNode.
  rewrite (bind_run_Ok _ _ _ _ _ He). cbn [String.eqb Ascii.eqb Bool.eqb].
  by destruct v.
Qed.

(** C2, the code at the failing input.  [eval_UnaryOpNode] applies the
    host's unary minus outside any [try]: on a string the host's [TypeError]
    leaves the evaluator as it is, and [run_source] can only handle it in its
    last clause, as an internal error.  The binary minus of [eval_BinOpNode]
    meets the same [TypeError] inside its [try] and turns it into a
    [RuntimeError_]. *)
Theorem unary_minus_lets_TypeError_escape (st : State) :
  eval 2 (UnaryOpNode "-" (StringNode "a")) global_env st = (Raised (Host TypeError), st)
  ∧ run_source 20 "-'a'" fresh = (Failure Internal (Host TypeError), fresh)
  ∧ eval 2 (BinOpNode (num 0) "-" (StringNode "a")) global_env st
    = (Raised (RuntimeError_ [ExcText TypeError] 0 0 ""), st)
  ∧ run_source 20 "0 - 'a'" fresh
    = (Failure Structured (RuntimeError_ [ExcText TypeError] 0 0 ""), fresh).
Proof. repeat split; vm_compute; reflexivity. Qed.

(** ** Frames and their variables *)

Lemma own_var_set_var_eq (st : State) (e : loc) (x : string) (v : Value) :
  is_Some (envs st !! e) → own_var (set_var e x v st) e x = Some v.
Proof.
  intros [fr Hfr]. unfold own_var, set_var, with_envs. cbn [envs].
  rewrite list_lookup_alter_eq, Hfr. cbn. apply lookup_insert_eq.
Qed.

Lemma own_var_is_Some_frame (st : State) (e : loc) (x : string) (v : Value) :
  own_var st e x = Some v → is_Some (envs st !! e).
Proof. unfold own_var. destruct (envs st !! e); [eauto | discriminate]. Qed.

Lemma parent_set_var (st : State) (e e' : loc) (x : string) (v : Value) :
  parent <$> envs (set_var e x v st) !! e' = parent <$> envs st !! e'.
Proof.
  unfold set_var, with_envs. cbn [envs]. destruct (decide (e = e')) as [->|Hne].
  - rewrite list_lookup_alter_eq. by destruct (envs st !! e').
  - by rewrite list_lookup_alter_ne.
Qed.

Lemma bind_params_Ok (c : loc) (params : list string) (args : list Value) (st : State) :
  (bind_params c params args st).1 = Ok tt.
Proof.
  revert args st. induction params as [|p ps IH]; intros [|a args] st; try reflexivity.
  cbn [bind_params]. unfold mbind, ST_bind, Environment_set, modify. apply IH.
Qed.

Lemma bind_params_parent (c e : loc) (params : list string) (args : list Value)
    (st : State) :
  parent <$> envs (bind_params c params args st).2 !! e = parent <$> envs st !! e.
Proof.
  revert args st. induction params as [|p ps IH]; intros [|a args] st; try reflexivity.
  cbn [bind_params]. unfold mbind, ST_bind, Environment_set, modify.
  rewrite IH. apply parent_set_var.
Qed.

Lemma envs_set_var_length (st : State) (e : loc) (x : string) (v : Value) :
  length (envs (set_var e x v st)) = length (envs st).
Proof. unfold set_var, with_envs. cbn [envs]. apply length_alter. Qed.

Lemma bind_params_length (c : loc) (params : list string) (args : list Value)
    (st : State) :
  length (envs (bind_params c params args st).2) = length (envs st).
Proof.
  revert args st. induction params as [|p ps IH]; intros [|a args] st; try reflexivity.
  cbn [bind_params]. unfold mbind, ST_bind, Environment_set, modify.
  rewrite IH. apply envs_set_var_length.
Qed.

Lemma set_natives_length (mod_env : loc) (names : list string) (st : State) :
  length (envs (set_natives mod_env names st).2) = length (envs st).
Proof.
  revert st. induction names as [|name rest IH]; intros st; [reflexivity|].
  cbn [set_natives]. unfold mbind, ST_bind, fresh_id, Environment_set, modify.
  by rewrite IH, envs_set_var_length.
Qed.

Lemma set_natives_Ok (mod_env : loc) (names : list string) (st : State) :
  (set_natives mod_env names st).1 = Ok tt.
Proof.
  revert st. induction names as [|name rest IH]; intros st; [reflexivity|].
  cbn [set_natives]. unfold mbind, ST_bind, fresh_id, Environment_set, modify.
  apply IH.
Qed.

(** The frame in which a call evaluates the body of a function. *)
Definition call_state (fn_env : loc) (params : list string) (args : list Value)
    (st : State) : State :=
  (bind_params (length (envs st)) params args (Environment_new (Some fn_env) st).2).2.

(** ** C3: blocks and environment frames *)




(** ** C4: [+] and [+=] *)


(** The operands on which the host's [str] and the display form agree by
    construction: strings and integers. *)
Definition plain (v : Value) : bool :=
  match v with VStr _ | VInt _ => true | _ => false end.

(** What [+] makes of the operand values [a] and [b] in the state [st] left
    by the operands; [after] is what the statement then does with the result
    (nothing for [+], the assignment for [+=]). *)
Definition plus_spec (st : State) (a b : Value) (after : Value → State → State)
    (out : Result Value * State) : Prop :=
  (is_str a || is_str b = true → plain a = true → plain b = true →
   ∃ s t, _format_value st a = Ok s ∧ _format_value st b = Ok t
          ∧ out = (Ok (VStr (s +:+ t)), after (VStr (s +:+ t)) st))
  ∧ (∀ x y, as_int a = Some x → as_int b = Some y →
     out = (Ok (VInt (x + y)), after (VInt (x + y)) st))
  ∧ (∀ i j, a = VList i → b = VList j →
     let sum := VList (length (lists st)) in
     out = (Ok sum,
            after sum (with_lists (λ ls, ls ++ [list_get st i ++ list_get st j]) st))).

Lemma plain_str_is_display (st : State) (v : Value) :
  plain v = true → ∃ s, py_str st v = Ok s ∧ _format_value st v = Ok s.
Proof.
  destruct v; try discriminate; intros _.
  - exists (pretty z). unfold _format_value. by destruct (containers st).
  - exists s. unfold _format_value. by destruct (containers st).
Qed.

Lemma plus_run (st : State) (a b : Value) (after : Value → State → State)
    (out : Result Value * State) :
  (∀ v s, (if is_str a || is_str b then str_concat a b else py_add a b) st = (Ok v, s) →
          out = (Ok v, after v s)) →
  plus_spec st a b after out.
Proof.
  intros Hout. split; [|split].
  - intros Hs Ha Hb.
    destruct (plain_str_is_display st a Ha) as (s & Hs1 & Hs2).
    destruct (plain_str_is_display st b Hb) as (t & Ht1 & Ht2).
    exists s, t. split; [done|]. split; [done|].
    apply Hout. rewrite Hs.
    unfold str_concat, mbind, ST_bind, get_state, lift. by rewrite Hs1, Ht1.
  - intros x y Ha Hb. apply Hout.
    assert (is_str a || is_str b = false) as ->
      by (destruct a, b; try discriminate; reflexivity).
    unfold py_add. by rewrite Ha, Hb.
  - intros i j -> -> sum. apply Hout. reflexivity.
Qed.



(** ** C5: division by zero *)

(** [/] and [/=] with a right operand equal to zero, whatever the left
    operand: the interpreter's own check raises a [RuntimeError_] before the
    host divides. *)
Lemma division_by_zero_is_a_runtime_error
    (f : nat) (l r : Node) (x : string) (env : loc) (st st1 st2 : State) (a b : Value) :
  eq_zero b = true →
  eval f r env st1 = (Ok b, st2) →
  (eval f l env st = (Ok a, st1) →
   eval (S f) (BinOpNode l "/" r) env st
   = (Raised (RuntimeError_ [Lit "Division by zero"] 0 0 ""), st2))
  ∧ (Environment_get env x st1 = (Ok a, st1) →
     eval (S f) (CompoundAssignNode x "/" r) env st1
     = (Raised (RuntimeError_ [Lit "Division by zero"] 0 0 ""), st2)).
Proof.
  intros Hz Hr. split.
  - intros Hl. cbn [eval]. unfold eval_BinOpNode.
    rewrite (bind_run_Ok _ _ _ _ _ Hl), (bind_run_Ok _ _ _ _ _ Hr).
    cbn [String.eqb Ascii.eqb Bool.eqb]. by rewrite Hz.
  - intros Hx. cbn [eval]. unfold eval_CompoundAssignNode.
    rewrite (bind_run_Ok _ _ _ _ _ Hx), (bind_run_Ok _ _ _ _ _ Hr).
    cbn [String.eqb Ascii.eqb Bool.eqb]. by rewrite Hz.
Qed.

(** [%] with a right operand equal to zero, on integers and booleans: the
    host's [ZeroDivisionError], as it is. *)
Lemma modulo_by_zero_of_integers
    (f : nat) (l r : Node) (env : loc) (st st1 st2 : State) (a b : Value) (x : Z) :
  eval f l env st = (Ok a, st1) →
  eval f r env st1 = (Ok b, st2) →
  as_int a = Some x → as_int b = Some 0 →
  eval (S f) (BinOpNode l "%" r) env st = (Raised (Host ZeroDivisionError), st2).
Proof.
  intros Hl Hr Ha Hb. cbn [eval]. unfold eval_BinOpNode.
  rewrite (bind_run_Ok _ _ _ _ _ Hl), (bind_run_Ok _ _ _ _ _ Hr).
  cbn [String.eqb Ascii.eqb Bool.eqb]. unfold try_except, py_mod.
  by rewrite Ha, Hb.
Qed.

(** C5, the code at the failing input.  [1 % 0] reaches the host's modulo
    without a zero check: the host's [ZeroDivisionError] is raised, which the
    [except TypeError] of [eval_BinOpNode] does not catch and which the driver
    can only report as an internal error.  [1 / 0] and [x /= 0] are stopped by
    the interpreter's check and reported as runtime errors. *)
Theorem modulo_by_zero_is_not_checked (st : State) :
  eval 2 (BinOpNode (num 1) "%" (num 0)) global_env st
  = (Raised (Host ZeroDivisionError), st)
  ∧ (run_source 20 "1 % 0" fresh).1 = Failure Internal (Host ZeroDivisionError)
  ∧ eval 2 (BinOpNode (num 1) "/" (num 0)) global_env st
    = (Raised (RuntimeError_ [Lit "Division by zero"] 0 0 ""), st)
  ∧ (run_source 20 "1 / 0" fresh).1
    = Failure Structured (RuntimeError_ [Lit "Division by zero"] 0 0 "")
  ∧ (run_source 20 (lines ["x = 1"; "x /= 0"]) fresh).1
    = Failure Structured (RuntimeError_ [Lit "Division by zero"] 0 0 "").
Proof. repeat split; vm_compute; reflexivity. Qed.

(** ** C6: [break] and [continue] outside a loop *)


Definition loop_signal (r : Raise) : bool :=
  match r with BreakSignal | ContinueSignal => true | _ => false end.



(** ** C7: closures *)

Definition closure_text : string := lines [
  "fn outer() {";
  "  x = 1";
  "  fn inner() { return x }";
  "  return inner";
  "}";
  "x = 2";
  "f = outer()";
  "f()"
].

Definition closure_program : Node := BlockNode [
  FunctionDefNode "outer" []
    (BlockNode [
       AssignNode "x" (num 1);
       FunctionDefNode "inner" [] (BlockNode [ReturnNode (IdentifierNode "x")]) TVNone;
       ReturnNode (IdentifierNode "inner")])
    TVNone;
  AssignNode "x" (num 2);
  AssignNode "f" (FunctionCallNode "outer" []);
  FunctionCallNode "f" []
].

(** C7.  A [fn] statement evaluated in the frame [env] binds, in [env], a
    function value whose captured environment is [env].  A call of a function
    value evaluates the body in a new frame whose parent is the captured
    environment, whatever frame the call is made from: [_call_function] is
    not even given the frame of the call site.  So in the program of
    the claim, where the calling frame binds [x] to 2 and [outer] has
    returned, calling the value returned by [outer()] yields 1. *)
Theorem closures_are_lexically_scoped
    (f : nat) (name : string) (params : list string) (body : Node) (rt : TokValue)
    (env : loc) (st : State) (id fn_env : loc) (args : list Value) :
  is_Some (envs st !! env) →
  length args = length params →
  (∃ st', eval (S f) (FunctionDefNode name params body rt) env st = (Ok VNone, st')
          ∧ own_var st' env name
            = Some (EushaFunction (next_id st) name params body env rt))
  ∧ (let call_env := length (envs st) in
     let st_call := call_state fn_env params args st in
     parent <$> envs st_call !! call_env = Some (Some fn_env)
     ∧ _call_function (eval f) (EushaFunction id name params body fn_env rt) args st
       = match eval f body call_env st_call with
         | (Ok _, s) => (Ok VNone, s)
         | (Raised (ReturnSignal v), s) => (Ok v, s)
         | (Raised r, s) => (Raised r, s)
         end)
  ∧ Lexer.tokenize closure_text ≫= Parser.parse 20 = Ok closure_program
  ∧ (run 20 closure_program fresh).1 = Ok (VInt 1).
Proof.
  intros Henv Hlen. split; [|split; [|split]].
  - eexists. split; [reflexivity|]. cbn. apply own_var_set_var_eq. exact Henv.
  - intros call_env st_call. split.
    + unfold st_call, call_state. rewrite bind_params_parent.
      unfold Environment_new, with_envs. cbn [snd envs].
      by rewrite list_lookup_middle.
    + assert (bind_params call_env params args (Environment_new (Some fn_env) st).2
              = (Ok tt, st_call)) as Hbp.
      { unfold st_call, call_state. fold call_env.
        pose proof (bind_params_Ok call_env params args
                      (Environment_new (Some fn_env) st).2) as Hb.
        destruct (bind_params call_env params args (Environment_new (Some fn_env) st).2)
          as [[[]|r] s0]; [reflexivity | discriminate]. }
      unfold _call_function. rewrite Hlen, Nat.eqb_refl. cbn [negb].
      etrans; [apply bind_run_Ok; reflexivity|].
      etrans; [apply bind_run_Ok; exact Hbp|].
      unfold try_except, mbind, ST_bind.
      subst call_env.
      destruct (eval f body (length (envs st)) st_call) as [[v|[]] s1]; reflexivity.
  - vm_compute. reflexivity.
  - vm_compute. reflexivity.
Qed.

Lemma closures_are_lexically_scoped_witness :
  parent <$> envs (call_state 0 ["a"] [VInt 7] fresh) !! 1%nat = Some (Some 0%nat)
  ∧ (run 20 closure_program fresh).1 = Ok (VInt 1).
Proof.
  destruct (closures_are_lexically_scoped 3 "g" ["a"] (ReturnNode (IdentifierNode "a"))
              TVNone global_env fresh 0%nat 0%nat [VInt 7]
              (mk_is_Some _ _ eq_refl) eq_refl) as (_ & [Hp _] & _ & Hrun).
  split; [exact Hp | exact Hrun].
Defined.

(** ** C8: [push] then [pop] *)

Lemma list_get_lookup (st : State) (l : loc) (xs : list Value) :
  lists st !! l = Some xs → list_get st l = xs.
Proof. unfold list_get. by intros ->. Qed.

Lemma call_push (ev : Node → loc → M Value) (budget : nat) (st : State) (l : loc)
    (xs : list Value) (v : Value) :
  lists st !! l = Some xs →
  call_method ev budget (VList l) "push" [v] st
  = (Ok (VList l), with_lists (λ ls, <[l := xs ++ [v]]> ls) st).
Proof.
  intros Hl. unfold call_method, conversion, try_except. cbn.
  unfold list_method, list_get. cbn.
  unfold mbind, ST_bind, get_state, set_list, modify, mret, ST_ret. cbn.
  by rewrite Hl.
Qed.

Lemma call_pop (ev : Node → loc → M Value) (budget : nat) (st : State) (l : loc)
    (xs : list Value) (v : Value) :
  lists st !! l = Some (xs ++ [v]) →
  call_method ev budget (VList l) "pop" [] st
  = (Ok v, with_lists (λ ls, <[l := xs]> ls) st).
Proof.
  intros Hl. unfold call_method, conversion, try_except. cbn.
  unfold list_method, list_get. cbn.
  unfold mbind, ST_bind, get_state, set_list, modify, mret, ST_ret. cbn.
  rewrite Hl. cbn. by rewrite last_snoc, removelast_last.
Qed.

Lemma eval_args_one (ev : Node → loc → M Value) (a : Node) (env : loc)
    (st st1 : State) (v : Value) :
  ev a env st = (Ok v, st1) → eval_args ev [a] env st = (Ok [v], st1).
Proof.
  intros H. unfold eval_args. cbn [mapM].
  by rewrite (bind_run_Ok _ _ _ _ _ H).
Qed.

(** C8.  For a list object [l] with contents [xs] and any value [v]:
    [l.push(v)] returns the list and leaves it with contents [xs ++ [v]];
    [l.pop()] then returns [v] and leaves the interpreter state, and with it
    the contents [xs] of the list, exactly as before the push.  The same holds
    for the two method-call expressions, whatever expressions denote the list
    and the value. *)
Theorem push_then_pop_restores_the_list
    (f : nat) (lnode vnode : Node) (env : loc) (st st1 st2 : State) (l : loc)
    (xs : list Value) (v : Value) :
  lists st2 !! l = Some xs →
  let pushed := with_lists (λ ls, <[l := xs ++ [v]]> ls) st2 in
  (call_method (eval f) f (VList l) "push" [v] st2 = (Ok (VList l), pushed)
   ∧ call_method (eval f) f (VList l) "pop" [] pushed = (Ok v, st2)
   ∧ list_get pushed l = xs ++ [v])
  ∧ (eval f lnode env st = (Ok (VList l), st1) →
     eval f vnode env st1 = (Ok v, st2) →
     eval (S f) (MethodCallNode lnode "push" [vnode]) env st = (Ok (VList l), pushed))
  ∧ (eval f lnode env pushed = (Ok (VList l), pushed) →
     eval (S f) (MethodCallNode lnode "pop" []) env pushed = (Ok v, st2)).
Proof.
  intros Hl pushed.
  assert (lists pushed !! l = Some (xs ++ [v])) as Hp.
  { unfold pushed, with_lists. cbn [lists].
    apply list_lookup_insert_eq. by eapply lookup_lt_Some. }
  assert (with_lists (λ ls, <[l := xs]> ls) pushed = st2) as Hback.
  { unfold pushed, with_lists. destruct st2 as [es ls ds n o i]. cbn in Hl |- *.
    by rewrite list_insert_insert_eq, list_insert_id. }
  split; [split; [|split]|split].
  - by apply call_push.
  - rewrite (call_pop _ _ _ _ _ _ Hp). by rewrite Hback.
  - by apply list_get_lookup.
  - intros H1 H2. cbn [eval]. unfold eval_MethodCallNode.
    rewrite (bind_run_Ok _ _ _ _ _ H1).
    rewrite (bind_run_Ok _ _ _ _ _ (eval_args_one _ _ _ _ _ _ H2)).
    by apply call_push.
  - intros H1. cbn [eval]. unfold eval_MethodCallNode.
    rewrite (bind_run_Ok _ _ _ _ _ H1).
    etrans; [apply bind_run_Ok; reflexivity|].
    rewrite (call_pop _ _ _ _ _ _ Hp). by rewrite Hback.
Qed.

Lemma push_then_pop_restores_the_list_witness :
  let st := set_var global_env "l" (VList 0) (with_lists (λ _, [[VInt 1]]) fresh) in
  let pushed := with_lists (λ ls, <[0%nat := [VInt 1; VStr "v"]]> ls) st in
  eval 2 (MethodCallNode (IdentifierNode "l") "push" [StringNode "v"]) global_env st
  = (Ok (VList 0), pushed)
  ∧ eval 2 (MethodCallNode (IdentifierNode "l") "pop" []) global_env pushed
    = (Ok (VStr "v"), st).
Proof.
  intros st pushed.
  destruct (push_then_pop_restores_the_list 1 (IdentifierNode "l") (StringNode "v")
              global_env st st st 0%nat [VInt 1] (VStr "v") eq_refl)
    as (_ & Hpush & Hpop).
  split; [exact (Hpush eq_refl eq_refl) | exact (Hpop eq_refl)].
Defined.

(** ** C9: the loop variable *)


(** The body leaves the binding of [var] in the frame [env] as it found it. *)
Definition body_keeps (ev : Node → loc → M Value) (body : Node) (env : loc)
    (var : string) : Prop :=
  ∀ st r st', ev body env st = (r, st') → own_var st' env var = own_var st env var.

(** The state [st'] is the one left by an iteration that began by binding
    [var] to [item] in the frame [env] itself, and [var] is still bound to
    [item] in that frame. *)
Definition last_iteration (ev : Node → loc → M Value) (var : string) (body : Node)
    (env : loc) (st' : State) : Prop :=
  ∃ item st_in go,
    run_body ev body env (set_var env var item st_in) = (Ok go, st')
    ∧ own_var st' env var = Some item.

Section LoopVariable.

Variable ev : Node → loc → M Value.
Variable var : string.
Variable body : Node.
Variable env : loc.
Hypothesis keeps : body_keeps ev body env var.

Lemma run_body_keeps (st st' : State) (go : bool) :
  run_body ev body env st = (Ok go, st') → own_var st' env var = own_var st env var.
Proof.
  unfold run_body. destruct (ev body env st) as [[w|r] s] eqn:E.
  - intros [= _ <-]. by eapply keeps.
  - destruct r; intros [= _ <-] || intros [=]; by eapply keeps.
Qed.

Lemma iteration_binds (st st' : State) (item : Value) (go : bool) :
  is_Some (envs st !! env) →
  run_body ev body env (set_var env var item st) = (Ok go, st') →
  own_var st' env var = Some item ∧ is_Some (envs st' !! env)
  ∧ last_iteration ev var body env st'.
Proof.
  intros Hvalid Hbody.
  assert (own_var st' env var = Some item) as Hown.
  { rewrite (run_body_keeps _ _ _ Hbody). by apply own_var_set_var_eq. }
  split; [exact Hown|]. split; [by eapply own_var_is_Some_frame|].
  by exists item, st, go.
Qed.

Lemma for_items_binds (items : list Value) (st st' : State) (v : Value) :
  is_Some (envs st !! env) → items ≠ [] →
  for_items ev var body env items st = (Ok v, st') →
  last_iteration ev var body env st'.
Proof.
  revert st. induction items as [|item rest IH]; intros st Hvalid Hne Hloop; [done|].
  cbn [for_items] in Hloop.
  apply bind_Ok_inv in Hloop as ([] & st_a & [= <-] & Hloop).
  apply bind_Ok_inv in Hloop as (go & st_b & Hbody & Hrest).
  destruct (iteration_binds _ _ _ _ Hvalid Hbody) as (Hown & Hvalid' & Hlast).
  destruct go.
  - destruct rest as [|item' rest'].
    + by injection Hrest as _ <-.
    + by eapply IH.
  - by injection Hrest as _ <-.
Qed.

Lemma for_list_binds (n : nat) (l : loc) (i : nat) (st st' : State) (v : Value) :
  is_Some (envs st !! env) → is_Some (list_get st l !! i) →
  for_list ev n var body env l i st = (Ok v, st') →
  last_iteration ev var body env st'.
Proof.
  revert i st. induction n as [|n IH]; intros i st Hvalid [item Hitem] Hloop;
    [discriminate|].
  cbn [for_list] in Hloop.
  apply bind_Ok_inv in Hloop as (st0 & st_a & [= <- <-] & Hloop).
  rewrite Hitem in Hloop.
  apply bind_Ok_inv in Hloop as ([] & st_a & [= <-] & Hloop).
  apply bind_Ok_inv in Hloop as (go & st_b & Hbody & Hrest).
  destruct (iteration_binds _ _ _ _ Hvalid Hbody) as (Hown & Hvalid' & Hlast).
  destruct go.
  - destruct (list_get st_b l !! S i) as [item'|] eqn:Hnext.
    + eapply IH; [exact Hvalid' | by rewrite Hnext | exact Hrest].
    + destruct n as [|n']; [discriminate|].
      cbn [for_list] in Hrest.
      apply bind_Ok_inv in Hrest as (st1 & st_c & [= <- <-] & Hrest).
      rewrite Hnext in Hrest. by injection Hrest as _ <-.
  - by injection Hrest as _ <-.
Qed.

Lemma for_keys_binds (d : loc) (size : nat) (keys : list Value) (st st' : State)
    (v : Value) :
  is_Some (envs st !! env) → keys ≠ [] →
  for_keys ev var body env d size keys st = (Ok v, st') →
  last_iteration ev var body env st'.
Proof.
  revert st. induction keys as [|key rest IH]; intros st Hvalid Hne Hloop; [done|].
  cbn [for_keys] in Hloop.
  apply bind_Ok_inv in Hloop as (st0 & st_a & [= <- <-] & Hloop).
  destruct (negb _); [discriminate|].
  apply bind_Ok_inv in Hloop as ([] & st_a & [= <-] & Hloop).
  apply bind_Ok_inv in Hloop as (go & st_b & Hbody & Hrest).
  destruct (iteration_binds _ _ _ _ Hvalid Hbody) as (Hown & Hvalid' & Hlast).
  destruct go.
  - destruct rest as [|key' rest'].
    + cbn [for_keys] in Hrest.
      apply bind_Ok_inv in Hrest as (st1 & st_c & [= <- <-] & Hrest).
      destruct (negb _); [discriminate|]. by injection Hrest as _ <-.
    + by eapply IH.
  - by injection Hrest as _ <-.
Qed.

End LoopVariable.

Lemma bind_lift_Ok {S A B} (r : Result A) (k : A → ST S B) (st : S) (a : A) :
  r = Ok a → (lift r ≫= k) st = k a st.
Proof. by intros ->. Qed.

Lemma py_range_nonempty (down : bool) (start stop step : Z) :
  0 < step → 0 < (if down then start - stop else stop - start) →
  py_range down start stop step ≠ [].
Proof.
  intros Hstep Hspan. unfold py_range.
  set (span := if down then start - stop else stop - start) in *.
  assert (1 ≤ (span + step - 1) / step) as Hcount
    by (apply Z.div_le_lower_bound; lia).
  destruct (Z.to_nat ((span + step - 1) / step)) as [|n] eqn:E; [lia|].
  discriminate.
Qed.

Lemma chars_nonempty (s : string) : s ≠ "" → chars s ≠ [].
Proof. by destruct s. Qed.

(** The iterable of a for-each loop has an element to start with. *)
Definition nonempty (st : State) (iterable : Value) : Prop :=
  match iterable with
  | VStr s => s ≠ ""
  | VList l => list_get st l ≠ []
  | VDict d => dict_get st d ≠ []
  | _ => False
  end.


Lemma say_keeps_the_variable (f : nat) (e : Node) (env : loc) (var : string) :
  (∀ st r st', eval f e env st = (r, st') → st' = st) →
  body_keeps (eval (S f)) (SayNode e []) env var.
Proof.
  intros He st r st' H. cbn [eval] in H. unfold eval_SayNode in H.
  unfold mbind, ST_bind in H.
  destruct (eval f e env st) as [[w|x] s] eqn:E;
    apply He in E as ->; [|by injection H as _ <-].
  unfold get_state, lift, print in H.
  destruct (_format_value st w); by injection H as _ <-.
Qed.


(** ** C10: the keys of a map literal *)

Definition key_is_literal (kv : Node * Node) : Prop := ∃ s, kv.1 = StringNode s.

Tactic Notation "bind_inv" hyp(H) "as" simple_intropattern(a) ident(p) ident(E) :=
  apply bind_Ok_inv in H as (a & p & E & H).

Section ObjectLiteral.

Variable rec : Parser.Rec.
Variable budget : nat.

Definition key_text (key : Node) : string :=
  match key with StringNode s => s | _ => "" end.

(** The key of an entry: whatever token stands there (identifier, keyword
    or string), the key node is the [StringNode] of the token's own text. *)
Lemma entry_key (is_id is_kw is_s : bool) (p p' : Parser.Parser) (key : Node) :
  (if is_id || is_kw then
     tok ← Parser.advance; s ← Parser.value_str tok; mret (StringNode s)
   else if is_s then
     tok ← Parser.advance; s ← Parser.value_str tok; mret (StringNode s)
   else
     tok ← Parser.current;
     Parser.parse_error_here
       [Lit ("Expected a key in object literal, got '" +:+
             Parser.tt_name (tok_type tok) +:+ "'")]
       "Object keys must be identifiers or strings.") p = (Ok key, p') →
  ∃ tok, Parser.tokens p !! Parser.pos p = Some tok
         ∧ tok_value tok = TVStr (key_text key)
         ∧ key = StringNode (key_text key).
Proof.
  intros H.
  assert ((tok ← Parser.advance; s ← Parser.value_str tok; mret (StringNode s)) p
          = (Ok key, p') →
          ∃ tok, Parser.tokens p !! Parser.pos p = Some tok
                 ∧ tok_value tok = TVStr (key_text key)
                 ∧ key = StringNode (key_text key))
    as Hkey.
  { clear H. intros H. bind_inv H as tok p1 Hadv. bind_inv H as s p2 Hstr.
    injection H as <- <-.
    unfold Parser.advance in Hadv. bind_inv Hadv as tok' p3 Hcur.
    bind_inv Hadv as u p4 Hmod. injection Hadv as <- <-.
    unfold Parser.current in Hcur.
    destruct (Parser.tokens p !! Parser.pos p) as [t|] eqn:Htok; [|discriminate].
    injection Hcur as <- <-. exists t. split; [done|].
    unfold Parser.value_str in Hstr. destruct (tok_value t); try discriminate.
    by injection Hstr as <- _. }
  destruct (is_id || is_kw); [by apply Hkey|].
  destruct is_s; [by apply Hkey|].
  bind_inv H as tok p1 Hcur. unfold Parser.parse_error_here in H.
  bind_inv H as tok' p2 Hcur'. discriminate.
Qed.

(** The entries found are added after those already found. *)
Lemma object_entries_extend (n : nat) (pairs pairs' : list (Node * Node))
    (p p' : Parser.Parser) :
  Parser.object_entries rec budget n pairs p = (Ok pairs', p') →
  ∃ key value more, pairs' = pairs ++ (key, value) :: more.
Proof.
  revert pairs p. induction n as [|n IH]; intros pairs p H; [discriminate|].
  cbn [Parser.object_entries] in H.
  bind_inv H as u1 p1 E1. bind_inv H as is_id p2 E2. bind_inv H as is_kw p3 E3.
  bind_inv H as is_s p4 E4. bind_inv H as key p5 E5. bind_inv H as t6 p6 E6.
  bind_inv H as value p7 E7. cbv zeta in H.
  bind_inv H as u8 p8 E8. bind_inv H as comma p9 E9.
  destruct comma.
  - bind_inv H as t10 p10 E10. bind_inv H as u11 p11 E11.
    bind_inv H as closed p12 E12. destruct closed.
    + injection H as <- _. by exists key, value, [].
    + apply IH in H as (k & w & more & ->). rewrite <- app_assoc.
      by exists key, value, ((k, w) :: more).
  - injection H as <- _. by exists key, value, [].
Qed.

Lemma object_entries_keys (n : nat) (pairs pairs' : list (Node * Node))
    (p p' : Parser.Parser) :
  Forall key_is_literal pairs →
  Parser.object_entries rec budget n pairs p = (Ok pairs', p') →
  Forall key_is_literal pairs'.
Proof.
  revert pairs p. induction n as [|n IH]; intros pairs p Hpairs H; [discriminate|].
  cbn [Parser.object_entries] in H.
  bind_inv H as u1 p1 E1. bind_inv H as is_id p2 E2. bind_inv H as is_kw p3 E3.
  bind_inv H as is_s p4 E4. bind_inv H as key p5 E5. bind_inv H as t6 p6 E6.
  bind_inv H as value p7 E7. cbv zeta in H.
  bind_inv H as u8 p8 E8. bind_inv H as comma p9 E9.
  apply entry_key in E5 as (tok & _ & _ & Hkey).
  assert (Forall key_is_literal (pairs ++ [(key, value)])) as Hnew.
  { apply Forall_app. split; [done|]. constructor; [|done]. by eexists. }
  destruct comma.
  - bind_inv H as t10 p10 E10. bind_inv H as u11 p11 E11.
    bind_inv H as closed p12 E12. destruct closed.
    + by injection H as <- _.
    + by eapply IH.
  - by injection H as <- _.
Qed.

Lemma match_state (type_ : TokType) (p p' : Parser.Parser) (b : bool) :
  Parser.match_ type_ p = (Ok b, p') → p' = p.
Proof.
  intros H. unfold Parser.match_ in H. bind_inv H as t p1 Hcur.
  unfold Parser.current in Hcur.
  destruct (Parser.tokens p !! Parser.pos p); [|discriminate].
  injection Hcur as _ <-. by injection H as _ <-.
Qed.

(** The key of the first entry is the text of the token at which the entry
    begins, once the newlines before it are skipped. *)
Lemma object_entries_head (n : nat) (pairs pairs' : list (Node * Node))
    (p p' : Parser.Parser) :
  Parser.object_entries rec budget n pairs p = (Ok pairs', p') →
  ∃ p1 tok value more,
    Parser.skip_newlines budget p = (Ok tt, p1)
    ∧ Parser.tokens p1 !! Parser.pos p1 = Some tok
    ∧ ∃ name, tok_value tok = TVStr name
              ∧ pairs' = pairs ++ (StringNode name, value) :: more.
Proof.
  intros H. destruct n as [|n]; [discriminate|].
  cbn [Parser.object_entries] in H.
  bind_inv H as u1 p1 E1. bind_inv H as is_id p2 E2. bind_inv H as is_kw p3 E3.
  bind_inv H as is_s p4 E4. bind_inv H as key p5 E5. bind_inv H as t6 p6 E6.
  bind_inv H as value p7 E7. cbv zeta in H.
  bind_inv H as u8 p8 E8. bind_inv H as comma p9 E9.
  apply match_state in E2 as ->. apply match_state in E3 as ->.
  apply match_state in E4 as ->.
  apply entry_key in E5 as (tok & Htok & Hval & Hkey).
  destruct u1. exists p1, tok, value.
  assert (∃ more, pairs' = (pairs ++ [(key, value)]) ++ more) as [more ->].
  { destruct comma.
    - bind_inv H as t10 p10 E10. bind_inv H as u11 p11 E11.
      bind_inv H as closed p12 E12. destruct closed.
      + injection H as <- _. exists []. by rewrite app_nil_r.
      + apply object_entries_extend in H as (k & w & more & ->). by eexists.
    - injection H as <- _. exists []. by rewrite app_nil_r. }
  exists more. split; [done|]. split; [done|].
  exists (key_text key). split; [done|].
  by rewrite <- app_assoc, <- Hkey.
Qed.

(** A map literal entry that begins with an identifier or a keyword has the
    string of that token's own text as its key. *)
Lemma object_entries_first_key (n : nat) (pairs pairs' : list (Node * Node))
    (p p' : Parser.Parser) (tok : Token) (name : string) :
  Parser.tokens p !! Parser.pos p = Some tok →
  tok_type tok = TT_IDENTIFIER ∨ tok_type tok = TT_KEYWORD →
  tok_value tok = TVStr name →
  Parser.object_entries rec budget n pairs p = (Ok pairs', p') →
  ∃ value rest, pairs' = pairs ++ (StringNode name, value) :: rest.
Proof.
  intros Htok Htype Hvalue H.
  apply object_entries_head in H
    as (p1 & tok' & value & more & Hskip & Htok' & name' & Hname & ->).
  assert (p1 = p) as ->.
  { destruct budget as [|b]; [discriminate|]. cbn [Parser.skip_newlines] in Hskip.
    bind_inv Hskip as is_nl p0 Hm.
    pose proof (match_state _ _ _ _ Hm) as ->.
    unfold Parser.match_ in Hm. bind_inv Hm as t p2 Hcur.
    unfold Parser.current in Hcur. rewrite Htok in Hcur.
    injection Hcur as <- <-. injection Hm as <-.
    unfold Parser.is_type in Hskip.
    destruct Htype as [Ht|Ht]; rewrite Ht in Hskip; cbn in Hskip;
      by injection Hskip as <-. }
  rewrite Htok in Htok'. injection Htok' as <-.
  rewrite Hvalue in Hname. injection Hname as <-.
  by exists value, more.
Qed.

End ObjectLiteral.

Lemma skip_newlines_stays (budget : nat) (p p1 : Parser.Parser) (tok : Token) (u : unit) :
  Parser.tokens p !! Parser.pos p = Some tok →
  tok_type tok ≠ TT_NEWLINE →
  Parser.skip_newlines budget p = (Ok u, p1) → p1 = p.
Proof.
  intros Htok Htype H. destruct budget as [|b]; [discriminate|].
  cbn [Parser.skip_newlines] in H. bind_inv H as is_nl p0 Hm.
  pose proof (match_state _ _ _ _ Hm) as ->.
  unfold Parser.match_ in Hm. bind_inv Hm as t p2 Hcur.
  unfold Parser.current in Hcur. rewrite Htok in Hcur.
  injection Hcur as <- <-. injection Hm as <-.
  unfold Parser.is_type in H. rewrite bool_decide_eq_false_2 in H by done.
  by injection H as _ <-.
Qed.

Definition map_text : string := lines ["a = 7"; "d = {a: a, if: 2}"; "say(d)"].


Definition map_tokens : list Token :=
  match Lexer.tokenize "{a: a}" with
  | Ok toks => toks
  | Raised _ => []
  end.


(** The example of the specification for closures is written with [;]
    between statements; the lexer has no such token, and statements are
    separated by newlines. *)
Lemma semicolon_is_not_a_token :
  (run_source 20 "x = 1; y = 2" fresh).1
  = Failure Structured
      (LexerError [Lit "Unknown character ';'"] 1 6
         "Remove the character or check for a typo.").
Proof. vm_compute. reflexivity. Qed.

(** * Further properties

    Properties of the evaluator, the lexer, the parser and the driver that
    hold for every program: what a run can raise and what it does to the
    state; variables, indexing, maps and calls; the tokens of a text; the
    position of the parser; the report of an error. *)

(** ** The lexer: its tokens and its failures *)

Section LexerFacts.

Import Lexer.

(** The counters of the lexer start at 1 and never go below. *)
Definition counted (lx : Lexer) : Prop := 1 ≤ line lx ∧ 1 ≤ column lx.

(** How a function of the lexer can fail: with a [LexerError] at a position
    in the text, with the [IndexError] of an [advance] at the end of the
    text, with the [ValueError] of [int] on a digit that is not a decimal
    digit, in a float literal that the model does not describe, or, in the
    model, with a budget that is too small. *)
Definition lexical (r : Raise) : Prop :=
  match r with
  | LexerError _ line column _ => 1 ≤ line ∧ 1 ≤ column
  | Host IndexError | Host ValueError | Unmodelled _ | OutOfFuel => True
  | _ => False
  end.

(** [m] keeps the counters at 1 or more, returns only values in [Q] and
    fails only in the ways of [lexical]. *)
Definition lexes {A} (m : L A) (Q : A → Prop) : Prop :=
  ∀ lx, counted lx →
    match m lx with
    | (Ok a, lx') => counted lx' ∧ Q a
    | (Raised e, _) => lexical e
    end.

Lemma lexes_ret {A} (a : A) (Q : A → Prop) : Q a → lexes (mret a) Q.
Proof. intros H lx Hc. by split. Qed.

Lemma lexes_raise {A} (e : Raise) (Q : A → Prop) : lexical e → lexes (raise e) Q.
Proof. intros H lx Hc. done. Qed.

Lemma lexes_bind {A B} (m : L A) (k : A → L B) (Q1 : A → Prop) (Q2 : B → Prop) :
  lexes m Q1 → (∀ a, Q1 a → lexes (k a) Q2) → lexes (m ≫= k) Q2.
Proof.
  intros Hm Hk lx Hc. unfold mbind, ST_bind. specialize (Hm lx Hc).
  destruct (m lx) as [[a|e] lx1]; [|done].
  destruct Hm as [Hc1 Ha]. by apply Hk.
Qed.

Lemma lexes_get_state_bind {B} (k : Lexer → L B) (Q : B → Prop) :
  (∀ lx, counted lx → lexes (k lx) Q) → lexes (get_state ≫= k) Q.
Proof. intros H lx Hc. by apply H. Qed.

Lemma lexes_weaken {A} (m : L A) (Q1 Q2 : A → Prop) :
  lexes m Q1 → (∀ a, Q1 a → Q2 a) → lexes m Q2.
Proof.
  intros Hm HQ lx Hc. specialize (Hm lx Hc). destruct (m lx) as [[a|e] lx1]; [|done].
  destruct Hm. auto.
Qed.

Lemma lexes_current : lexes current (λ _, True).
Proof. intros lx Hc. done. Qed.

Lemma lexes_peek : lexes peek (λ _, True).
Proof. intros lx Hc. done. Qed.

Lemma lexes_advance : lexes advance (λ _, True).
Proof.
  intros [src l col] [H1 H2]. unfold advance. cbn in *. destruct src as [|c r]; [done|].
  destruct (Ascii.eqb c _); (split; [|done]); split; cbn; lia.
Qed.

Lemma lexes_lift {A} (r : Result A) (Q : A → Prop) :
  match r with Ok a => Q a | Raised e => lexical e end → lexes (lift r) Q.
Proof. intros H lx Hc. unfold lift. destruct r; [by split|done]. Qed.

Create HintDb lex.
Hint Resolve lexes_current lexes_peek lexes_advance : lex.

Ltac lex_step :=
  match goal with
  | |- lexes (mbind _ get_state) _ => apply lexes_get_state_bind; intros ? ?
  | |- lexes (mbind _ _) _ => eapply lexes_bind; [solve [eauto with lex]|intros ? ?]
  | |- lexes (mret _) _ => apply lexes_ret
  | |- lexes (raise _) _ => apply lexes_raise
  | |- lexes (if ?b then _ else _) _ => destruct b eqn:?
  | |- lexes (match ?x with _ => _ end) _ => destruct x eqn:?
  | |- lexes (let '(_, _) := ?x in _) _ => destruct x eqn:?
  end.

Lemma lexes_skip_whitespace n : lexes (skip_whitespace n) (λ _, True).
Proof. induction n as [|n IH]; cbn [skip_whitespace]; repeat lex_step; done. Qed.

Lemma lexes_skip_comment n : lexes (skip_comment n) (λ _, True).
Proof. induction n as [|n IH]; cbn [skip_comment]; repeat lex_step; done. Qed.

Lemma lexes_read_interpolation n depth s : lexes (read_interpolation n depth s) (λ _, True).
Proof.
  revert depth s. induction n as [|n IH]; intros depth s; cbn [read_interpolation];
    repeat lex_step; done.
Qed.
Hint Resolve lexes_skip_whitespace lexes_skip_comment lexes_read_interpolation : lex.

Lemma lexes_read_string_loop n q h parts s :
  lexes (read_string_loop n q h parts s) (λ _, True).
Proof.
  revert h parts s. induction n as [|n IH]; intros h parts s; cbn [read_string_loop];
    repeat lex_step; done.
Qed.
Hint Resolve lexes_read_string_loop : lex.

Lemma lexes_read_string n q : lexes (read_string n q) (λ _, True).
Proof. unfold read_string. repeat lex_step; done. Qed.

Lemma lexes_take_while n p s : lexes (take_while n p s) (λ _, True).
Proof.
  revert s. induction n as [|n IH]; intros s; cbn [take_while]; repeat lex_step; done.
Qed.
Hint Resolve lexes_read_string lexes_take_while : lex.

Lemma lexes_int_of_digits acc text :
  match int_of_digits acc text with
  | Ok _ => True
  | Raised e => lexical e
  end.
Proof.
  revert acc. induction text as [|c r IH]; intros acc; cbn; [done|].
  destruct (in_range 48 57 c); [apply IH|done].
Qed.

Lemma lexes_float_of_text whole frac :
  match float_of_text whole frac with
  | Ok _ => True
  | Raised e => lexical e
  end.
Proof.
  unfold float_of_text. pose proof (lexes_int_of_digits 0 (whole +:+ frac)) as H.
  destruct (int_of_digits 0 (whole +:+ frac)); cbn; [|exact H].
  by destruct (_ && _).
Qed.

Lemma lexes_read_number n :
  lexes (read_number n) (λ r, r.1 = TT_INT ∨ r.1 = TT_FLOAT).
Proof.
  unfold read_number. repeat lex_step; auto.
  - eapply lexes_bind; [apply lexes_lift, lexes_float_of_text|].
    intros f _. apply lexes_ret. auto.
  - eapply lexes_bind; [apply lexes_lift, lexes_int_of_digits|].
    intros z _. apply lexes_ret. auto.
Qed.

Lemma lexes_read_identifier n :
  lexes (read_identifier n) (λ r, r.1 = TT_KEYWORD ∨ r.1 = TT_IDENTIFIER).
Proof. unfold read_identifier. repeat lex_step; auto. Qed.
Hint Resolve lexes_read_number lexes_read_identifier : lex.

Lemma lookup_op_Forall (P : TokType → Prop) key table t :
  Forall (λ kt, P kt.2) table → lookup_op key table = Some t → P t.
Proof.
  induction 1 as [|[k t'] table Hk Htable IH]; cbn [lookup_op]; [done|].
  destruct (String.eqb k key); [|done]. by intros [= <-].
Qed.

Lemma lookup_op_never_EOF key table t :
  table = two_char_ops ∨ table = simple → lookup_op key table = Some t → t ≠ TT_EOF.
Proof.
  intros H. apply (lookup_op_Forall (λ t, t ≠ TT_EOF)).
  destruct H as [-> | ->]; repeat constructor; discriminate.
Qed.

(** A token of the text proper: not the end marker, and at a position in
    the text. *)
Definition proper (t : Token) : Prop :=
  tok_type t ≠ TT_EOF ∧ 1 ≤ tok_line t ∧ 1 ≤ tok_column t.

Lemma proper_snoc tokens t v (lx : Lexer) :
  Forall proper tokens → counted lx → t ≠ TT_EOF →
  Forall proper (tokens ++ [mkToken t v (line lx) (column lx)]).
Proof.
  intros Hts [H1 H2] Ht. apply Forall_app. split; [done|]. by repeat constructor.
Qed.

Lemma lexes_tokenize_loop n tokens :
  Forall proper tokens → lexes (tokenize_loop n tokens) (Forall proper).
Proof.
  revert tokens. induction n as [|n IH]; intros tokens Hts; cbn [tokenize_loop];
    repeat lex_step; try done.
  all: try (by apply IH).
  all: apply IH, proper_snoc; [done|done|].
  all: try discriminate.
  all: cbv beta in *.
  all: match goal with
       | H : _ ∨ _ |- _ => by destruct H as [-> | ->]
       | H : lookup_op _ two_char_ops = Some _ |- _ =>
         eapply lookup_op_never_EOF; [by left|exact H]
       | H : lookup_op _ simple = Some _ |- _ =>
         eapply lookup_op_never_EOF; [by right|exact H]
       end.
Qed.

(** A token list ends with its only [EOF] token; a failure is one of the
    failures of [lexical]. *)
Lemma tokenize_outcome (text : string) :
  match tokenize text with
  | Ok toks =>
    ∃ body line column,
      toks = body ++ [mkToken TT_EOF TVNone line column]
      ∧ Forall proper body ∧ 1 ≤ line ∧ 1 ≤ column
  | Raised e => lexical e
  end.
Proof.
  unfold tokenize, tokenize_from, mbind, ST_bind, get_state, mret, ST_ret.
  cbn [fst source].
  assert (counted (mkLexer text 1 1)) as Hc by by split.
  pose proof (lexes_tokenize_loop (S (String.length text)) [] (Forall_nil_2 _) _ Hc) as H.
  destruct (tokenize_loop (S (String.length text)) [] (mkLexer text 1 1))
    as [[toks|e] lx']; [|exact H].
  destruct H as [[H1 H2] Hts]. cbn. by exists toks, (line lx'), (column lx').
Qed.

End LexerFacts.

(** ** The lexer: every loop consumes a character *)

Section LexerEnds.

Import Lexer.

Abbreviation remaining lx := (String.length (source lx)).

(** [m], run from [lx], does not use up its budget, and leaves no more of
    the text than there was ([strict]: less). *)
Definition shrinks {A} (strict : bool) (m : L A) (lx : Lexer) : Prop :=
  match m lx with
  | (Ok _, lx') =>
    if strict then (remaining lx' < remaining lx)%nat
    else (remaining lx' ≤ remaining lx)%nat
  | (Raised e, _) => e ≠ OutOfFuel
  end.

Ltac by_length :=
  repeat match goal with H : ∀ _, _ |- _ => clear H end;
  repeat match goal with E : source _ = _ |- _ => try rewrite E in *; clear E end;
  cbn [String.length] in *; lia.

Lemma shrinks_weaken {A} (m : L A) lx : shrinks true m lx → shrinks false m lx.
Proof. unfold shrinks. destruct (m lx) as [[a|e] lx']; [lia|done]. Qed.

Lemma shrinks_bind {A B} (s1 s2 : bool) (m : L A) (k : A → L B) (lx : Lexer) :
  shrinks s1 m lx →
  (∀ a lx1, m lx = (Ok a, lx1) → shrinks s2 (k a) lx1) →
  shrinks (s1 || s2) (m ≫= k) lx.
Proof.
  unfold shrinks, mbind, ST_bind. intros Hm Hk.
  destruct (m lx) as [[a|e] lx1]; [|done].
  specialize (Hk a lx1 eq_refl). destruct (k a lx1) as [[b|e] lx2]; [|done].
  destruct s1, s2; cbn; lia.
Qed.

Lemma shrinks_ret {A} (a : A) lx : shrinks false (mret a) lx.
Proof. unfold shrinks. cbn. lia. Qed.

Lemma shrinks_raise {A} s (e : Raise) lx : e ≠ OutOfFuel → shrinks s (raise (A := A) e) lx.
Proof. done. Qed.

Lemma shrinks_advance lx : shrinks true advance lx.
Proof.
  unfold shrinks, advance. destruct (source lx) as [|c r] eqn:E; [done|].
  destruct (Ascii.eqb c _); cbn; lia.
Qed.

Lemma advance_Ok lx a lx1 :
  advance lx = (Ok a, lx1) → (remaining lx1 < remaining lx)%nat.
Proof. intros H. pose proof (shrinks_advance lx) as S. unfold shrinks in S. by rewrite H in S. Qed.

Lemma shrinks_Ok {A} s (m : L A) lx a lx1 :
  shrinks s m lx → m lx = (Ok a, lx1) →
  if s then (remaining lx1 < remaining lx)%nat else (remaining lx1 ≤ remaining lx)%nat.
Proof. unfold shrinks. intros S E. by rewrite E in S. Qed.

Lemma current_Ok lx c lx1 :
  current lx = (Ok c, lx1) →
  lx1 = lx ∧ c = match source lx with String c _ => Some c | EmptyString => None end.
Proof. by intros [= <- <-]. Qed.

Lemma shrinks_current_bind {B} s (k : option ascii → L B) lx :
  shrinks s (k match source lx with String c _ => Some c | EmptyString => None end) lx →
  shrinks s (current ≫= k) lx.
Proof. done. Qed.

Lemma shrinks_peek_bind {B} s (k : option ascii → L B) lx :
  shrinks s (k match source lx with String _ (String c _) => Some c | _ => None end) lx →
  shrinks s (peek ≫= k) lx.
Proof. done. Qed.

Lemma shrinks_get_state_bind {B} s (k : Lexer → L B) lx :
  shrinks s (k lx) lx → shrinks s (get_state ≫= k) lx.
Proof. done. Qed.

(** [advance; k] where [k] does not grow the text again. *)
Lemma shrinks_advance_bind {B} (k : ascii → L B) lx :
  (∀ a lx1, advance lx = (Ok a, lx1) → (remaining lx1 < remaining lx)%nat →
            shrinks false (k a) lx1) →
  shrinks true (advance ≫= k) lx.
Proof.
  intros H. apply (shrinks_bind true false); [apply shrinks_advance|].
  intros a lx1 E. apply H; [done|]. by eapply advance_Ok.
Qed.

Lemma skip_whitespace_ends n lx :
  (remaining lx < n)%nat → shrinks false (skip_whitespace n) lx.
Proof.
  revert lx. induction n as [|n IH]; intros lx Hn; [lia|].
  cbn [skip_whitespace]. apply shrinks_current_bind.
  destruct (_ || _); [|apply shrinks_ret].
  apply shrinks_weaken, shrinks_advance_bind. intros a lx1 _ Hlt. apply IH. by_length.
Qed.

Lemma skip_comment_ends n lx :
  (remaining lx < n)%nat → shrinks false (skip_comment n) lx.
Proof.
  revert lx. induction n as [|n IH]; intros lx Hn; [lia|].
  cbn [skip_comment]. apply shrinks_current_bind.
  destruct (source lx) as [|c r] eqn:E; [apply shrinks_ret|].
  destruct (Ascii.eqb c _); [apply shrinks_ret|].
  apply shrinks_weaken, shrinks_advance_bind. intros a lx1 _ Hlt. apply IH. by_length.
Qed.

Lemma take_while_ends n p text lx :
  (remaining lx < n)%nat → shrinks false (take_while n p text) lx.
Proof.
  revert text lx. induction n as [|n IH]; intros text lx Hn; [lia|].
  cbn [take_while]. apply shrinks_current_bind.
  destruct (source lx) as [|c r] eqn:E; [apply shrinks_ret|].
  destruct (p c); [|apply shrinks_ret].
  apply shrinks_weaken, shrinks_advance_bind. intros a lx1 _ Hlt. apply IH. by_length.
Qed.

(** When the first character passes the test, it is consumed. *)
Lemma take_while_first n p text lx c r :
  (remaining lx < n)%nat → source lx = String c r → p c = true →
  shrinks true (take_while n p text) lx.
Proof.
  intros Hn E Hp. destruct n as [|n]; [lia|].
  cbn [take_while]. apply shrinks_current_bind. rewrite E, Hp.
  apply shrinks_advance_bind. intros a lx1 _ Hlt. apply take_while_ends. by_length.
Qed.

Lemma read_interpolation_ends n depth s lx :
  (remaining lx < n)%nat → shrinks false (read_interpolation n depth s) lx.
Proof.
  revert depth s lx. induction n as [|n IH]; intros depth s lx Hn; [lia|].
  cbn [read_interpolation]. apply shrinks_current_bind.
  destruct (source lx) as [|c r] eqn:E; [apply shrinks_ret|].
  destruct (Ascii.eqb c "{").
  { apply shrinks_weaken, shrinks_advance_bind. intros a lx1 _ Hlt. apply IH. by_length. }
  destruct (Ascii.eqb c "}").
  { destruct (_ =? _); [apply shrinks_ret|].
    apply shrinks_weaken, shrinks_advance_bind. intros a lx1 _ Hlt. apply IH. by_length. }
  apply shrinks_weaken, shrinks_advance_bind. intros a lx1 _ Hlt. apply IH. by_length.
Qed.

Lemma read_string_loop_ends n q h parts s lx :
  (remaining lx < n)%nat → shrinks false (read_string_loop n q h parts s) lx.
Proof.
  revert h parts s lx. induction n as [|n IH]; intros h parts s lx Hn; [lia|].
  cbn [read_string_loop]. apply shrinks_current_bind.
  destruct (source lx) as [|c r] eqn:E; [apply shrinks_ret|].
  destruct (Ascii.eqb c q); [apply shrinks_ret|].
  destruct (Ascii.eqb c "\").
  { apply shrinks_weaken, shrinks_advance_bind. intros a lx1 _ Hlt.
    apply shrinks_weaken, shrinks_advance_bind. intros a2 lx2 _ Hlt2. apply IH. by_length. }
  destruct (_ && _).
  { apply shrinks_weaken, shrinks_advance_bind. intros a lx1 _ Hlt.
    apply (shrinks_bind false false); [apply read_interpolation_ends; by_length|].
    intros e lx2 He.
    pose proof (shrinks_Ok _ _ _ _ _ (read_interpolation_ends n 1 "" lx1 ltac:(by_length)) He)
      as Hle. cbn in Hle.
    apply shrinks_current_bind, shrinks_get_state_bind.
    destruct (negb _); [by apply shrinks_raise|].
    apply shrinks_weaken, shrinks_advance_bind. intros a3 lx3 _ Hlt3. apply IH. by_length. }
  apply shrinks_weaken, shrinks_advance_bind. intros a lx1 _ Hlt. apply IH. by_length.
Qed.

Lemma read_string_ends n q lx :
  (remaining lx < n)%nat → shrinks true (read_string n q) lx.
Proof.
  intros Hn. unfold read_string. apply shrinks_get_state_bind.
  apply shrinks_advance_bind. intros a lx1 _ Hlt.
  apply (shrinks_bind false false); [apply read_string_loop_ends; by_length|].
  intros [[h parts] s] lx2 He. apply shrinks_current_bind.
  destruct (negb _); [by apply shrinks_raise|].
  apply shrinks_weaken, shrinks_advance_bind. intros a3 lx3 _ Hlt3.
  destruct h; apply shrinks_ret.
Qed.

Lemma shrinks_lift_bind {A B} s (r : Result A) (k : A → L B) lx :
  match r with Raised e => e ≠ OutOfFuel | Ok _ => True end →
  (∀ a, shrinks s (k a) lx) → shrinks s (lift r ≫= k) lx.
Proof.
  intros Hr Hk. unfold shrinks, mbind, ST_bind, lift. destruct r as [a|e]; [apply Hk|done].
Qed.

Lemma int_of_digits_ends acc text :
  match int_of_digits acc text with Raised e => e ≠ OutOfFuel | Ok _ => True end.
Proof.
  revert acc. induction text as [|c r IH]; intros acc; cbn; [done|].
  destruct (in_range 48 57 c); [apply IH|done].
Qed.

Lemma float_of_text_ends whole frac :
  match float_of_text whole frac with Raised e => e ≠ OutOfFuel | Ok _ => True end.
Proof.
  unfold float_of_text. pose proof (int_of_digits_ends 0 (whole +:+ frac)) as H.
  destruct (int_of_digits 0 (whole +:+ frac)); cbn; [|exact H].
  by destruct (_ && _).
Qed.

Lemma read_number_ends n lx c r :
  (remaining lx < n)%nat → source lx = String c r → isdigit c = true →
  shrinks true (read_number n) lx.
Proof.
  intros Hn E Hp. unfold read_number.
  apply (shrinks_bind true false); [by eapply take_while_first|].
  intros whole lx1 Hw.
  pose proof (shrinks_Ok _ _ _ _ _ (take_while_first n isdigit "" lx c r Hn E Hp) Hw) as Hlt.
  cbn in Hlt.
  apply shrinks_current_bind, shrinks_peek_bind.
  destruct (_ && _).
  - apply shrinks_weaken, shrinks_advance_bind. intros a lx2 _ Hlt2.
    apply (shrinks_bind false false); [apply take_while_ends; by_length|].
    intros frac lx3 _. apply shrinks_lift_bind; [apply float_of_text_ends|].
    intros f. apply shrinks_ret.
  - apply shrinks_lift_bind; [apply int_of_digits_ends|]. intros z. apply shrinks_ret.
Qed.

Lemma read_identifier_ends n lx c r :
  (remaining lx < n)%nat → source lx = String c r →
  isalpha c || Ascii.eqb c "_" = true →
  shrinks true (read_identifier n) lx.
Proof.
  intros Hn E Hp. unfold read_identifier.
  apply (shrinks_bind true false).
  - eapply take_while_first; [done|done|]. cbv beta. unfold isalnum.
    apply orb_true_iff in Hp as [-> | ->]; [reflexivity|apply orb_true_r].
  - intros word lx1 _. destruct (bool_decide _); apply shrinks_ret.
Qed.

Lemma tokenize_loop_ends n tokens lx :
  (remaining lx < n)%nat → shrinks false (tokenize_loop n tokens) lx.
Proof.
  revert tokens lx. induction n as [|n IH]; intros tokens lx Hn; [lia|].
  cbn [tokenize_loop]. apply shrinks_current_bind.
  pose proof (skip_whitespace_ends (S n) lx Hn) as Hws0.
  destruct (source lx) as [|c0 r0] eqn:E0; [apply shrinks_ret|].
  apply (shrinks_bind false false); [exact Hws0|].
  intros [] lx1 Hws.
  pose proof (shrinks_Ok _ _ _ _ _ Hws0 Hws) as Hle.
  cbn in Hle.
  apply shrinks_current_bind, shrinks_get_state_bind.
  destruct (source lx1) as [|c r] eqn:E; [apply shrinks_ret|].
  apply shrinks_peek_bind. rewrite E.
  destruct (_ && _).
  { apply shrinks_weaken, shrinks_advance_bind. intros a1 lx2 _ Hlt1.
    apply shrinks_weaken, shrinks_advance_bind. intros a2 lx3 _ Hlt2.
    apply (shrinks_bind false false); [apply skip_comment_ends; by_length|].
    intros [] lx4 Hc.
    pose proof (shrinks_Ok _ _ _ _ _ (skip_comment_ends (S n) lx3 ltac:(by_length)) Hc) as Hle4.
    cbn in Hle4. apply IH. by_length. }
  destruct (Ascii.eqb c (chr 10)).
  { apply shrinks_weaken, shrinks_advance_bind. intros a1 lx2 _ Hlt1. apply IH. by_length. }
  destruct (_ || _).
  { apply (shrinks_bind false false);
      [apply shrinks_weaken, read_string_ends; by_length|].
    intros res lx2 Hr.
    pose proof (shrinks_Ok _ _ _ _ _ (read_string_ends (S n) c lx1 ltac:(by_length)) Hr) as Hlt.
    cbn in Hlt. destruct res; apply IH; by_length. }
  destruct (isdigit c) eqn:Hd.
  { assert (shrinks true (read_number (S n)) lx1) as Hs
      by (eapply read_number_ends; [by_length|done|done]).
    apply (shrinks_bind false false); [by apply shrinks_weaken|].
    intros res lx2 Hr. pose proof (shrinks_Ok _ _ _ _ _ Hs Hr) as Hlt. cbn in Hlt.
    apply IH. by_length. }
  destruct (isalpha c || Ascii.eqb c "_") eqn:Ha.
  { assert (shrinks true (read_identifier (S n)) lx1) as Hs
      by (eapply read_identifier_ends; [by_length|done|done]).
    apply (shrinks_bind false false); [by apply shrinks_weaken|].
    intros res lx2 Hr. pose proof (shrinks_Ok _ _ _ _ _ Hs Hr) as Hlt. cbn in Hlt.
    apply IH. by_length. }
  cbv zeta. destruct (lookup_op _ two_char_ops).
  { apply shrinks_weaken, shrinks_advance_bind. intros a1 lx2 _ Hlt1.
    apply shrinks_weaken, shrinks_advance_bind. intros a2 lx3 _ Hlt2. apply IH. by_length. }
  destruct (lookup_op _ simple); [|by apply shrinks_raise].
  apply shrinks_weaken, shrinks_advance_bind. intros a1 lx2 _ Hlt1. apply IH. by_length.
Qed.

(** X16.  When the lexer returns, the token list is the tokens of the text
    followed by one [EOF] token: the last token is an [EOF], no other token
    is, and every token carries a line and a column of at least 1. *)
Theorem tokens_end_with_the_only_EOF (text : string) (toks : list Token) :
  tokenize text = Ok toks →
  ∃ body line column,
    toks = body ++ [mkToken TT_EOF TVNone line column]
    ∧ Forall proper body ∧ 1 ≤ line ∧ 1 ≤ column.
Proof. intros H. pose proof (tokenize_outcome text) as Ho. by rewrite H in Ho. Qed.

Lemma tokens_end_with_the_only_EOF_witness :
  ∃ body line column,
    [mkToken TT_IDENTIFIER (TVStr "x") 1 1; mkToken TT_EOF TVNone 1 2]
    = body ++ [mkToken TT_EOF TVNone line column]
    ∧ Forall proper body ∧ 1 ≤ line ∧ 1 ≤ column.
Proof. exact (tokens_end_with_the_only_EOF "x" _ eq_refl). Defined.

(** X17.  The lexer comes to an end on every text, with a token list or
    with one of four failures: each of its loops consumes a character in
    every round, so that no loop goes on for ever (in the model: a budget of
    one more than the length of the text is never used up).  The failures
    are a [LexerError], which carries a line and a column of at least 1;
    the host's [IndexError] and [ValueError], which are not errors of the
    language; and a float literal that the model does not describe. *)
Theorem the_lexer_ends (text : string) :
  match tokenize text with
  | Ok _ => True
  | Raised (LexerError _ line column _) => 1 ≤ line ∧ 1 ≤ column
  | Raised (Host IndexError) | Raised (Host ValueError) | Raised (Unmodelled _) => True
  | Raised _ => False
  end.
Proof.
  pose proof (tokenize_outcome text) as Ho.
  assert (tokenize text ≠ Raised OutOfFuel) as Hfuel.
  { unfold tokenize, tokenize_from, mbind, ST_bind, get_state, mret, ST_ret.
    cbn [fst source].
    pose proof (tokenize_loop_ends (S (String.length text)) [] (mkLexer text 1 1)
                  ltac:(cbn; lia)) as H.
    unfold shrinks in H.
    destruct (tokenize_loop (S (String.length text)) [] (mkLexer text 1 1))
      as [[toks|e] lx']; cbn; [done|]. congruence. }
  destruct (tokenize text) as [toks|e]; [done|].
  destruct e as [| | | | | |[]| |]; done.
Qed.

End LexerEnds.

(** ** Characters that begin no token *)

(** The characters with which a token, white space or a comment can begin:
    blank, tab, return and newline, the two quotes, digits, letters and the
    underscore, the characters of the one-character operators, and [$], [&]
    and [!], which begin [$$], [&&] and [!=]. *)
Definition may_begin (c : ascii) : bool :=
  has_char c (" " +:+ String (Lexer.chr 9) (String (Lexer.chr 13) (String (Lexer.chr 10) ""))
              +:+ String (Lexer.chr 34) "'_+-*/%=<>(){}[],.:$&!")
  || Lexer.isdigit c || Lexer.isalpha c.

(** X18.  A text that begins with any other character is rejected: the
    lexer raises [Unknown character] at line 1, column 1, whatever
    follows. *)
Theorem other_characters_are_unknown (c : ascii) (rest : string) :
  may_begin c = false →
  Lexer.tokenize (String c rest)
  = Raised (LexerError [Lit ("Unknown character '" +:+ String c "" +:+ "'")] 1 1
              "Remove the character or check for a typo.").
Proof.
  destruct c as [[] [] [] [] [] [] [] []]; intros H; try discriminate H; clear H.
  all: unfold Lexer.tokenize, Lexer.tokenize_from, mbind, ST_bind, get_state;
       cbn [fst Lexer.source String.length Lexer.tokenize_loop];
       vm_compute; reflexivity.
Qed.

Lemma other_characters_are_unknown_witness :
  Lexer.tokenize "; x"
  = Raised (LexerError [Lit "Unknown character ';'"] 1 1
              "Remove the character or check for a typo.").
Proof. exact (other_characters_are_unknown ";" " x" eq_refl). Defined.

(** ** String literals *)

Section StringLiterals.

Import Lexer.

(** The opening and closing quote of a literal. *)
Definition quote (double : bool) : ascii := if double then chr 34 else "'".

(** A character that stands for itself in a literal with the quote [q]:
    not the quote, not a backslash, and in a double-quoted literal not an
    opening brace. *)
Definition literal_char (q : ascii) (c : ascii) : bool :=
  negb (Ascii.eqb c q) && negb (Ascii.eqb c "\")
  && negb (Ascii.eqb c "{" && Ascii.eqb q (chr 34)).

Fixpoint all_chars (p : ascii → bool) (s : string) : bool :=
  match s with
  | EmptyString => true
  | String c r => p c && all_chars p r
  end.

(** The line and column after [text], from line [l] and column [col]. *)
Fixpoint pass (text : string) (l col : Z) : Z * Z :=
  match text with
  | EmptyString => (l, col)
  | String c r => if Ascii.eqb c (chr 10) then pass r (l + 1) 1 else pass r l (col + 1)
  end.

Lemma append_char_app (s : string) (c : ascii) (r : string) :
  append_char s c +:+ r = s +:+ String c r.
Proof.
  unfold append_char. induction s as [|x s IH]; [done|].
  change (String x ((s +:+ String c "") +:+ r) = String x (s +:+ String c r)).
  by rewrite IH.
Qed.

Lemma read_string_loop_literal (text : string) :
  ∀ (n : nat) (q : ascii) (h : bool) (parts : list (string + string)) (cur rest : string)
    (l col : Z),
    all_chars (literal_char q) text = true →
    read_string_loop (String.length text + n) q h parts cur (mkLexer (text +:+ rest) l col)
    = read_string_loop n q h parts (cur +:+ text)
        (mkLexer rest (pass text l col).1 (pass text l col).2).
Proof.
  induction text as [|c r IH]; intros n q h parts cur rest l col Hall.
  - cbn. f_equal. clear. induction cur as [|x s IH]; [done|].
    change (String x s = String x (s +:+ "")). by rewrite <- IH.
  - cbn [all_chars] in Hall. apply andb_true_iff in Hall as [Hc Hr].
    unfold literal_char in Hc.
    apply andb_true_iff in Hc as [Hc H3]. apply andb_true_iff in Hc as [H1 H2].
    apply negb_true_iff in H1, H2, H3.
    change (String.length (String c r) + n)%nat with (S (String.length r + n)).
    change (String c r +:+ rest) with (String c (r +:+ rest)).
    cbn [read_string_loop]. unfold mbind at 1, ST_bind at 1, current at 1.
    cbn [source]. rewrite H1, H2, H3.
    unfold mbind at 1, ST_bind at 1, advance at 1. cbn [source line column pass].
    rewrite <- append_char_app.
    destruct (Ascii.eqb c (chr 10)); apply IH; done.
Qed.


Lemma string_length_app (a b : string) :
  String.length (a +:+ b) = (String.length a + String.length b)%nat.
Proof.
  induction a as [|x a IH]; [done|].
  change (S (String.length (a +:+ b)) = S (String.length a + String.length b)).
  by rewrite IH.
Qed.

Lemma tokenize_run (text : string) (toks : list Token) (lx' : Lexer) :
  tokenize_loop (S (String.length text)) [] (mkLexer text 1 1) = (Ok toks, lx') →
  tokenize text = Ok (toks ++ [mkToken TT_EOF TVNone (line lx') (column lx')]).
Proof.
  intros H. unfold tokenize, tokenize_from, mbind, ST_bind, get_state. cbn [source].
  by rewrite H.
Qed.

Lemma tokenize_run_Raised (text : string) (e : Raise) (lx' : Lexer) :
  tokenize_loop (S (String.length text)) [] (mkLexer text 1 1) = (Raised e, lx') →
  tokenize text = Raised e.
Proof.
  intros H. unfold tokenize, tokenize_from, mbind, ST_bind, get_state. cbn [source].
  by rewrite H.
Qed.

(** The round of [tokenize] that meets a quote. *)
Lemma tokenize_loop_quote (double : bool) (n : nat) (tokens : list Token) (more : string)
    (l col : Z) :
  let lx := mkLexer (String (quote double) more) l col in
  tokenize_loop (S n) tokens lx
  = (read_string (S n) (quote double) ≫= λ result,
       match result with
       | inr parts => tokenize_loop n (tokens ++ [mkToken TT_FSTRING (TVParts parts) l col])
       | inl text => tokenize_loop n (tokens ++ [mkToken TT_STRING (TVStr text) l col])
       end) lx.
Proof. by destruct double. Qed.

(** [read_string] up to the end of the literal characters. *)
Lemma read_string_literal (double : bool) (n : nat) (text rest : string) (l col : Z) :
  all_chars (literal_char (quote double)) text = true →
  read_string (String.length text + n) (quote double)
    (mkLexer (String (quote double) (text +:+ rest)) l col)
  = (r ← read_string_loop n (quote double) false [] text;
     let '(has_interpolation, interp_parts, current_str) := r in
     c ← current;
     if negb (is_char (quote double) c) then
       raise (LexerError [Lit "Unterminated string literal"] l col
                "Did you forget to close the quote?")
     else
       _ ← advance;
       if has_interpolation : bool then mret (inr (flush_str current_str interp_parts))
       else mret (inl current_str))
      (mkLexer rest (pass text l (col + 1)).1 (pass text l (col + 1)).2).
Proof.
  intros Hall. unfold read_string.
  unfold mbind at 1, ST_bind at 1, get_state at 1.
  unfold mbind at 1, ST_bind at 1, advance at 1. cbn [source line column].
  assert (Ascii.eqb (quote double) (chr 10) = false) as -> by by destruct double.
  unfold mbind at 1, ST_bind at 1.
  rewrite (read_string_loop_literal text n (quote double) false [] "" rest l (col + 1) Hall).
  reflexivity.
Qed.

Lemma read_string_closed (double : bool) (n : nat) (text rest : string) (l col : Z) :
  all_chars (literal_char (quote double)) text = true →
  read_string (String.length text + S n) (quote double)
    (mkLexer (String (quote double) (text +:+ String (quote double) rest)) l col)
  = (Ok (inl text),
     mkLexer rest (pass text l (col + 1)).1 ((pass text l (col + 1)).2 + 1)).
Proof. intros Hall. rewrite read_string_literal by done. by destruct double. Qed.

Lemma read_string_open (double : bool) (n : nat) (text : string) (l col : Z) :
  all_chars (literal_char (quote double)) text = true →
  read_string (String.length text + S n) (quote double)
    (mkLexer (String (quote double) text) l col)
  = (Raised (LexerError [Lit "Unterminated string literal"] l col
               "Did you forget to close the quote?"),
     mkLexer "" (pass text l (col + 1)).1 (pass text l (col + 1)).2).
Proof.
  intros Hall.
  assert (text = text +:+ "") as E.
  { clear. induction text as [|x s IH]; [done|].
    change (String x s = String x (s +:+ "")). by rewrite <- IH. }
  rewrite E at 2. rewrite read_string_literal by done. by destruct double.
Qed.

Lemma read_string_backslash (double : bool) (n : nat) (text : string) (l col : Z) :
  all_chars (literal_char (quote double)) text = true →
  read_string (String.length text + S n) (quote double)
    (mkLexer (String (quote double) (text +:+ "\")) l col)
  = (Raised (Host IndexError),
     mkLexer "" (pass text l (col + 1)).1 ((pass text l (col + 1)).2 + 1)).
Proof. intros Hall. rewrite read_string_literal by done. by destruct double. Qed.

(** X19.  A quoted text whose characters are literal characters is one
    [STRING] token whose value is the text between the quotes, newlines
    included, at the position of the opening quote; the [EOF] token follows
    at the position after the closing quote. *)
Theorem a_string_literal_is_its_text (double : bool) (text : string) :
  all_chars (literal_char (quote double)) text = true →
  tokenize (String (quote double) (text +:+ String (quote double) ""))
  = Ok [mkToken TT_STRING (TVStr text) 1 1;
        mkToken TT_EOF TVNone (pass text 1 2).1 ((pass text 1 2).2 + 1)].
Proof.
  intros Hall.
  apply (tokenize_run _ [mkToken TT_STRING (TVStr text) 1 1]
           (mkLexer "" (pass text 1 2).1 ((pass text 1 2).2 + 1))).
  change (String.length (String (quote double) (text +:+ String (quote double) "")))
    with (S (String.length (text +:+ String (quote double) ""))).
  rewrite string_length_app. cbn [String.length].
  rewrite tokenize_loop_quote. cbv zeta.
  replace (S (S (String.length text + 1))) with (String.length text + 3)%nat by lia.
  etrans; [apply bind_run_Ok; by apply read_string_closed|].
  reflexivity.
Qed.

Lemma a_string_literal_is_its_text_witness :
  tokenize "'say hi'"
  = Ok [mkToken TT_STRING (TVStr "say hi") 1 1; mkToken TT_EOF TVNone 1 9].
Proof. exact (a_string_literal_is_its_text false "say hi" eq_refl). Defined.



(** X21.  A backslash as the last character of the text, inside a literal,
    is not a [LexerError]: [read_string] advances over the backslash and
    then once more, beyond the end of the text, and the host's [IndexError]
    leaves the lexer as it is. *)
Theorem a_final_backslash_is_an_IndexError (double : bool) (text : string) :
  all_chars (literal_char (quote double)) text = true →
  tokenize (String (quote double) (text +:+ "\"))
  = Raised (Host IndexError)
  ∧ handler_of (Host IndexError) = Some Internal.
Proof.
  intros Hall. split; [|done].
  apply (tokenize_run_Raised _ _ (mkLexer "" (pass text 1 2).1 ((pass text 1 2).2 + 1))).
  change (String.length (String (quote double) (text +:+ "\")))
    with (S (String.length (text +:+ "\"))).
  rewrite string_length_app. cbn [String.length].
  rewrite tokenize_loop_quote. cbv zeta.
  apply bind_run_Raised.
  replace (S (S (String.length text + 1))) with (String.length text + 3)%nat by lia.
  by apply read_string_backslash.
Qed.

Lemma a_final_backslash_is_an_IndexError_witness :
  tokenize "'abc\" = Raised (Host IndexError).
Proof. exact (proj1 (a_final_backslash_is_an_IndexError false "abc" eq_refl)). Defined.


(** ** Words *)

Definition word_char (c : ascii) : bool := isalnum c || Ascii.eqb c "_".

Lemma string_app_nil (s : string) : s +:+ "" = s.
Proof.
  induction s as [|x s IH]; [done|].
  change (String x (s +:+ "") = String x s). by rewrite IH.
Qed.

Lemma word_char_not_newline (c : ascii) : word_char c = true → Ascii.eqb c (chr 10) = false.
Proof. destruct c as [[] [] [] [] [] [] [] []]; done. Qed.

Lemma take_while_word (text : string) :
  ∀ (n : nat) (acc : string) (l col : Z),
    all_chars word_char text = true →
    take_while (String.length text + S n) word_char acc (mkLexer text l col)
    = (Ok (acc +:+ text), mkLexer "" l (col + Z.of_nat (String.length text))).
Proof.
  induction text as [|c r IH]; intros n acc l col Hall.
  - cbn. by rewrite string_app_nil, Z.add_0_r.
  - cbn [all_chars] in Hall. apply andb_true_iff in Hall as [Hc Hr].
    change (String.length (String c r) + S n)%nat with (S (String.length r + S n)).
    cbn [take_while]. unfold mbind at 1, ST_bind at 1, current at 1. cbn [source].
    rewrite Hc. unfold mbind at 1, ST_bind at 1, advance at 1. cbn [source line column].
    rewrite (word_char_not_newline c Hc), IH by done.
    rewrite append_char_app. f_equal. f_equal. cbn [String.length]. lia.
Qed.

(** X22.  A text that is one word (letters, digits and underscores, not
    beginning with a digit) is one token with the word as its value: a
    [KEYWORD] when the word is one of the twenty reserved words, among them
    [true], [false] and [none], and an [IDENTIFIER] otherwise. *)
Theorem a_word_is_a_keyword_or_an_identifier (c : ascii) (rest : string) :
  isalpha c || Ascii.eqb c "_" = true →
  all_chars word_char rest = true →
  let word := String c rest in
  tokenize word
  = Ok [mkToken (if bool_decide (word ∈ KEYWORDS) then TT_KEYWORD else TT_IDENTIFIER)
          (TVStr word) 1 1;
        mkToken TT_EOF TVNone 1 (1 + Z.of_nat (String.length word))].
Proof.
  intros Hc Hrest word.
  assert (word_char c = true) as Hw.
  { unfold word_char, isalnum. apply orb_true_iff in Hc as [-> | ->]; [done|].
    apply orb_true_r. }
  assert (all_chars word_char word = true) as Hall by (cbn; by rewrite Hw, Hrest).
  assert (take_while (S (S (String.length rest))) (λ c, isalnum c || Ascii.eqb c "_") ""
            (mkLexer word 1 1)
          = (Ok word, mkLexer "" 1 (1 + Z.of_nat (String.length word)))) as Htake.
  { pose proof (take_while_word word 0 "" 1 1 Hall) as H.
    replace (String.length word + 1)%nat with (S (S (String.length rest))) in H
      by (cbn; lia).
    exact H. }
  apply (tokenize_run _ [mkToken _ (TVStr word) 1 1]
           (mkLexer "" 1 (1 + Z.of_nat (String.length word)))).
  change (String.length word) with (S (String.length rest)).
  assert (isdigit c = false) as Hd.
  { clear -Hc. destruct c as [[] [] [] [] [] [] [] []]; done. }
  assert (tokenize_loop (S (S (String.length rest))) [] (mkLexer word 1 1)
          = (r ← read_identifier (S (S (String.length rest)));
             tokenize_loop (S (String.length rest)) ([] ++ [mkToken r.1 r.2 1 1]))
              (mkLexer word 1 1)) as ->.
  { clear -Hc Hd. unfold word. cbn [tokenize_loop].
    destruct c as [[] [] [] [] [] [] [] []]; try discriminate Hc; try discriminate Hd;
      reflexivity. }
  assert (read_identifier (S (S (String.length rest))) (mkLexer word 1 1)
          = (Ok (if bool_decide (word ∈ KEYWORDS) then TT_KEYWORD else TT_IDENTIFIER,
                 TVStr word),
             mkLexer "" 1 (1 + Z.of_nat (String.length word)))) as Hid.
  { unfold read_identifier. etrans; [apply bind_run_Ok; exact Htake|].
    by destruct (bool_decide (word ∈ KEYWORDS)). }
  etrans; [apply bind_run_Ok; exact Hid|]. reflexivity.
Qed.

Lemma a_word_is_a_keyword_or_an_identifier_witness :
  tokenize "none" = Ok [mkToken TT_KEYWORD (TVStr "none") 1 1; mkToken TT_EOF TVNone 1 5]
  ∧ tokenize "nones"
    = Ok [mkToken TT_IDENTIFIER (TVStr "nones") 1 1; mkToken TT_EOF TVNone 1 6].
Proof.
  split.
  - exact (a_word_is_a_keyword_or_an_identifier "n" "one" eq_refl eq_refl).
  - exact (a_word_is_a_keyword_or_an_identifier "n" "ones" eq_refl eq_refl).
Defined.

End StringLiterals.

(** ** The parser *)

Section ParserFacts.

Import Parser.

(** How the parser can fail: not with an error or a signal of the
    evaluator. *)
Definition syntactic (r : Raise) : Prop :=
  match r with
  | RuntimeError_ _ _ _ _ | ReturnSignal _ | BreakSignal | ContinueSignal => False
  | _ => True
  end.

(** The parser [p] works on the tokens [T] and stands at one of them. *)
Definition within (T : list Token) (p : Parser) : Prop :=
  tokens p = T ∧ (pos p < length T)%nat.

Definition parses {A} (T : list Token) (m : P A) : Prop :=
  ∀ p, within T p →
    within T (m p).2 ∧ match (m p).1 with Raised e => syntactic e | Ok _ => True end.

Lemma parses_ret {A} T (a : A) : parses T (mret a).
Proof. intros p Hp. by split. Qed.

Lemma parses_raise {A} T (e : Raise) : syntactic e → parses T (raise (A := A) e).
Proof. intros H p Hp. by split. Qed.

Lemma parses_bind {A B} T (m : P A) (k : A → P B) :
  parses T m → (∀ a, parses T (k a)) → parses T (m ≫= k).
Proof.
  intros Hm Hk p Hp. unfold mbind, ST_bind. specialize (Hm p Hp).
  destruct (m p) as [[a|e] p1]; cbn in Hm; [|done].
  destruct Hm as [Hp1 _]. by apply Hk.
Qed.

Lemma parses_get_state_bind {B} T (k : Parser → P B) :
  (∀ p, within T p → parses T (k p)) → parses T (get_state ≫= k).
Proof. intros H p Hp. by apply H. Qed.

Lemma parses_current T : parses T current.
Proof.
  intros p [Ht Hp]. unfold current.
  destruct (tokens p !! pos p) as [tok|] eqn:E; [by split|].
  apply lookup_ge_None in E. rewrite Ht in E. lia.
Qed.

Lemma parses_peek T : parses T peek.
Proof.
  intros p [Ht Hp]. unfold peek.
  destruct (tokens p !! S (pos p)) as [tok|]; [by split|].
  destruct (last (tokens p)) as [tok|]; by split.
Qed.

Lemma parses_advance T : parses T advance.
Proof.
  unfold advance. apply parses_bind; [apply parses_current|]. intros tok.
  apply parses_bind; [|intros; apply parses_ret].
  intros p [Ht Hp]. unfold modify. cbn [fst snd]. split; [|done].
  destruct (S (pos p) <? length (tokens p))%nat eqn:E; [|by split].
  apply Nat.ltb_lt in E. split; cbn; [done|by rewrite <- Ht].
Qed.

Lemma parses_set_pos T (n : nat) : (n < length T)%nat → parses T (set_pos n).
Proof. intros Hn p [Ht Hp]. by split. Qed.

Lemma parses_value_str T tok : parses T (value_str tok).
Proof. unfold value_str. destruct (tok_value tok); by (apply parses_ret || apply parses_raise). Qed.

Create HintDb par.
Hint Resolve parses_ret parses_current parses_peek parses_advance parses_value_str : par.

Ltac par_step :=
  match goal with
  | |- parses _ (mbind _ get_state) => apply parses_get_state_bind; intros ? ?
  | |- parses _ (mbind _ _) => apply parses_bind; [|intros ?]
  | |- parses _ (raise _) => apply parses_raise; done
  | |- parses _ (if ?b then _ else _) => destruct b
  | |- parses _ (match ?x with _ => _ end) => destruct x
  | |- parses _ _ => solve [auto with par]
  end.

Ltac par_go := cbv zeta; repeat par_step.

Lemma parses_expect T type_ value : parses T (expect type_ value).
Proof. unfold expect. par_go. Qed.

Lemma parses_match_ T type_ : parses T (match_ type_).
Proof. unfold match_. par_go. Qed.

Lemma parses_match_value T type_ value : parses T (match_value type_ value).
Proof. unfold match_value. par_go. Qed.

Lemma parses_parse_error_here {A} T msg hint : parses T (parse_error_here (A := A) msg hint).
Proof. unfold parse_error_here. par_go. Qed.
Hint Resolve parses_expect parses_match_ parses_match_value parses_parse_error_here : par.

Lemma parses_skip_newlines T n : parses T (skip_newlines n).
Proof. induction n as [|n IH]; cbn [skip_newlines]; par_go. Qed.
Hint Resolve parses_skip_newlines : par.

(** The six entry points of the descent keep within the tokens. *)
Definition descends (rec : Rec) : Prop :=
  ∀ T, parses T (rec_expression rec) ∧ parses T (rec_not rec) ∧ parses T (rec_power rec)
       ∧ parses T (rec_unary rec) ∧ parses T (rec_statement rec) ∧ parses T (rec_if rec).

Variable rec : Rec.
Variable budget : nat.
Hypothesis rec_descends : descends rec.

Lemma parses_rec_expression T : parses T (rec_expression rec).
Proof. apply rec_descends. Qed.
Lemma parses_rec_not T : parses T (rec_not rec).
Proof. apply rec_descends. Qed.
Lemma parses_rec_power T : parses T (rec_power rec).
Proof. apply rec_descends. Qed.
Lemma parses_rec_unary T : parses T (rec_unary rec).
Proof. apply rec_descends. Qed.
Lemma parses_rec_statement T : parses T (rec_statement rec).
Proof. apply rec_descends. Qed.
Lemma parses_rec_if T : parses T (rec_if rec).
Proof. apply rec_descends. Qed.
Hint Resolve parses_rec_expression parses_rec_not parses_rec_power parses_rec_unary
  parses_rec_statement parses_rec_if : par.

Lemma parses_arguments T n args : parses T (arguments rec n args).
Proof. revert args. induction n as [|n IH]; intros args; cbn [arguments]; par_go. Qed.
Hint Resolve parses_arguments : par.

Lemma parses_parse_call T name : parses T (parse_call rec budget name).
Proof. unfold parse_call. par_go. Qed.

Lemma parses_parse_take T : parses T (parse_take rec).
Proof. unfold parse_take. par_go. Qed.

Lemma parses_list_elements T n elements : parses T (list_elements rec n elements).
Proof. revert elements. induction n as [|n IH]; intros e; cbn [list_elements]; par_go. Qed.
Hint Resolve parses_parse_call parses_parse_take parses_list_elements : par.

Lemma parses_parse_list T : parses T (parse_list rec budget).
Proof. unfold parse_list. par_go. Qed.

Lemma parses_parse_fragment T text : parses T (parse_fragment rec text).
Proof.
  intros p Hp. unfold parse_fragment.
  pose proof (tokenize_outcome text) as H.
  destruct (Lexer.tokenize text) as [toks|e]; cbn.
  - split; [done|]. destruct H as (body & l & c & -> & _).
    pose proof (parses_rec_expression (body ++ [mkToken TT_EOF TVNone l c])
                  (mkParser (body ++ [mkToken TT_EOF TVNone l c]) 0)) as [_ Hr].
    { split; [done|]. cbn. rewrite length_app. cbn. lia. }
    exact Hr.
  - split; [done|]. by destruct e as [| | | | | |[]| |].
Qed.
Hint Resolve parses_parse_list parses_parse_fragment : par.

Lemma parses_fstring_nodes T parts : parses T (fstring_nodes rec parts).
Proof. induction parts as [|[s|s] parts IH]; cbn [fstring_nodes]; par_go. Qed.
Hint Resolve parses_fstring_nodes : par.

Lemma parses_parse_fstring T parts : parses T (parse_fstring rec parts).
Proof. unfold parse_fstring. par_go. Qed.

Lemma parses_object_entries T n pairs : parses T (object_entries rec budget n pairs).
Proof. revert pairs. induction n as [|n IH]; intros pairs; cbn [object_entries]; par_go. Qed.
Hint Resolve parses_parse_fstring parses_object_entries : par.

Lemma parses_parse_object_literal T : parses T (parse_object_literal rec budget).
Proof. unfold parse_object_literal. par_go. Qed.

Lemma parses_lambda_params T n params : parses T (lambda_params n params).
Proof. revert params. induction n as [|n IH]; intros params; cbn [lambda_params]; par_go. Qed.

Lemma parses_grouped T saved_pos :
  (saved_pos < length T)%nat → parses T (grouped rec saved_pos).
Proof.
  intros H. unfold grouped. apply parses_bind; [by apply parses_set_pos|]. intros _. par_go.
Qed.
Hint Resolve parses_parse_object_literal parses_lambda_params : par.

Lemma parses_parse_paren_or_lambda T : parses T (parse_paren_or_lambda rec budget).
Proof.
  unfold parse_paren_or_lambda. apply parses_get_state_bind. intros p [Ht Hp].
  pose proof (parses_grouped T (pos p) Hp) as Hg. par_go.
Qed.

Lemma parses_say_modifiers T n modifiers : parses T (say_modifiers n modifiers).
Proof. revert modifiers. induction n as [|n IH]; intros m; cbn [say_modifiers]; par_go. Qed.

Lemma parses_say_parts T n parts : parses T (say_parts rec n parts).
Proof. revert parts. induction n as [|n IH]; intros parts; cbn [say_parts]; par_go. Qed.
Hint Resolve parses_parse_paren_or_lambda parses_say_modifiers parses_say_parts : par.

Lemma parses_parse_say T : parses T (parse_say rec budget).
Proof. unfold parse_say. par_go. Qed.
Hint Resolve parses_parse_say : par.

Lemma parses_parse_primary T : parses T (parse_primary rec budget).
Proof. unfold parse_primary. par_go. Qed.
Hint Resolve parses_parse_primary : par.

Lemma parses_postfix_chain T n node : parses T (postfix_chain rec budget n node).
Proof. revert node. induction n as [|n IH]; intros node; cbn [postfix_chain]; par_go. Qed.
Hint Resolve parses_postfix_chain : par.

Lemma parses_parse_postfix T : parses T (parse_postfix rec budget).
Proof. unfold parse_postfix. par_go. Qed.
Hint Resolve parses_parse_postfix : par.

Lemma parses_parse_unary T : parses T (parse_unary rec budget).
Proof. unfold parse_unary. par_go. Qed.
Hint Resolve parses_parse_unary : par.

Lemma parses_parse_power T : parses T (parse_power rec budget).
Proof. unfold parse_power. par_go. Qed.
Hint Resolve parses_parse_power : par.

Lemma parses_binary_chain T n is_op operand lhs :
  parses T operand → parses T (binary_chain n is_op operand lhs).
Proof.
  intros H. revert lhs. induction n as [|n IH]; intros lhs; cbn [binary_chain]; par_go.
Qed.

Lemma parses_parse_mul_div T : parses T (parse_mul_div rec budget).
Proof. unfold parse_mul_div. par_go. apply parses_binary_chain. auto with par. Qed.
Hint Resolve parses_parse_mul_div : par.

Lemma parses_parse_add_sub T : parses T (parse_add_sub rec budget).
Proof. unfold parse_add_sub. par_go. apply parses_binary_chain. auto with par. Qed.
Hint Resolve parses_parse_add_sub : par.

Lemma parses_parse_comparison T : parses T (parse_comparison rec budget).
Proof. unfold parse_comparison. par_go. apply parses_binary_chain. auto with par. Qed.
Hint Resolve parses_parse_comparison : par.

Lemma parses_parse_not T : parses T (parse_not rec budget).
Proof. unfold parse_not. par_go. Qed.
Hint Resolve parses_parse_not : par.

Lemma parses_parse_and T : parses T (parse_and rec budget).
Proof. unfold parse_and. par_go. apply parses_binary_chain. auto with par. Qed.
Hint Resolve parses_parse_and : par.

Lemma parses_parse_expression T : parses T (parse_expression rec budget).
Proof.
  unfold parse_expression, parse_or. par_go. apply parses_binary_chain. auto with par.
Qed.
Hint Resolve parses_parse_expression : par.

Lemma parses_block_body T n stmts : parses T (block_body rec budget n stmts).
Proof. revert stmts. induction n as [|n IH]; intros stmts; cbn [block_body]; par_go. Qed.
Hint Resolve parses_block_body : par.

Lemma parses_parse_block T : parses T (parse_block rec budget).
Proof. unfold parse_block. par_go. Qed.
Hint Resolve parses_parse_block : par.

Lemma parses_parse_assignment T : parses T (parse_assignment rec budget).
Proof. unfold parse_assignment. par_go. Qed.

Lemma parses_op_map T key : parses T (op_map key).
Proof. unfold op_map. par_go. Qed.
Hint Resolve parses_parse_assignment parses_op_map : par.

Lemma parses_parse_compound_assignment T : parses T (parse_compound_assignment rec budget).
Proof. unfold parse_compound_assignment. par_go. Qed.

Lemma parses_parse_possible_index_assignment T :
  parses T (parse_possible_index_assignment rec budget).
Proof.
  unfold parse_possible_index_assignment. apply parses_get_state_bind. intros p [Ht Hp].
  pose proof (parses_set_pos T (pos p) Hp) as Hs. par_go.
Qed.

Lemma parses_parse_return T : parses T (parse_return rec budget).
Proof. unfold parse_return. par_go. Qed.

Lemma parses_def_params T n params : parses T (def_params n params).
Proof. revert params. induction n as [|n IH]; intros params; cbn [def_params]; par_go. Qed.
Hint Resolve parses_parse_compound_assignment parses_parse_possible_index_assignment
  parses_parse_return parses_def_params : par.

Lemma parses_parse_function_def T : parses T (parse_function_def rec budget).
Proof. unfold parse_function_def. par_go. Qed.

Lemma parses_parse_if T : parses T (parse_if rec budget).
Proof. unfold parse_if. par_go. Qed.

Lemma parses_parse_while T : parses T (parse_while rec budget).
Proof. unfold parse_while. par_go. Qed.

Lemma parses_parse_for T : parses T (parse_for rec budget).
Proof. unfold parse_for. par_go. Qed.

Lemma parses_parse_use T : parses T parse_use.
Proof. unfold parse_use. par_go. Qed.

Lemma parses_command_parts T n parts : parses T (command_parts n parts).
Proof. revert parts. induction n as [|n IH]; intros parts; cbn [command_parts]; par_go. Qed.
Hint Resolve parses_parse_function_def parses_parse_if parses_parse_while parses_parse_for
  parses_parse_use parses_command_parts : par.

Lemma parses_parse_builtin_command T : parses T (parse_builtin_command budget).
Proof. unfold parse_builtin_command. par_go. Qed.
Hint Resolve parses_parse_builtin_command : par.

Lemma parses_parse_statement T : parses T (parse_statement rec budget).
Proof. unfold parse_statement. par_go. Qed.

End ParserFacts.

Lemma descend_descends (fuel : nat) : descends (Parser.descend fuel).
Proof.
  induction fuel as [|f IH]; intros T.
  - cbn. repeat split; by apply parses_raise.
  - cbn [Parser.descend Parser.rec_expression Parser.rec_not Parser.rec_power
         Parser.rec_unary Parser.rec_statement Parser.rec_if].
    split; [by apply parses_parse_expression|].
    split; [by apply parses_parse_not|].
    split; [by apply parses_parse_power|].
    split; [by apply parses_parse_unary|].
    split; [by apply parses_parse_statement|by apply parses_parse_if].
Qed.

Lemma parses_program (rec : Parser.Rec) (budget n : nat) (stmts : list Node) T :
  descends rec → parses T (Parser.program rec budget n stmts).
Proof.
  intros Hrec. revert stmts. induction n as [|n IH]; intros stmts; cbn [Parser.program].
  - by apply parses_raise.
  - apply parses_bind; [apply parses_match_|]. intros [|]; [apply parses_ret|].
    apply parses_bind; [by apply parses_parse_statement|]. intros stmt.
    apply parses_bind; [apply parses_skip_newlines|]. intros _. apply IH.
Qed.

Lemma parses_parse_from (fuel : nat) T : parses T (Parser.parse_from fuel).
Proof.
  unfold Parser.parse_from.
  apply parses_bind; [apply parses_skip_newlines|]. intros _.
  apply parses_bind; [apply parses_program, descend_descends|]. intros stmts.
  apply parses_ret.
Qed.

(** X23.  On a token list that is not empty the parser never moves beyond
    the last token and never changes the list, however the parse ends:
    [advance] stays on the last token, and the positions to which the
    parser goes back are positions it has been at.  The same holds for the
    parsers of the interpolated fragments.  When the parse fails, it is not
    with an error or a signal of the evaluator. *)
Theorem the_parser_stays_within_the_tokens (fuel : nat) (toks : list Token) :
  toks ≠ [] →
  let end_ := (Parser.parse_from fuel (Parser.mkParser toks 0)).2 in
  Parser.tokens end_ = toks
  ∧ (Parser.pos end_ < length toks)%nat
  ∧ match Parser.parse fuel toks with
    | Raised e => syntactic e
    | Ok _ => True
    end.
Proof.
  intros Hne end_.
  assert (within toks (Parser.mkParser toks 0)) as Hw.
  { split; [done|]. destruct toks; [done|]. cbn. lia. }
  destruct (parses_parse_from fuel toks _ Hw) as [[H1 H2] H3]. by repeat split.
Qed.

Lemma the_parser_stays_within_the_tokens_witness :
  let toks := [mkToken TT_LPAREN (TVStr "(") 1 1; mkToken TT_EOF TVNone 1 2] in
  let end_ := (Parser.parse_from 5 (Parser.mkParser toks 0)).2 in
  Parser.tokens end_ = toks ∧ (Parser.pos end_ < length toks)%nat.
Proof.
  intros toks end_.
  destruct (the_parser_stays_within_the_tokens 5 toks ltac:(discriminate)) as (H1 & H2 & _).
  split; [exact H1|exact H2].
Defined.

(** ** What evaluation can do to the state, and how it can leave *)

(** A raise of the evaluator's own code and of the host operations it
    uses: none of the errors of the lexer and the parser, and a
    [RuntimeError_] only with the defaults of its constructor for the line,
    the column and the hint. *)
Definition unlocated (r : Raise) : Prop :=
  match r with
  | LexerError _ _ _ _ | ParseError _ _ _ _ => False
  | RuntimeError_ _ line column hint => line = 0 ∧ column = 0 ∧ hint = ""
  | _ => True
  end.

Definition unlocated_result {A} (r : Result A) : Prop :=
  match r with
  | Raised e => unlocated e
  | Ok _ => True
  end.

(** A raise that can leave the evaluator on a host with the files [fs]: a
    [LexerError] or a [ParseError] comes from the text of a module, so from
    a file that is there. *)
Definition leaves (fs : FileSystem) (r : Raise) : Prop :=
  match r with
  | LexerError _ _ _ _ | ParseError _ _ _ _ => ∃ path, os_path_exists fs path = true
  | _ => unlocated r
  end.

Definition leaves_result {A} (fs : FileSystem) (r : Result A) : Prop :=
  match r with
  | Raised e => leaves fs e
  | Ok _ => True
  end.

(** [st'] is a later state of [st]: every frame is still there, with the
    parent it had and with every name it had bound; no list or dict object
    is gone; identities are not handed out again; what was printed stays
    printed, and the input that remains is an end of the input there was;
    the files and the base path of the evaluator are the same. *)
Record extends (st st' : State) : Prop := mkExtends {
  ext_frames : ∀ e fr, envs st !! e = Some fr →
    ∃ fr', envs st' !! e = Some fr' ∧ parent fr' = parent fr
           ∧ ∀ x, is_Some (vars fr !! x) → is_Some (vars fr' !! x);
  ext_lists : (length (lists st) ≤ length (lists st'))%nat;
  ext_dicts : (length (dicts st) ≤ length (dicts st'))%nat;
  ext_ids : (next_id st ≤ next_id st')%nat;
  ext_output : output st `prefix_of` output st';
  ext_input : input st' `suffix_of` input st;
  ext_files : files st' = files st;
  ext_base_path : base_path st' = base_path st
}.

Definition safe_at {A} (st : State) (m : M A) : Prop :=
  extends st (m st).2 ∧ leaves_result (files st) (m st).1.

Definition safe {A} (m : M A) : Prop := ∀ st, safe_at st m.

Lemma unlocated_leaves fs r : unlocated r → leaves fs r.
Proof. by destruct r. Qed.

Lemma frames_kept (st st' : State) :
  envs st' = envs st →
  ∀ e fr, envs st !! e = Some fr →
    ∃ fr', envs st' !! e = Some fr' ∧ parent fr' = parent fr
           ∧ ∀ x, is_Some (vars fr !! x) → is_Some (vars fr' !! x).
Proof. intros E e fr H. rewrite E. exists fr. auto. Qed.

Lemma extends_refl st : extends st st.
Proof. split; try done. by apply frames_kept. Qed.

Lemma extends_trans st1 st2 st3 : extends st1 st2 → extends st2 st3 → extends st1 st3.
Proof.
  intros [F1 L1 D1 I1 O1 N1 S1 B1] [F2 L2 D2 I2 O2 N2 S2 B2]. split; try lia.
  - intros e fr H. destruct (F1 _ _ H) as (fr2 & H2 & P2 & V2).
    destruct (F2 _ _ H2) as (fr3 & H3 & P3 & V3).
    exists fr3. split; [done|]. split; [congruence|]. auto.
  - by etrans.
  - by etrans.
  - congruence.
  - congruence.
Qed.

Lemma extends_set_var e name value st : extends st (set_var e name value st).
Proof.
  split; try done. intros e' fr H. unfold set_var, with_envs. cbn.
  destruct (decide (e = e')) as [->|Hne].
  - rewrite list_lookup_alter_eq, H. cbn.
    eexists. split; [reflexivity|]. split; [done|].
    intros x Hx. cbn. apply lookup_insert_is_Some'. by right.
  - rewrite list_lookup_alter_ne by done. by exists fr.
Qed.

Lemma extends_append_frame fr st : extends st (with_envs (λ es, es ++ [fr]) st).
Proof.
  split; try done. intros e fr0 H. cbn. exists fr0.
  split; [by apply lookup_app_l_Some|done].
Qed.

Lemma safe_ret {A} (a : A) : safe (mret a).
Proof. intros st. split; [apply extends_refl|done]. Qed.

Lemma safe_at_bind {A B} (st : State) (m : M A) (k : A → M B) :
  safe_at st m → (∀ a st1, m st = (Ok a, st1) → safe_at st1 (k a)) →
  safe_at st (m ≫= k).
Proof.
  intros Hm Hk. unfold safe_at, mbind, ST_bind in *.
  destruct (m st) as [[a|r] st1]; cbn in Hm; [|done].
  specialize (Hk a st1 eq_refl). destruct Hm as [E1 _], Hk as [E2 U].
  split; [by eapply extends_trans|]. by rewrite <- (ext_files _ _ E1).
Qed.

Lemma safe_bind {A B} (m : M A) (k : A → M B) :
  safe m → (∀ a, safe (k a)) → safe (m ≫= k).
Proof. intros Hm Hk st. apply safe_at_bind; [apply Hm|]. intros a st1 _. apply Hk. Qed.

Lemma safe_raise {A} (r : Raise) : unlocated r → safe (raise (A := A) r).
Proof. intros H st. split; [apply extends_refl|by apply unlocated_leaves]. Qed.

Lemma safe_runtime_error {A} (msg : Message) : safe (runtime_error (A := A) msg).
Proof. by apply safe_raise. Qed.

Lemma safe_get_state : safe (get_state (S := State)).
Proof. intros st. split; [apply extends_refl|done]. Qed.

Lemma safe_lift {A} (r : Result A) : unlocated_result r → safe (lift r).
Proof.
  intros H st. split; [apply extends_refl|]. destruct r; [done|].
  by apply unlocated_leaves.
Qed.

Lemma safe_modify (f : State → State) : (∀ st, extends st (f st)) → safe (modify f).
Proof. intros H st. split; [apply H|done]. Qed.

Lemma safe_try_except {A} (m : M A) sel h :
  safe m → (∀ r, safe (h r)) → safe (try_except m sel h).
Proof.
  intros Hm Hh st. unfold safe_at, try_except. specialize (Hm st).
  unfold safe_at in Hm.
  destruct (m st) as [[a|r] st1]; cbn in Hm; [done|].
  destruct (sel r); try done.
  specialize (Hh r st1). destruct Hm as [E1 _], Hh as [E2 U].
  split; [by eapply extends_trans|]. by rewrite <- (ext_files _ _ E1).
Qed.

Lemma safe_Environment_new p : safe (Environment_new p).
Proof. intros st. split; [apply extends_append_frame|done]. Qed.

Lemma unlocated_get_chain depth es e name : unlocated_result (get_chain depth es e name).
Proof.
  revert e. induction depth as [|d IH]; intros e; cbn;
    repeat case_match; try done; apply IH.
Qed.

Lemma safe_Environment_get e name : safe (Environment_get e name).
Proof.
  intros st. apply (safe_lift (get_chain (length (envs st)) (envs st) e name)).
  apply unlocated_get_chain.
Qed.

Lemma safe_Environment_set e name v : safe (Environment_set e name v).
Proof. apply safe_modify. intros st. apply extends_set_var. Qed.

Lemma safe_Environment_assign e name v : safe (Environment_assign e name v).
Proof. apply safe_modify. intros st. apply extends_set_var. Qed.

Lemma safe_new_list xs : safe (new_list xs).
Proof.
  intros st. split; [|done]. split; try done; [by apply frames_kept|].
  cbn. rewrite length_app. lia.
Qed.

Lemma safe_new_dict kvs : safe (new_dict kvs).
Proof.
  intros st. split; [|done]. split; try done; [by apply frames_kept|].
  cbn. rewrite length_app. lia.
Qed.

Lemma safe_set_list l xs : safe (set_list l xs).
Proof.
  apply safe_modify. intros st. split; try done; [by apply frames_kept|].
  cbn. by rewrite length_insert.
Qed.

Lemma safe_set_dict d kvs : safe (set_dict d kvs).
Proof.
  apply safe_modify. intros st. split; try done; [by apply frames_kept|].
  cbn. by rewrite length_insert.
Qed.

Lemma safe_fresh_id : safe fresh_id.
Proof.
  intros st. split; [|done]. split; try done; [by apply frames_kept|]. cbn. lia.
Qed.

Lemma safe_print text : safe (print text).
Proof.
  intros st. split; [|done]. split; try done; [by apply frames_kept|].
  cbn. by apply prefix_app_r.
Qed.

Lemma safe_read_line : safe read_line.
Proof.
  intros st. unfold safe_at, read_line. destruct (input st) as [|line rest] eqn:E.
  - split; [apply extends_refl|done].
  - split; [|done]. split; try done; [by apply frames_kept|].
    cbn. rewrite E. by apply suffix_cons_r.
Qed.

(** *** The host primitives raise host exceptions only *)

Lemma ur_bind {A B} (r : Result A) (k : A → Result B) :
  unlocated_result r → (∀ a, unlocated_result (k a)) → unlocated_result (r ≫= k).
Proof. destruct r; cbn; auto. Qed.

Lemma ur_mapM {A B} (f : A → Result B) (l : list A) :
  (∀ x, unlocated_result (f x)) → unlocated_result (mapM f l).
Proof.
  intros H. induction l as [|x l IH]; cbn; [done|].
  apply ur_bind; [apply H|]. intros y. apply ur_bind; [apply IH|done].
Qed.

Lemma ur_float_to_int f : unlocated_result (float_to_int f).
Proof. unfold float_to_int. by repeat case_match. Qed.

Lemma ur_py_int v : unlocated_result (py_int v).
Proof. destruct v; cbn; try done. apply ur_float_to_int. Qed.

Lemma ur_py_repr n st sl sd v : unlocated_result (py_repr n st sl sd v).
Proof.
  revert sl sd v. induction n as [|n IH]; intros sl sd v; destruct v; cbn; try done;
    case_match; try done.
  - apply ur_bind; [|done]. apply ur_mapM. intros x. apply IH.
  - apply ur_bind; [|done]. apply ur_mapM. intros x.
    apply ur_bind; [apply IH|]. intros k. apply ur_bind; [apply IH|done].
Qed.

Lemma ur_py_str st v : unlocated_result (py_str st v).
Proof. destruct v; try done; apply ur_py_repr. Qed.

Lemma ur_format_value_go n st v : unlocated_result (format_value_go n st v).
Proof.
  revert v. induction n as [|n IH]; intros v; destruct v; cbn; try done;
    try apply ur_py_repr.
  - apply ur_bind; [|done]. apply ur_mapM. intros x. apply IH.
  - apply ur_bind; [|done]. apply ur_mapM. intros x.
    apply ur_bind; [apply IH|]. intros k. apply ur_bind; [apply IH|done].
Qed.

Lemma ur_format_value st v : unlocated_result (_format_value st v).
Proof. apply ur_format_value_go. Qed.

Lemma ur_key_eq a b : unlocated_result (key_eq a b).
Proof. unfold key_eq. by case_match. Qed.

Lemma ur_dict_find key kvs : unlocated_result (dict_find key kvs).
Proof.
  induction kvs as [|[k v] rest IH]; cbn; [done|].
  apply ur_bind; [apply ur_key_eq|]. by intros [].
Qed.

Lemma ur_dict_lookup key kvs : unlocated_result (dict_lookup key kvs).
Proof. unfold dict_lookup. case_match; [apply ur_dict_find|done]. Qed.

Lemma ur_dict_store key value kvs : unlocated_result (dict_store key value kvs).
Proof.
  induction kvs as [|[k v] rest IH]; cbn; [done|].
  apply ur_bind; [apply ur_key_eq|]. intros []; [done|]. by apply ur_bind.
Qed.

Lemma ur_dict_setitem key value kvs : unlocated_result (dict_setitem key value kvs).
Proof. unfold dict_setitem. case_match; [apply ur_dict_store|done]. Qed.

Lemma ur_list_eq_go eq xs ys :
  (∀ x y, unlocated_result (eq x y)) → unlocated_result (list_eq_go eq xs ys).
Proof.
  intros H. revert ys. induction xs as [|x xs IH]; intros [|y ys]; cbn; try done.
  apply ur_bind; [apply H|]. intros []; [apply IH|done].
Qed.

Lemma ur_dict_eq_go eq kvs other :
  (∀ x y, unlocated_result (eq x y)) → unlocated_result (dict_eq_go eq kvs other).
Proof.
  intros H. induction kvs as [|[k v] rest IH]; cbn; [done|].
  apply ur_bind; [apply ur_dict_find|]. intros [w|]; [|done].
  apply ur_bind; [apply H|]. by intros [].
Qed.

Lemma ur_py_eq_go n st a b : unlocated_result (py_eq_go n st a b).
Proof.
  revert a b. induction n as [|n IH]; intros a b; cbn; [done|].
  assert (∀ x y, unlocated_result
            (if identical x y then Ok true
             else if both_nan x y then Raised (Unmodelled "identity of a NaN")
             else py_eq_go n st x y)) as H.
  { intros x y. repeat case_match; try done; apply IH. }
  destruct a, b; try done; case_match; try done.
  - by apply ur_list_eq_go.
  - by apply ur_dict_eq_go.
Qed.

Lemma ur_py_eq st a b : unlocated_result (py_eq st a b).
Proof. apply ur_py_eq_go. Qed.

Lemma ur_py_sort xs : unlocated_result (py_sort xs).
Proof. unfold py_sort. by case_match. Qed.

Create HintDb safe.
#[export] Hint Resolve safe_ret safe_runtime_error safe_get_state
  safe_Environment_new safe_Environment_get safe_Environment_set
  safe_Environment_assign safe_new_list safe_new_dict safe_set_list safe_set_dict
  safe_fresh_id safe_print safe_read_line
  ur_py_int ur_py_str ur_format_value ur_dict_find ur_dict_lookup ur_dict_setitem
  ur_py_eq ur_py_sort : safe.

(** One step of a proof that a computation is [safe]: through a bind, a
    handler, a branch, or to a primitive. *)
Ltac safe_step :=
  match goal with
  | |- safe (mbind _ _) => apply safe_bind; [|intros ?]
  | |- safe (try_except _ _ _) => apply safe_try_except; [|intros ?]
  | |- safe (raise _) => apply safe_raise; done
  | |- safe (lift _) => apply safe_lift; auto with safe
  | |- safe (if ?b then _ else _) => destruct b
  | |- safe (match ?x with _ => _ end) => destruct x
  | |- safe (let '(_, _) := ?x in _) => destruct x
  | |- safe _ => solve [auto with safe]
  end.

Ltac safe_go := repeat safe_step.

Lemma safe_py_add a b : safe (py_add a b).
Proof. unfold py_add. safe_go. Qed.
Lemma safe_py_sub a b : safe (py_sub a b).
Proof. unfold py_sub. safe_go. Qed.
Lemma safe_py_mul a b : safe (py_mul a b).
Proof. unfold py_mul. safe_go. Qed.
Lemma safe_py_truediv a b : safe (py_truediv a b).
Proof. unfold py_truediv. safe_go. Qed.
Lemma safe_py_mod a b : safe (py_mod a b).
Proof. unfold py_mod. safe_go. Qed.
Lemma safe_py_pow a b : safe (py_pow a b).
Proof. unfold py_pow. safe_go. Qed.
Lemma safe_py_order o a b : safe (py_order o a b).
Proof. unfold py_order. safe_go. Qed.

#[export] Hint Resolve safe_py_add safe_py_sub safe_py_mul safe_py_truediv safe_py_mod
  safe_py_pow safe_py_order : safe.

(** What the lexer and the parser raise on the text of a module. *)
Lemma tokenize_leaves fs text :
  (∃ path, os_path_exists fs path = true) → leaves_result fs (Lexer.tokenize text).
Proof.
  intros Hfile. pose proof (tokenize_outcome text) as H.
  destruct (Lexer.tokenize text) as [toks|e]; [done|].
  by destruct e as [| | | | | |[]| |].
Qed.

Lemma parse_leaves fs fuel text toks :
  (∃ path, os_path_exists fs path = true) → Lexer.tokenize text = Ok toks →
  leaves_result fs (Parser.parse fuel toks).
Proof.
  intros Hfile Htoks. pose proof (tokenize_outcome text) as H. rewrite Htoks in H.
  destruct H as (body & l & c & -> & _).
  assert (within (body ++ [mkToken TT_EOF TVNone l c])
            (Parser.mkParser (body ++ [mkToken TT_EOF TVNone l c]) 0)) as Hw.
  { split; [done|]. cbn. rewrite length_app. cbn. lia. }
  pose proof (parses_parse_from fuel _ _ Hw) as [_ Hparse].
  unfold Parser.parse.
  destruct (Parser.parse_from fuel _) as [[ast|e] p']; [done|]. cbn in *.
  by destruct e as [| | | | | |[]| |].
Qed.

Section SafeEvaluator.

Variable ev : Node → loc → M Value.
Variable budget : nat.
Hypothesis ev_safe : ∀ node env, safe (ev node env).

Local Hint Resolve ev_safe : safe.

Lemma safe_mapM {A B} (f : A → M B) (l : list A) :
  (∀ x, safe (f x)) → safe (mapM f l).
Proof.
  intros H. induction l as [|x l IH]; cbn; [apply safe_ret|].
  apply safe_bind; [apply H|]. intros y. apply safe_bind; [apply IH|].
  intros k. apply safe_ret.
Qed.

Lemma safe_eval_args args env : safe (eval_args ev args env).
Proof. apply safe_mapM. intros x. apply ev_safe. Qed.
Local Hint Resolve safe_eval_args : safe.

Lemma safe_eval_NumberNode value : safe (eval_NumberNode value).
Proof. unfold eval_NumberNode. safe_go. Qed.

Lemma safe_eval_ListNode elements env : safe (eval_ListNode ev elements env).
Proof. unfold eval_ListNode. safe_go. Qed.

Lemma safe_object_pairs obj pairs env : safe (object_pairs ev obj pairs env).
Proof. induction pairs as [|[k v] rest IH]; cbn; safe_go. Qed.
Local Hint Resolve safe_object_pairs : safe.

Lemma safe_eval_ObjectLiteralNode pairs env : safe (eval_ObjectLiteralNode ev pairs env).
Proof. unfold eval_ObjectLiteralNode. safe_go. Qed.

Lemma safe_fstring_parts parts env : safe (fstring_parts ev parts env).
Proof. induction parts as [|[s|n] rest IH]; cbn; safe_go. Qed.
Local Hint Resolve safe_fstring_parts : safe.

Lemma safe_eval_FStringNode parts env : safe (eval_FStringNode ev parts env).
Proof. unfold eval_FStringNode. safe_go. Qed.

Lemma safe_eval_IndexGetNode target index env : safe (eval_IndexGetNode ev target index env).
Proof. unfold eval_IndexGetNode. safe_go. Qed.

Lemma safe_eval_IndexSetNode target index value env :
  safe (eval_IndexSetNode ev target index value env).
Proof. unfold eval_IndexSetNode. safe_go. Qed.

Lemma safe_eval_AssignNode name value env : safe (eval_AssignNode ev name value env).
Proof. unfold eval_AssignNode. safe_go. Qed.

Lemma safe_str_concat a b : safe (str_concat a b).
Proof. unfold str_concat. safe_go. Qed.
Local Hint Resolve safe_str_concat : safe.

Lemma safe_eval_CompoundAssignNode name op value env :
  safe (eval_CompoundAssignNode ev name op value env).
Proof. unfold eval_CompoundAssignNode. safe_go. Qed.

Lemma safe_py_eq_op negate a b : safe (py_eq_op negate a b).
Proof. unfold py_eq_op. safe_go. Qed.
Local Hint Resolve safe_py_eq_op : safe.

Lemma safe_eval_BinOpNode lhs op rhs env : safe (eval_BinOpNode ev lhs op rhs env).
Proof. unfold eval_BinOpNode. safe_go. Qed.

Lemma safe_eval_UnaryOpNode op operand env : safe (eval_UnaryOpNode ev op operand env).
Proof. unfold eval_UnaryOpNode. safe_go. Qed.

Lemma safe_eval_SayNode expr modifiers env : safe (eval_SayNode ev expr modifiers env).
Proof. unfold eval_SayNode. safe_go. Qed.

Lemma safe_eval_TakeNode prompt env : safe (eval_TakeNode ev prompt env).
Proof. unfold eval_TakeNode. safe_go. Qed.

Lemma safe_bind_params call_env params args : safe (bind_params call_env params args).
Proof.
  revert args. induction params as [|p ps IH]; intros [|a args]; cbn; safe_go.
Qed.
Local Hint Resolve safe_bind_params : safe.

Lemma safe_call_function fn args : safe (_call_function ev fn args).
Proof. unfold _call_function. safe_go. Qed.
Local Hint Resolve safe_call_function : safe.

Lemma safe_filter_loop n fn obj i result : safe (filter_loop ev n fn obj i result).
Proof. revert i. induction n as [|n IH]; intros i; cbn; safe_go. Qed.

Lemma safe_map_loop n fn obj i acc : safe (map_loop ev n fn obj i acc).
Proof. revert i acc. induction n as [|n IH]; intros i acc; cbn; safe_go. Qed.

Lemma safe_extremum o best rest : safe (extremum o best rest).
Proof. revert best. induction rest as [|x rest IH]; intros best; cbn; safe_go. Qed.
Local Hint Resolve safe_filter_loop safe_map_loop safe_extremum : safe.

Lemma safe_module_method obj name mod_env method args :
  safe (module_method ev obj name mod_env method args).
Proof. unfold module_method. safe_go. Qed.

Lemma safe_dict_method d method args : safe (dict_method d method args).
Proof. unfold dict_method. safe_go. Qed.

Lemma safe_conversion obj method : safe (conversion obj method).
Proof. unfold conversion. safe_go. Qed.

Lemma safe_sum xs (acc : M Value) :
  safe acc → safe (foldl (λ acc x, a ← acc; py_add a x) acc xs).
Proof.
  revert acc. induction xs as [|x xs IH]; intros acc H; cbn; [done|].
  apply IH. safe_go.
Qed.

Lemma safe_list_method obj l method args : safe (list_method ev budget obj l method args).
Proof.
  unfold list_method. safe_go. apply safe_sum. apply safe_ret.
Qed.

Lemma safe_string_method s method args : safe (string_method s method args).
Proof. unfold string_method. safe_go. Qed.
Local Hint Resolve safe_module_method safe_dict_method safe_conversion safe_list_method
  safe_string_method : safe.

Lemma safe_call_method obj method args : safe (call_method ev budget obj method args).
Proof. unfold call_method. safe_go. Qed.
Local Hint Resolve safe_call_method : safe.

Lemma safe_eval_MethodCallNode obj method args env :
  safe (eval_MethodCallNode ev budget obj method args env).
Proof. unfold eval_MethodCallNode. safe_go. Qed.

Lemma safe_eval_IfNode c t e env : safe (eval_IfNode ev c t e env).
Proof. unfold eval_IfNode. safe_go. Qed.

Lemma safe_run_body body env : safe (run_body ev body env).
Proof.
  intros st. unfold safe_at, run_body. pose proof (ev_safe body env st) as H.
  unfold safe_at in H.
  destruct (ev body env st) as [[v|r] st1]; cbn in *; [done|].
  destruct H as [E U]. by destruct r.
Qed.
Local Hint Resolve safe_run_body : safe.

Lemma safe_while_loop n condition body env : safe (while_loop ev n condition body env).
Proof. induction n as [|n IH]; cbn; safe_go. Qed.

Lemma safe_for_items var body env items : safe (for_items ev var body env items).
Proof. induction items as [|x items IH]; cbn; safe_go. Qed.

Lemma safe_for_list n var body env l i : safe (for_list ev n var body env l i).
Proof. revert i. induction n as [|n IH]; intros i; cbn; safe_go. Qed.

Lemma safe_for_keys var body env d size keys : safe (for_keys ev var body env d size keys).
Proof. induction keys as [|k keys IH]; cbn; safe_go. Qed.
Local Hint Resolve safe_while_loop safe_for_items safe_for_list safe_for_keys : safe.

Lemma safe_eval_ForRangeNode var s e k r body env :
  safe (eval_ForRangeNode ev var s e k r body env).
Proof. unfold eval_ForRangeNode. safe_go. Qed.

Lemma safe_eval_ForEachNode var iterable body env :
  safe (eval_ForEachNode ev budget var iterable body env).
Proof. unfold eval_ForEachNode. safe_go. Qed.

Lemma safe_eval_LambdaNode params body env : safe (eval_LambdaNode params body env).
Proof. unfold eval_LambdaNode. safe_go. Qed.

Lemma safe_eval_FunctionDefNode name params body rt env :
  safe (eval_FunctionDefNode name params body rt env).
Proof. unfold eval_FunctionDefNode. safe_go. Qed.

Lemma safe_print_all (f : string → string) topics (acc : M unit) :
  safe acc → safe (foldl (λ acc topic, _ ← acc; print (f topic)) acc topics).
Proof.
  revert acc. induction topics as [|x xs IH]; intros acc H; cbn; [done|].
  apply IH. safe_go.
Qed.

Lemma safe_help_all : safe help_all.
Proof.
  unfold help_all. safe_go.
  apply (safe_print_all (λ topic, "    - " +:+ topic +:+ nl)). apply safe_ret.
Qed.

Lemma safe_help_topic topic : safe (help_topic topic).
Proof. unfold help_topic. safe_go. Qed.
Local Hint Resolve safe_help_all safe_help_topic : safe.

Lemma safe_eval_FunctionCallNode name args env :
  safe (eval_FunctionCallNode ev name args env).
Proof. unfold eval_FunctionCallNode. safe_go. Qed.

Lemma safe_eval_ReturnNode value env : safe (eval_ReturnNode ev value env).
Proof. unfold eval_ReturnNode. safe_go. Qed.

Lemma safe_set_natives mod_env names : safe (set_natives mod_env names).
Proof. induction names as [|x names IH]; cbn; safe_go. Qed.
Local Hint Resolve safe_set_natives : safe.

Lemma safe_bind_module name mod_env env : safe (bind_module name mod_env env).
Proof. unfold bind_module. safe_go. Qed.
Local Hint Resolve safe_bind_module : safe.

Lemma safe_Evaluator_new path : safe (Evaluator_new path).
Proof. unfold Evaluator_new. safe_go. Qed.
Local Hint Resolve safe_Evaluator_new : safe.

Lemma safe_in_evaluator {A} path (m : M A) : safe m → safe (in_evaluator path m).
Proof.
  intros Hm st. unfold safe_at, in_evaluator.
  destruct (Hm (with_base_path path st)) as [[F L D I O N S B] U].
  destruct (m (with_base_path path st)) as [r st']. cbn in *.
  split; [|exact U]. by split.
Qed.

Lemma safe_at_lift {A} st (r : Result A) :
  leaves_result (files st) r → safe_at st (lift r).
Proof. intros H. split; [apply extends_refl|exact H]. Qed.

Lemma safe_read_source module_path : safe (read_source module_path).
Proof.
  intros st. unfold safe_at, read_source.
  destruct (open_read (files st) module_path); (split; [apply extends_refl|done]).
Qed.

Lemma read_source_state module_path st source st1 :
  read_source module_path st = (Ok source, st1) → st1 = st.
Proof. unfold read_source. destruct (open_read _ _); congruence. Qed.

Lemma safe_eval_UseNode name env : safe (eval_UseNode ev budget name env).
Proof.
  unfold eval_UseNode. destruct (String.eqb name "math"); [safe_go|].
  destruct (String.eqb name "random"); [safe_go|].
  intros st. apply safe_at_bind; [apply safe_get_state|]. intros ? ? [= <- <-].
  cbv zeta.
  match goal with |- safe_at _ (if negb (os_path_exists _ ?p) then _ else _) =>
    generalize p; intros module_path end.
  destruct (os_path_exists (files st) module_path) eqn:Hexists; cbn [negb];
    [|apply safe_runtime_error].
  assert (∃ path, os_path_exists (files st) path = true) as Hfile by by exists module_path.
  apply safe_at_bind; [apply safe_read_source|].
  intros source ? ->%read_source_state.
  apply safe_at_bind; [apply safe_at_lift, tokenize_leaves, Hfile|].
  intros toks ? [= Htoks <-].
  apply safe_at_bind; [apply safe_at_lift; by eapply parse_leaves|].
  intros ast ? [= _ <-].
  generalize (os_path_dirname (files st) module_path). intros dir.
  clear Hexists Hfile. revert st.
  change (safe (mod_env ← Environment_new None;
                mod_evaluator ← Evaluator_new dir;
                _ ← in_evaluator mod_evaluator.2 (ev ast mod_env);
                bind_module name mod_env env)).
  apply safe_bind; [apply safe_Environment_new|]. intros mod_env.
  apply safe_bind; [apply safe_Evaluator_new|]. intros mod_evaluator.
  apply safe_bind; [apply safe_in_evaluator, ev_safe|]. intros _.
  apply safe_bind_module.
Qed.

Lemma safe_eval_BuiltinCommandNode command : safe (eval_BuiltinCommandNode command).
Proof. unfold eval_BuiltinCommandNode. safe_go. Qed.

Lemma safe_block_statements statements env result :
  safe (block_statements ev statements env result).
Proof.
  revert result. induction statements as [|s rest IH]; intros result; cbn; safe_go.
Qed.

Lemma safe_eval_BlockNode statements env : safe (eval_BlockNode ev statements env).
Proof. apply safe_block_statements. Qed.

End SafeEvaluator.

Lemma safe_eval fuel : ∀ node env, safe (eval fuel node env).
Proof.
  induction fuel as [|f IH]; intros node env; cbn [eval]; [by apply safe_raise|].
  destruct node.
  - apply safe_eval_NumberNode.
  - apply safe_ret.
  - apply safe_ret.
  - apply safe_ret.
  - apply safe_Environment_get.
  - by apply safe_eval_AssignNode.
  - by apply safe_eval_BinOpNode.
  - by apply safe_eval_UnaryOpNode.
  - by apply safe_eval_SayNode.
  - by apply safe_eval_TakeNode.
  - by apply safe_eval_MethodCallNode.
  - by apply safe_eval_IfNode.
  - by apply safe_while_loop.
  - by apply safe_eval_ForRangeNode.
  - by apply safe_eval_ForEachNode.
  - apply safe_eval_FunctionDefNode.
  - by apply safe_eval_FunctionCallNode.
  - by apply safe_eval_ReturnNode.
  - by apply safe_eval_BlockNode.
  - apply safe_eval_BuiltinCommandNode.
  - by apply safe_eval_ListNode.
  - by apply safe_eval_IndexGetNode.
  - by apply safe_eval_IndexSetNode.
  - by apply safe_eval_UseNode.
  - apply safe_eval_LambdaNode.
  - by apply safe_raise.
  - by apply safe_raise.
  - by apply safe_eval_FStringNode.
  - by apply safe_eval_CompoundAssignNode.
  - by apply safe_eval_ObjectLiteralNode.
Qed.

(** A host with one file, and the evaluator of a main program in its
    directory [/elang]. *)
Definition one_file (path text : string) : FileSystem :=
  mkFileSystem "/elang"
    (λ path paths, foldl (λ a b, a +:+ "/" +:+ b) path paths)
    (λ _, "/elang") (String.eqb path)
    (λ p, if String.eqb path p then inr text else inl OSError).

Definition fresh_with (path text : string) : State :=
  Evaluator_init (one_file path text) "/elang" [].

(** X1.  Whatever the program, a [RuntimeError_] that leaves the evaluator
    carries line 0, column 0 and no hint: no [raise RuntimeError_] of
    evaluator.py passes a position.  A [LexerError] or a [ParseError] leaves
    the evaluator only from [eval_UseNode], which lexes and parses the text
    of a module file: never on a host where no file exists. *)
Theorem runtime_errors_of_the_evaluator_carry_no_position
    (fuel : nat) (node : Node) (env : loc) (st st' : State) (r : Raise) :
  eval fuel node env st = (Raised r, st') →
  match r with
  | LexerError _ _ _ _ | ParseError _ _ _ _ => ∃ path, os_path_exists (files st) path = true
  | RuntimeError_ _ line column hint => line = 0 ∧ column = 0 ∧ hint = ""
  | _ => True
  end.
Proof.
  intros H. pose proof (safe_eval fuel node env st) as [_ U].
  rewrite H in U. cbn in U. by destruct r.
Qed.

Lemma runtime_errors_of_the_evaluator_carry_no_position_witness :
  eval 3 (IndexGetNode (ListNode []) (num 0)) global_env fresh
  = (Raised (RuntimeError_ [Lit "Index error: "; ExcText IndexError] 0 0 ""),
     with_lists (λ _, [[]]) fresh)
  ∧ (0 = 0 ∧ 0 = 0 ∧ "" = "")
  ∧ ∃ path, os_path_exists (one_file "/elang/m.elang" ";") path = true.
Proof.
  split; [reflexivity|]. split.
  - exact (runtime_errors_of_the_evaluator_carry_no_position 3
             (IndexGetNode (ListNode []) (num 0)) global_env fresh _ _ eq_refl).
  - exact (runtime_errors_of_the_evaluator_carry_no_position 3 (UseNode "m") global_env
             (fresh_with "/elang/m.elang" ";") (fresh_with "/elang/m.elang" ";")
             (LexerError [Lit "Unknown character ';'"] 1 1
                "Remove the character or check for a typo.") eq_refl).
Defined.

(** X2.  Whatever the program and however it ends, evaluation only extends
    the state: every frame stays, with its parent and with every name it
    had bound; no list or map object disappears; what was printed stays
    printed, and input is only consumed. *)
Theorem evaluation_only_extends_the_state
    (fuel : nat) (node : Node) (env : loc) (st : State) :
  extends st (eval fuel node env st).2.
Proof. apply safe_eval. Qed.

(** ** Environment.get *)

Lemma get_chain_own depth es e fr name v :
  es !! e = Some fr → vars fr !! name = Some v → get_chain depth es e name = Ok v.
Proof. intros Hfr Hv. destruct depth; cbn; by rewrite Hfr, Hv. Qed.



(** ** Assignment *)

Lemma own_var_set_var_ne (st : State) (e e' : loc) (x y : string) (v : Value) :
  e ≠ e' ∨ x ≠ y → own_var (set_var e x v st) e' y = own_var st e' y.
Proof.
  intros H. unfold own_var, set_var, with_envs. cbn [envs].
  destruct (decide (e = e')) as [->|Hne].
  - rewrite list_lookup_alter_eq. destruct (envs st !! e') as [fr|]; [|done]. cbn.
    destruct H as [H|H]; [done|]. by rewrite lookup_insert_ne.
  - by rewrite list_lookup_alter_ne.
Qed.

(** X4.  [name = value] binds the name in the frame in which the statement
    runs and nowhere else: no other frame and no other name changes, so an
    assignment in a function body never rebinds a variable of an enclosing
    frame; it yields the assigned value. *)
Theorem assignment_writes_the_current_frame_only
    (f : nat) (name : string) (value_node : Node) (env : loc) (st st1 : State) (v : Value)
    (Hvalue : eval f value_node env st = (Ok v, st1))
    (Hframe : is_Some (envs st1 !! env)) :
  let st' := set_var env name v st1 in
  eval (S f) (AssignNode name value_node) env st = (Ok v, st')
  ∧ own_var st' env name = Some v
  ∧ (∀ e x, e ≠ env ∨ x ≠ name → own_var st' e x = own_var st1 e x)
  ∧ (∀ e, parent <$> envs st' !! e = parent <$> envs st1 !! e)
  ∧ lists st' = lists st1 ∧ dicts st' = dicts st1 ∧ output st' = output st1.
Proof.
  intros st'. split; [|split; [|split; [|split]]].
  - cbn [eval]. unfold eval_AssignNode.
    etrans; [apply bind_run_Ok; exact Hvalue|]. reflexivity.
  - by apply own_var_set_var_eq.
  - intros e x H. apply own_var_set_var_ne. destruct H; auto.
  - intros e. apply parent_set_var.
  - done.
Qed.

Lemma assignment_writes_the_current_frame_only_witness :
  eval 2 (AssignNode "x" (num 1)) global_env fresh
  = (Ok (VInt 1), set_var global_env "x" (VInt 1) fresh).
Proof.
  exact (proj1 (assignment_writes_the_current_frame_only 1 "x" (num 1) global_env
                  fresh fresh (VInt 1) eq_refl (mk_is_Some _ _ eq_refl))).
Defined.

(** The integer operators of a compound assignment. *)
Definition compound (op : string) (x y : Z) : option Z :=
  if String.eqb op "+" then Some (x + y)
  else if String.eqb op "-" then Some (x - y)
  else if String.eqb op "*" then Some (x * y)
  else None.

(** X5.  [name += value] (and [-=], [*=]) on integers reads the variable
    through the chain of frames, before the right-hand side is evaluated,
    and binds the result in the frame in which the statement runs: applied
    to a variable of an enclosing frame it creates a variable of the same
    name in the current frame and leaves the outer one as it was. *)
Theorem compound_assignment_reads_the_chain_and_writes_the_frame
    (f : nat) (name op : string) (value_node : Node) (env : loc) (st st1 : State)
    (x y z : Z)
    (Hcurrent : Environment_get env name st = (Ok (VInt x), st))
    (Hvalue : eval f value_node env st = (Ok (VInt y), st1))
    (Hop : compound op x y = Some z) :
  let st' := set_var env name (VInt z) st1 in
  eval (S f) (CompoundAssignNode name op value_node) env st = (Ok (VInt z), st')
  ∧ (∀ e n, e ≠ env ∨ n ≠ name → own_var st' e n = own_var st1 e n).
Proof.
  intros st'. split.
  - cbn [eval]. unfold eval_CompoundAssignNode.
    etrans; [apply bind_run_Ok; exact Hcurrent|].
    etrans; [apply bind_run_Ok; exact Hvalue|].
    unfold compound in Hop.
    destruct (String.eqb op "+") eqn:E1.
    { injection Hop as <-. reflexivity. }
    destruct (String.eqb op "-") eqn:E2.
    { injection Hop as <-. reflexivity. }
    destruct (String.eqb op "*") eqn:E3; [|discriminate].
    injection Hop as <-. reflexivity.
  - intros e n H. apply own_var_set_var_ne. destruct H; auto.
Qed.

Lemma compound_assignment_reads_the_chain_and_writes_the_frame_witness :
  let st := call_state global_env [] [] (set_var global_env "x" (VInt 1) fresh) in
  let st' := set_var 1%nat "x" (VInt 3) st in
  eval 2 (CompoundAssignNode "x" "+" (num 2)) 1%nat st = (Ok (VInt 3), st')
  ∧ own_var st' global_env "x" = Some (VInt 1)
  ∧ own_var st' 1%nat "x" = Some (VInt 3).
Proof.
  intros st st'.
  destruct (compound_assignment_reads_the_chain_and_writes_the_frame
              1 "x" "+" (num 2) 1%nat st st 1 2 3 eq_refl eq_refl eq_refl) as [H1 H2].
  split; [exact H1|]. split; reflexivity.
Defined.

(** ** Indexing a list *)

(** The element that index [i] selects in a list of [n] elements: from the
    front for [0 ≤ i], from the back for [i < 0]. *)
Definition position (n i : Z) : nat := Z.to_nat (if i <? 0 then n + i else i).

Lemma py_index_in_range (len : nat) (i : Z) :
  - Z.of_nat len ≤ i < Z.of_nat len →
  py_index len i = Some (position (Z.of_nat len) i) ∧ (position (Z.of_nat len) i < len)%nat.
Proof.
  intros H. unfold py_index, position. destruct (i <? 0) eqn:E.
  - apply Z.ltb_lt in E. rewrite (Z.add_comm i).
    destruct (0 <=? Z.of_nat len + i) eqn:E1; [|lia].
    destruct (Z.of_nat len + i <? Z.of_nat len) eqn:E2; [|lia]. split; [done|lia].
  - apply Z.ltb_ge in E.
    destruct (0 <=? i) eqn:E1; [|lia].
    destruct (i <? Z.of_nat len) eqn:E2; [|lia]. split; [done|lia].
Qed.

Lemma py_index_out_of_range (len : nat) (i : Z) :
  ¬ (- Z.of_nat len ≤ i < Z.of_nat len) → py_index len i = None.
Proof.
  intros H. unfold py_index. destruct (i <? 0) eqn:E.
  - apply Z.ltb_lt in E.
    destruct (0 <=? i + Z.of_nat len) eqn:E1; [|done].
    destruct (i + Z.of_nat len <? Z.of_nat len) eqn:E2; [|done]. lia.
  - apply Z.ltb_ge in E.
    destruct (0 <=? i) eqn:E1; [|done].
    destruct (i <? Z.of_nat len) eqn:E2; [|done]. lia.
Qed.

(** X6.  [xs[i]] on a list of [n] elements: an index from [-n] to [n - 1]
    selects an element, the negative ones counting from the end; any other
    index is the runtime error [Index error], and leaves the state as the
    evaluation of the two operands left it. *)
Theorem list_index_counts_from_either_end
    (f : nat) (target index : Node) (env : loc) (st st1 st2 : State) (l : loc) (i : Z)
    (Htarget : eval f target env st = (Ok (VList l), st1))
    (Hindex : eval f index env st1 = (Ok (VInt i), st2)) :
  let xs := list_get st2 l in
  let n := Z.of_nat (length xs) in
  (- n ≤ i < n →
     ∃ v, xs !! position n i = Some v
          ∧ eval (S f) (IndexGetNode target index) env st = (Ok v, st2))
  ∧ (¬ (- n ≤ i < n) →
     eval (S f) (IndexGetNode target index) env st
     = (Raised (RuntimeError_ [Lit "Index error: "; ExcText IndexError] 0 0 ""), st2)).
Proof.
  intros xs n.
  assert (eval (S f) (IndexGetNode target index) env st
          = match py_index (length xs) i ≫= (xs !!.) with
            | Some v => (Ok v, st2)
            | None => (Raised (RuntimeError_ [Lit "Index error: "; ExcText IndexError]
                                 0 0 ""), st2)
            end) as ->.
  { cbn [eval]. unfold eval_IndexGetNode.
    etrans; [apply bind_run_Ok; exact Htarget|].
    etrans; [apply bind_run_Ok; exact Hindex|].
    unfold try_except, mbind, ST_bind, get_state, lift. cbn. fold xs.
    by destruct (option_bind _ _ _ (py_index (length xs) i)). }
  split.
  - intros H. destruct (py_index_in_range _ _ H) as [E Hlt].
    destruct (lookup_lt_is_Some_2 xs _ Hlt) as [v Hv]. exists v.
    split; [exact Hv|]. rewrite E. unfold mbind, option_bind. by rewrite Hv.
  - intros H. by rewrite (py_index_out_of_range _ _ H).
Qed.

Lemma list_index_counts_from_either_end_witness :
  let st := (new_list [VInt 10; VInt 20; VInt 30] fresh).2 in
  let st' := set_var global_env "l" (VList 0) st in
  eval 2 (IndexGetNode (IdentifierNode "l") (num (-1))) global_env st'
  = (Ok (VInt 30), st').
Proof.
  intros st st'.
  destruct (list_index_counts_from_either_end 1 (IdentifierNode "l") (num (-1))
              global_env st' st' st' 0%nat (-1) eq_refl eq_refl) as [H _].
  destruct (H ltac:(vm_compute; split; [discriminate|reflexivity])) as (v & Hv & He).
  vm_compute in Hv. injection Hv as <-. exact He.
Defined.

(** X7.  [xs[i] = v] on a list of [n] elements, for an index from [-n] to
    [n - 1]: the statement yields [v], the list keeps its length and holds
    [v] at the selected position, which a following [xs[i]] reads back; no
    other list and no frame changes.  Any other index is the runtime error
    [Index assignment error], and nothing is written: a list does not grow
    by assignment. *)
Theorem index_assignment_writes_one_position
    (f : nat) (target index value : Node) (env : loc) (st st1 st2 st3 : State)
    (l : loc) (i : Z) (v : Value)
    (Htarget : eval f target env st = (Ok (VList l), st1))
    (Hindex : eval f index env st1 = (Ok (VInt i), st2))
    (Hvalue : eval f value env st2 = (Ok v, st3)) :
  let xs := list_get st3 l in
  let n := Z.of_nat (length xs) in
  (- n ≤ i < n →
     ∃ st', eval (S f) (IndexSetNode target index value) env st = (Ok v, st')
            ∧ list_get st' l = <[position n i := v]> xs
            ∧ list_get st' l !! position n i = Some v
            ∧ length (list_get st' l) = length xs
            ∧ (∀ l', l' ≠ l → list_get st' l' = list_get st3 l')
            ∧ envs st' = envs st3 ∧ dicts st' = dicts st3)
  ∧ (¬ (- n ≤ i < n) →
     eval (S f) (IndexSetNode target index value) env st
     = (Raised (RuntimeError_ [Lit "Index assignment error: "; ExcText IndexError] 0 0 ""),
        st3)).
Proof.
  intros xs n.
  assert (eval (S f) (IndexSetNode target index value) env st
          = match py_index (length xs) i with
            | Some j => (Ok v, with_lists (λ ls, <[l := <[j := v]> xs]> ls) st3)
            | None => (Raised (RuntimeError_ [Lit "Index assignment error: ";
                                              ExcText IndexError] 0 0 ""), st3)
            end) as ->.
  { cbn [eval]. unfold eval_IndexSetNode.
    etrans; [apply bind_run_Ok; exact Htarget|].
    etrans; [apply bind_run_Ok; exact Hindex|].
    etrans; [apply bind_run_Ok; exact Hvalue|].
    unfold try_except, mbind, ST_bind, get_state, lift. cbn. fold xs.
    by destruct (py_index (length xs) i). }
  split.
  - intros H. destruct (py_index_in_range _ _ H) as [-> Hlt]. fold n in Hlt |- *.
    eexists. split; [reflexivity|].
    assert (l < length (lists st3))%nat as Hl.
    { destruct (lists st3 !! l) as [ys|] eqn:E; [by eapply lookup_lt_Some|].
      unfold xs, list_get in Hlt. rewrite E in Hlt. cbn in Hlt. lia. }
    assert (list_get (with_lists (λ ls, <[l := <[position n i := v]> xs]> ls) st3) l
            = <[position n i := v]> xs) as Hget.
    { unfold list_get, with_lists. cbn [lists].
      by rewrite list_lookup_insert_eq. }
    rewrite Hget. split; [done|]. split; [by apply list_lookup_insert_eq|].
    split; [apply length_insert|]. split; [|done].
    intros l' Hne. unfold list_get, with_lists. cbn [lists].
    by rewrite list_lookup_insert_ne.
  - intros H. by rewrite (py_index_out_of_range _ _ H).
Qed.

Lemma index_assignment_writes_one_position_witness :
  let st := (new_list [VInt 10; VInt 20; VInt 30] fresh).2 in
  let st0 := set_var global_env "l" (VList 0) st in
  ∃ st', eval 2 (IndexSetNode (IdentifierNode "l") (num (-1)) (num 7)) global_env st0
         = (Ok (VInt 7), st')
         ∧ list_get st' 0 = [VInt 10; VInt 20; VInt 7].
Proof.
  intros st st0.
  destruct (index_assignment_writes_one_position 1 (IdentifierNode "l") (num (-1)) (num 7)
              global_env st0 st0 st0 st0 0%nat (-1) (VInt 7) eq_refl eq_refl eq_refl)
    as [H _].
  destruct (H ltac:(vm_compute; split; [discriminate|reflexivity])) as (st' & He & Hl & _).
  exists st'. split; [exact He|]. rewrite Hl. reflexivity.
Defined.

(** ** Maps *)

(** The keys a program writes: [none], booleans, integers and strings. *)
Definition simple_key (v : Value) : bool :=
  match v with
  | VNone | VBool _ | VInt _ | VStr _ => true
  | _ => false
  end.

(** What a simple key is compared by: a boolean is the integer 1 or 0. *)
Definition key_class (v : Value) : option (Z + string) :=
  match v with
  | VStr s => Some (inr s)
  | _ => inl <$> as_int v
  end.

Lemma atom_eq_simple (a b : Value) :
  simple_key a → simple_key b → atom_eq a b = bool_decide (key_class a = key_class b).
Proof.
  destruct a, b; cbn; try done; intros _ _.
  all: try match goal with
       | |- (?x =? ?y) = _ =>
         destruct (Z.eqb_spec x y) as [->|Hne];
         symmetry; [by apply bool_decide_eq_true|];
         apply bool_decide_eq_false; intros [= H]; done
       end.
  destruct (String.eqb_spec s s0) as [->|Hne];
    symmetry; [by apply bool_decide_eq_true|].
  apply bool_decide_eq_false. intros [= H]. done.
Qed.

Definition simple_keys (kvs : list (Value * Value)) : Prop :=
  Forall (λ kv, simple_key kv.1) kvs.

Lemma key_eq_simple (a b : Value) :
  simple_key a → simple_key b →
  key_eq a b = Ok (bool_decide (key_class a = key_class b)).
Proof.
  intros Ha Hb. unfold key_eq. rewrite <- (atom_eq_simple a b Ha Hb).
  by destruct a, b.
Qed.

Lemma dict_store_simple (key v : Value) (kvs : list (Value * Value)) :
  simple_key key → simple_keys kvs →
  ∃ kvs', dict_store key v kvs = Ok kvs' ∧ simple_keys kvs'
    ∧ (∀ k', simple_key k' →
         dict_find k' kvs'
         = if bool_decide (key_class key = key_class k') then Ok (Some v)
           else dict_find k' kvs)
    ∧ map fst kvs'
      = match dict_find key kvs with
        | Ok (Some _) => map fst kvs
        | _ => map fst kvs ++ [key]
        end.
Proof.
  intros Hkey. induction kvs as [|[k v0] rest IH]; intros Hkvs.
  - exists [(key, v)]. split; [done|]. split; [by constructor|]. split; [|done].
    intros k' Hk'. cbn. rewrite (key_eq_simple _ _ Hkey Hk'). cbn. by case_bool_decide.
  - inversion Hkvs as [|? ? Hk Hrest]; subst. cbn in Hk.
    cbn [dict_store dict_find]. rewrite (key_eq_simple _ _ Hk Hkey). cbn.
    case_bool_decide as E.
    + exists ((k, v) :: rest). split; [done|]. split; [by constructor|]. split; [|done].
      intros k' Hk'. cbn. rewrite (key_eq_simple _ _ Hk Hk'). cbn.
      rewrite <- E. by case_bool_decide.
    + destruct (IH Hrest) as (rest' & -> & Hs & Hf & Hm).
      exists ((k, v0) :: rest'). split; [done|]. split; [by constructor|]. split.
      * intros k' Hk'. cbn. rewrite (key_eq_simple _ _ Hk Hk'). cbn.
        rewrite (Hf k' Hk'). repeat case_bool_decide; try done. congruence.
      * cbn. rewrite Hm. by destruct (dict_find key rest) as [[?|]|].
Qed.

(** X8.  [m[key] = v] on a map whose keys are [none], booleans, integers or
    strings: the statement yields [v]; afterwards the map gives [v] for
    [key], and for every key that compares equal to it, and gives for any
    other key what it gave before; a key that was present keeps its place
    in the order of the keys, a new key goes to the end.  No list and no
    frame changes. *)
Theorem map_assignment_writes_one_key
    (f : nat) (target index value : Node) (env : loc) (st st1 st2 st3 : State)
    (d : loc) (key v : Value)
    (Htarget : eval f target env st = (Ok (VDict d), st1))
    (Hindex : eval f index env st1 = (Ok key, st2))
    (Hvalue : eval f value env st2 = (Ok v, st3))
    (Hd : is_Some (dicts st3 !! d))
    (Hkey : simple_key key)
    (Hkeys : simple_keys (dict_get st3 d)) :
  ∃ st', eval (S f) (IndexSetNode target index value) env st = (Ok v, st')
    ∧ (∀ k', simple_key k' →
         dict_lookup k' (dict_get st' d)
         = if bool_decide (key_class key = key_class k') then Ok (Some v)
           else dict_lookup k' (dict_get st3 d))
    ∧ map fst (dict_get st' d)
      = match dict_lookup key (dict_get st3 d) with
        | Ok (Some _) => map fst (dict_get st3 d)
        | _ => map fst (dict_get st3 d) ++ [key]
        end
    ∧ simple_keys (dict_get st' d)
    ∧ (∀ d', d' ≠ d → dict_get st' d' = dict_get st3 d')
    ∧ envs st' = envs st3 ∧ lists st' = lists st3.
Proof.
  destruct (dict_store_simple key v (dict_get st3 d) Hkey Hkeys)
    as (kvs' & Hstore & Hs & Hf & Hm).
  assert (hashable key = true) as Hh by by destruct key.
  exists (with_dicts (λ ds, <[d := kvs']> ds) st3).
  assert (dict_get (with_dicts (λ ds, <[d := kvs']> ds) st3) d = kvs') as Hget.
  { unfold dict_get, with_dicts. cbn [dicts]. rewrite list_lookup_insert_eq; [done|].
    destruct Hd as [x Hx]. by eapply lookup_lt_Some. }
  rewrite Hget. split; [|split; [|split; [|split; [|split; [|split; reflexivity]]]]].
  - cbn [eval]. unfold eval_IndexSetNode.
    etrans; [apply bind_run_Ok; exact Htarget|].
    etrans; [apply bind_run_Ok; exact Hindex|].
    etrans; [apply bind_run_Ok; exact Hvalue|].
    unfold try_except, mbind, ST_bind, get_state, lift, dict_setitem.
    by rewrite Hh, Hstore.
  - intros k' Hk'. unfold dict_lookup.
    assert (hashable k' = true) as -> by by destruct k'. by apply Hf.
  - unfold dict_lookup. by rewrite Hh.
  - done.
  - intros d' Hne. unfold dict_get, with_dicts. cbn [dicts].
    by rewrite list_lookup_insert_ne.
Qed.

Lemma map_assignment_writes_one_key_witness :
  let st := (new_dict [(VStr "a", VInt 1); (VStr "b", VInt 2)] fresh).2 in
  let st0 := set_var global_env "m" (VDict 0) st in
  ∃ st', eval 2 (IndexSetNode (IdentifierNode "m") (StringNode "a") (num 7)) global_env st0
         = (Ok (VInt 7), st')
         ∧ dict_lookup (VStr "a") (dict_get st' 0) = Ok (Some (VInt 7))
         ∧ map fst (dict_get st' 0) = [VStr "a"; VStr "b"].
Proof.
  intros st st0.
  destruct (map_assignment_writes_one_key 1 (IdentifierNode "m") (StringNode "a") (num 7)
              global_env st0 st0 st0 st0 0%nat (VStr "a") (VInt 7)
              eq_refl eq_refl eq_refl (mk_is_Some _ _ eq_refl) I
              ltac:(vm_compute; repeat constructor))
    as (st' & He & Hf & Hm & _).
  exists st'. split; [exact He|]. split.
  - exact (Hf (VStr "a") I).
  - exact Hm.
Defined.

Lemma dict_find_str (s : string) (kvs : list (Value * Value)) :
  ∃ r, dict_find (VStr s) kvs = Ok r.
Proof.
  induction kvs as [|[k v] rest [r IH]]; [by exists None|].
  cbn. unfold key_eq.
  assert (both_nan k (VStr s) = false) as -> by by destruct k.
  cbn. destruct (atom_eq k (VStr s)); eauto.
Qed.

(** X9.  On a map, [m.name] and [m.name()] are a lookup of the key
    ["name"], like [m["name"]], for every name but [keys], [values],
    [length] and [has]: the three forms give the value of the key when the
    map has it.  When it has not, the first two raise [Unknown object
    method] and the last [Index error].  In particular a map has no
    [to_int], [to_float] or [to_str] of its own. *)
Theorem field_access_on_a_map_is_a_lookup
    (f : nat) (obj : Node) (name : string) (env : loc) (st st1 : State) (d : loc)
    (Hobj : eval f obj env st = (Ok (VDict d), st1))
    (Hname : name ∉ ["keys"; "values"; "length"; "has"]) :
  ∃ r, dict_lookup (VStr name) (dict_get st1 d) = Ok r
    ∧ eval (S f) (MethodCallNode obj name []) env st
      = match r with
        | Some v => (Ok v, st1)
        | None => (Raised (RuntimeError_
                             [Lit ("Unknown object method '." +:+ name +:+ "()'")] 0 0 ""),
                   st1)
        end
    ∧ eval (S f) (IndexGetNode obj (StringNode name)) env st
      = match r with
        | Some v => (Ok v, st1)
        | None => (Raised (RuntimeError_ [Lit "Index error: "; ExcText KeyError] 0 0 ""),
                   st1)
        end.
Proof.
  destruct (dict_find_str name (dict_get st1 d)) as [r Hr].
  exists r. split; [exact Hr|].
  repeat (apply not_elem_of_cons in Hname as [?%String.eqb_neq Hname]).
  split.
  - cbn [eval]. unfold eval_MethodCallNode.
    etrans; [apply bind_run_Ok; exact Hobj|].
    unfold eval_args. cbn [mapM]. etrans; [apply bind_run_Ok; reflexivity|].
    cbn [call_method]. unfold dict_method, mbind, ST_bind, get_state, lift.
    rewrite !String.eqb_sym with (x := name) in *.
    repeat match goal with H : String.eqb _ name = false |- _ => rewrite H; clear H end.
    rewrite Hr. by destruct r.
  - destruct f as [|f]; [discriminate|].
    cbn [eval]. unfold eval_IndexGetNode.
    etrans; [apply bind_run_Ok; exact Hobj|].
    etrans; [apply bind_run_Ok; reflexivity|].
    unfold try_except, mbind, ST_bind, get_state, lift.
    unfold dict_lookup in Hr |- *. cbn [hashable] in Hr |- *. rewrite Hr. by destruct r.
Qed.

Lemma field_access_on_a_map_is_a_lookup_witness :
  let st := (new_dict [(VStr "name", VStr "Ada")] fresh).2 in
  let st0 := set_var global_env "m" (VDict 0) st in
  eval 2 (MethodCallNode (IdentifierNode "m") "name" []) global_env st0
  = (Ok (VStr "Ada"), st0)
  ∧ eval 2 (IndexGetNode (IdentifierNode "m") (StringNode "name")) global_env st0
    = (Ok (VStr "Ada"), st0).
Proof.
  intros st st0.
  destruct (field_access_on_a_map_is_a_lookup 1 (IdentifierNode "m") "name" global_env
              st0 st0 0%nat eq_refl
              ltac:(apply (bool_decide_unpack _); vm_compute; exact I))
    as (r & Hr & Hm & Hi).
  vm_compute in Hr. injection Hr as <-. split; [exact Hm|exact Hi].
Defined.

(** ** len and .length *)

(** X10.  For a string or a list, [len(x)] and [x.length] (or [x.length()])
    give the same integer, the number of characters or of elements.  [len]
    is not looked up in the environment: a function that the program
    defines under the name [len] is never called. *)
Theorem len_agrees_with_length
    (f : nat) (node : Node) (env : loc) (st st1 : State) (v : Value) (n : nat)
    (Hv : eval f node env st = (Ok v, st1))
    (Hn : match v with
          | VStr s => n = String.length s
          | VList l => n = length (list_get st1 l)
          | _ => False
          end) :
  eval (S f) (FunctionCallNode "len" [node]) env st = (Ok (VInt (Z.of_nat n)), st1)
  ∧ eval (S f) (MethodCallNode node "length" []) env st = (Ok (VInt (Z.of_nat n)), st1).
Proof.
  split.
  - cbn [eval]. unfold eval_FunctionCallNode.
    etrans; [apply bind_run_Ok; by apply eval_args_one|].
    destruct v; try done; by subst n.
  - cbn [eval]. unfold eval_MethodCallNode.
    etrans; [apply bind_run_Ok; exact Hv|].
    etrans; [apply bind_run_Ok; reflexivity|].
    destruct v; try done; by subst n.
Qed.

Lemma len_agrees_with_length_witness :
  let st := set_var global_env "len" (EushaLambda 0 ["x"] (num 0) global_env) fresh in
  eval 2 (FunctionCallNode "len" [StringNode "abc"]) global_env st = (Ok (VInt 3), st)
  ∧ eval 2 (MethodCallNode (StringNode "abc") "length" []) global_env st
    = (Ok (VInt 3), st).
Proof.
  intros st.
  exact (len_agrees_with_length 1 (StringNode "abc") global_env st st (VStr "abc") 3
           eq_refl eq_refl).
Defined.

(** ** Calls *)

(** X11.  A call of a function with a number of arguments other than its
    number of parameters is the runtime error [expects n args, got m],
    which names the function by the name of its definition.  The arguments
    have been evaluated by then, and what they did stays; no frame is
    created and the body is not evaluated. *)
Theorem call_with_wrong_arity_is_a_runtime_error
    (f : nat) (name : string) (arg_nodes : list Node) (env : loc) (st st1 : State)
    (args : list Value) (id : loc) (fname : string) (params : list string) (body : Node)
    (fn_env : loc) (return_type : TokValue)
    (Hname : name ≠ "len" ∧ name ≠ "help")
    (Hargs : eval_args (eval f) arg_nodes env st = (Ok args, st1))
    (Hfn : Environment_get env name st1
           = (Ok (EushaFunction id fname params body fn_env return_type), st1))
    (Harity : length args ≠ length params) :
  eval (S f) (FunctionCallNode name arg_nodes) env st
  = (Raised (RuntimeError_
               [Lit ("'" +:+ fname +:+ "' expects " +:+ pretty (length params) +:+
                     " args, got " +:+ pretty (length args))] 0 0 ""),
     st1).
Proof.
  destruct Hname as [H1%String.eqb_neq H2%String.eqb_neq].
  cbn [eval]. unfold eval_FunctionCallNode.
  etrans; [apply bind_run_Ok; exact Hargs|].
  rewrite H1, H2.
  etrans; [apply bind_run_Ok; exact Hfn|].
  unfold _call_function.
  apply Nat.eqb_neq in Harity. by rewrite Harity.
Qed.

Lemma call_with_wrong_arity_is_a_runtime_error_witness :
  let st := set_var global_env "f" (EushaFunction 0 "f" ["x"] (num 0) global_env TVNone)
              fresh in
  eval 2 (FunctionCallNode "f" []) global_env st
  = (Raised (RuntimeError_ [Lit "'f' expects 1 args, got 0"] 0 0 ""), st).
Proof.
  intros st.
  exact (call_with_wrong_arity_is_a_runtime_error 1 "f" [] global_env st st []
           0%nat "f" ["x"] (num 0) global_env TVNone
           ltac:(split; discriminate) eq_refl eq_refl ltac:(discriminate)).
Defined.

(** ** Sorting a list of integers *)

(** [a ≤ b] for two integers, a boolean counting as 1 or 0. *)
Definition int_le (a b : Value) : Prop :=
  ∃ x y, as_int a = Some x ∧ as_int b = Some y ∧ x ≤ y.

Lemma insert_sorted_perm (le : Value → Value → bool) (x : Value) (ys : list Value) :
  insert_sorted le x ys ≡ₚ x :: ys.
Proof.
  induction ys as [|y r IH]; cbn; [done|].
  destruct (le x y); [done|]. rewrite IH. apply Permutation_swap.
Qed.

Lemma sort_perm (le : Value → Value → bool) (xs : list Value) :
  foldr (insert_sorted le) [] xs ≡ₚ xs.
Proof.
  induction xs as [|x xs IH]; cbn; [done|]. by rewrite insert_sorted_perm, IH.
Qed.

Lemma insert_sorted_ints (x : Value) (ys : list Value) :
  is_Some (as_int x) → Forall (λ v, is_Some (as_int v)) ys →
  StronglySorted int_le ys → StronglySorted int_le (insert_sorted value_le x ys).
Proof.
  intros [a Ha] Hys Hs. induction Hs as [|y r Hr IH Hy]; cbn.
  - repeat constructor.
  - inversion Hys as [|? ? [b Hb] Hys']; subst.
    unfold value_le. rewrite Ha, Hb. destruct (Z.leb_spec a b) as [Hle|Hlt].
    + constructor; [by constructor|]. constructor.
      * exists a, b. auto.
      * eapply Forall_impl; [exact Hy|]. intros z (b' & c & Hb' & Hc & Hbc).
        exists a, c. split; [done|]. split; [done|]. rewrite Hb in Hb'. injection Hb' as <-. lia.
    + constructor; [by apply IH|].
      rewrite insert_sorted_perm. constructor; [|done].
      exists b, a. split; [done|]. split; [done|]. lia.
Qed.

Lemma sort_ints (xs : list Value) :
  Forall (λ v, is_Some (as_int v)) xs →
  StronglySorted int_le (foldr (insert_sorted value_le) [] xs).
Proof.
  induction 1 as [|x xs Hx Hxs IH]; cbn; [constructor|].
  apply insert_sorted_ints; [done| |done]. by rewrite sort_perm.
Qed.

(** X12.  [xs.sort()] on a list of integers sorts the list object itself:
    afterwards it holds the same elements, each as often as before, in
    non-decreasing order; the call yields the list, and no other list and
    no frame changes. *)
Theorem sort_orders_a_list_of_integers_in_place
    (f : nat) (obj : Node) (env : loc) (st st1 : State) (l : loc)
    (Hobj : eval f obj env st = (Ok (VList l), st1))
    (Hl : is_Some (lists st1 !! l))
    (Hints : all_int (list_get st1 l)) :
  ∃ st', eval (S f) (MethodCallNode obj "sort" []) env st = (Ok (VList l), st')
    ∧ list_get st' l ≡ₚ list_get st1 l
    ∧ StronglySorted int_le (list_get st' l)
    ∧ (∀ l', l' ≠ l → list_get st' l' = list_get st1 l')
    ∧ envs st' = envs st1 ∧ dicts st' = dicts st1 ∧ output st' = output st1.
Proof.
  set (xs := list_get st1 l) in *.
  set (ys := foldr (insert_sorted value_le) [] xs).
  exists (with_lists (λ ls, <[l := ys]> ls) st1).
  assert (list_get (with_lists (λ ls, <[l := ys]> ls) st1) l = ys) as Hget.
  { unfold list_get, with_lists. cbn [lists]. rewrite list_lookup_insert_eq; [done|].
    destruct Hl as [x Hx]. by eapply lookup_lt_Some. }
  rewrite Hget. split; [|split; [|split; [|split; [|split; [|split]; reflexivity]]]].
  - cbn [eval]. unfold eval_MethodCallNode.
    etrans; [apply bind_run_Ok; exact Hobj|].
    etrans; [apply bind_run_Ok; reflexivity|].
    cbn [call_method]. etrans; [apply bind_run_Ok; reflexivity|].
    cbn beta iota. unfold list_method. cbn [String.eqb Ascii.eqb Bool.eqb].
    unfold mbind, ST_bind, get_state, lift, py_sort. fold xs.
    apply Is_true_true in Hints. rewrite Hints, orb_true_r. reflexivity.
  - apply sort_perm.
  - apply sort_ints. unfold all_int in Hints. apply forallb_True in Hints.
    eapply Forall_impl; [exact Hints|]. intros v Hv. by apply bool_decide_unpack in Hv.
  - intros l' Hne. unfold list_get, with_lists. cbn [lists].
    by rewrite list_lookup_insert_ne.
Qed.

Lemma sort_orders_a_list_of_integers_in_place_witness :
  let st := (new_list [VInt 3; VInt 1; VInt 2] fresh).2 in
  let st0 := set_var global_env "l" (VList 0) st in
  ∃ st', eval 2 (MethodCallNode (IdentifierNode "l") "sort" []) global_env st0
         = (Ok (VList 0), st')
         ∧ StronglySorted int_le (list_get st' 0).
Proof.
  intros st st0.
  destruct (sort_orders_a_list_of_integers_in_place 1 (IdentifierNode "l") global_env
              st0 st0 0%nat eq_refl (mk_is_Some _ _ eq_refl) I)
    as (st' & He & _ & Hs & _).
  exists st'. split; [exact He|exact Hs].
Defined.

(** ** Ranges *)

(** The values of [for (i in s..e step k)], with [reverse] or without. *)
Definition range_values (reverse : bool) (s e k : Z) : list Z :=
  if reverse then py_range true s (e - 1) (Z.abs k)
  else py_range false s (e + 1) (Z.abs k).

Lemma count_lt (span step : Z) (i : nat) :
  0 < step →
  (i < Z.to_nat ((span + step - 1) / step))%nat ↔ Z.of_nat i * step < span.
Proof.
  intros Hk. split.
  - intros H.
    assert (Z.of_nat i + 1 ≤ (span + step - 1) / step) as H1 by lia.
    assert (step * (Z.of_nat i + 1) ≤ span + step - 1) as H2.
    { etrans; [apply Z.mul_le_mono_nonneg_l; [lia|exact H1]|].
      apply Z.mul_div_le. lia. }
    lia.
  - intros H.
    assert (Z.of_nat i + 1 ≤ (span + step - 1) / step) as H1.
    { apply Z.div_le_lower_bound; lia. }
    lia.
Qed.

Lemma py_range_lookup (down : bool) (start stop step : Z) (i : nat) (x : Z) :
  0 < step →
  py_range down start stop step !! i = Some x
  ↔ if down then x = start - Z.of_nat i * step ∧ stop < x
    else x = start + Z.of_nat i * step ∧ x < stop.
Proof.
  intros Hk. unfold py_range. rewrite list_lookup_fmap.
  destruct (decide (i < Z.to_nat (((if down then start - stop else stop - start)
                                   + step - 1) / step))%nat) as [Hlt|Hge].
  - rewrite lookup_seq_lt by done. cbn.
    apply count_lt in Hlt; [|done]. destruct down; split.
    all: try (intros [= <-]; split; [done|lia]).
    all: by intros [-> _].
  - rewrite lookup_seq_ge by lia. cbn. split; [done|].
    rewrite count_lt in Hge by done. destruct down; intros [-> H]; lia.
Qed.



(** X14.  A step of 0 is not reported as a runtime error: [range] raises
    the host's [ValueError], which leaves the evaluator as it is, and which
    [run_source] can only handle in its catch-all clause. *)
Theorem for_range_with_step_zero_is_an_internal_error
    (f : nat) (var : string) (start end_ step : Node) (reverse : bool)
    (body : Node) (env : loc) (st st1 st2 st3 : State) (s e : Z)
    (Hstart : eval f start env st = (Ok (VInt s), st1))
    (Hend : eval f end_ env st1 = (Ok (VInt e), st2))
    (Hstep : eval f step env st2 = (Ok (VInt 0), st3)) :
  eval (S f) (ForRangeNode var start end_ (Some step) reverse body) env st
  = (Raised (Host ValueError), st3)
  ∧ handler_of (Host ValueError) = Some Internal.
Proof.
  split; [|done].
  cbn [eval]. unfold eval_ForRangeNode.
  etrans; [apply bind_run_Ok; exact Hstart|].
  etrans; [apply bind_run_Ok; exact Hend|].
  etrans; [apply bind_run_Ok; exact Hstep|].
  reflexivity.
Qed.

Lemma for_range_with_step_zero_is_an_internal_error_witness :
  eval 2 (ForRangeNode "i" (num 1) (num 3) (Some (num 0)) false (BlockNode []))
    global_env fresh
  = (Raised (Host ValueError), fresh).
Proof.
  exact (proj1 (for_range_with_step_zero_is_an_internal_error 1 "i" (num 1) (num 3)
                  (num 0) false (BlockNode []) global_env fresh fresh fresh fresh 1 3
                  eq_refl eq_refl eq_refl)).
Defined.

(** ** say with several arguments *)

Lemma string_app_assoc (a b c : string) : (a +:+ b) +:+ c = a +:+ (b +:+ c).
Proof.
  induction a as [|x a IH]; [done|].
  change (String x ((a +:+ b) +:+ c) = String x (a +:+ b +:+ c)). by rewrite IH.
Qed.

Lemma join_snoc (sep : string) (x : string) (l : list string) (y : string) :
  join sep (x :: l ++ [y]) = join sep (x :: l) +:+ sep +:+ y.
Proof.
  revert x. induction l as [|z l IH]; intros x; [done|].
  change (join sep (x :: (z :: l) ++ [y])) with (x +:+ sep +:+ join sep (z :: l ++ [y])).
  rewrite IH.
  change (join sep (x :: z :: l)) with (x +:+ sep +:+ join sep (z :: l)).
  by rewrite !string_app_assoc.
Qed.

Lemma say_chain_of_strings (n : nat) (env : loc) (st : State) (s : string)
    (ss : list string) :
  eval (S n + 2 * length ss) (Parser.say_chain (StringNode s) (map StringNode ss)) env st
  = (Ok (VStr (join " " (s :: ss))), st).
Proof.
  induction ss as [|t ss IH] using rev_ind; [done|].
  rewrite map_app, length_app. unfold Parser.say_chain in *. cbn [map length].
  rewrite foldl_snoc.
  replace (S n + 2 * (length ss + 1))%nat with (S (S (S n + 2 * length ss))) by lia.
  cbn [eval]. unfold eval_BinOpNode at 1.
  assert (eval (S (S n + 2 * length ss))
            (BinOpNode (foldl (λ expr part,
                                 BinOpNode (BinOpNode expr "+" (StringNode " ")) "+" part)
                              (StringNode s) (map StringNode ss)) "+" (StringNode " "))
            env st = (Ok (VStr (join " " (s :: ss) +:+ " ")), st)) as Hleft.
  { cbn [eval]. unfold eval_BinOpNode.
    etrans; [apply bind_run_Ok; exact IH|]. reflexivity. }
  etrans; [apply bind_run_Ok; exact Hleft|].
  etrans; [apply bind_run_Ok; reflexivity|].
  rewrite join_snoc. generalize (join " " (s :: ss)). intros j.
  transitivity (Ok (VStr ((j +:+ " ") +:+ t)), st);
    [reflexivity|by rewrite string_app_assoc].
Qed.

Lemma format_value_of_a_string (st : State) (s : string) :
  _format_value st (VStr s) = Ok s.
Proof. unfold _format_value. by destruct (containers st). Qed.


(** ** take *)

(** X25.  [take(prompt)] writes the text of the prompt to the output and
    yields the next line of the input as a string; at the end of the input
    it yields the empty string instead of failing.  The prompt is written in
    both cases. *)
Theorem take_yields_the_empty_string_at_the_end_of_the_input
    (f : nat) (prompt : Node) (env : loc) (st st1 : State) (p : string)
    (Hprompt : eval f prompt env st = (Ok (VStr p), st1)) :
  let st2 := (print p st1).2 in
  eval (S f) (TakeNode (Some prompt)) env st
  = match input st1 with
    | [] => (Ok (VStr ""), st2)
    | line :: rest =>
      (Ok (VStr line),
       mkState (envs st2) (lists st2) (dicts st2) (next_id st2) (output st2) rest
         (files st2) (base_path st2))
    end.
Proof.
  cbn [eval]. unfold eval_TakeNode.
  etrans; [apply bind_run_Ok|].
  { etrans; [apply bind_run_Ok; exact Hprompt|]. reflexivity. }
  etrans; [apply bind_run_Ok; reflexivity|].
  unfold read_line. cbn. by destruct (input st1).
Qed.

Lemma take_yields_the_empty_string_at_the_end_of_the_input_witness :
  eval 2 (TakeNode (Some (StringNode "? "))) global_env fresh
  = (Ok (VStr ""), (print "? " fresh).2).
Proof.
  exact (take_yields_the_empty_string_at_the_end_of_the_input 1 (StringNode "? ")
           global_env fresh fresh "? " eq_refl).
Defined.

(** ** The value of a call *)



(** ** return outside a function *)

(** X27.  A [return] that is not inside a function is not rejected: the
    statement raises its signal, the statements after it are not evaluated,
    and at the top level the signal reaches [run_source], which can only
    handle it in its catch-all clause: the program ends with an internal
    error at its first top-level [return], after the effects of what came
    before. *)
Theorem return_outside_a_function_is_an_internal_error
    (f : nat) (value : Node) (rest : list Node) (st st1 : State) (v : Value)
    (Hvalue : eval f value global_env st = (Ok v, st1)) :
  eval (S f) (ReturnNode value) global_env st = (Raised (ReturnSignal v), st1)
  ∧ run_ast (S (S f)) (BlockNode (ReturnNode value :: rest)) st
    = (Failure Internal (ReturnSignal v), st1).
Proof.
  assert (eval (S f) (ReturnNode value) global_env st = (Raised (ReturnSignal v), st1))
    as Hret.
  { cbn [eval]. unfold eval_ReturnNode.
    etrans; [apply bind_run_Ok; exact Hvalue|]. reflexivity. }
  split; [exact Hret|].
  unfold run_ast, run. cbn [eval]. unfold eval_BlockNode. cbn [block_statements].
  by rewrite (bind_run_Raised _ _ _ _ _ Hret).
Qed.

Lemma return_outside_a_function_is_an_internal_error_witness :
  run_ast 3 (BlockNode [ReturnNode (num 1); SayNode (num 2) []]) fresh
  = (Failure Internal (ReturnSignal (VInt 1)), fresh).
Proof.
  exact (proj2 (return_outside_a_function_is_an_internal_error 1 (num 1)
                  [SayNode (num 2) []] fresh fresh (VInt 1) eq_refl)).
Defined.

(** ** A loop over a map that changes *)

(** X28.  A body that changes the number of keys of the map over which its
    loop runs ends the loop, after that round, with the host's
    [RuntimeError] (the dictionary changed size during iteration): not a
    runtime error of the language, but an internal error of the driver.
    This holds also when the round was the last one. *)
Theorem changing_the_keys_of_a_map_in_a_loop_over_it_is_an_internal_error
    (f : nat) (var : string) (iterable body : Node) (env : loc) (st st1 st2 : State)
    (d : loc) (k v result : Value) (rest : list (Value * Value))
    (Hiterable : eval f iterable env st = (Ok (VDict d), st1))
    (Hkeys : dict_get st1 d = (k, v) :: rest)
    (Hbody : eval f body env (set_var env var k st1) = (Ok result, st2))
    (Hsize : length (dict_get st2 d) ≠ length (dict_get st1 d)) :
  eval (S f) (ForEachNode var iterable body) env st = (Raised (Host PyRuntimeError), st2)
  ∧ handler_of (Host PyRuntimeError) = Some Internal.
Proof.
  split; [|done].
  cbn [eval]. unfold eval_ForEachNode.
  etrans; [apply bind_run_Ok; exact Hiterable|].
  cbn beta iota. etrans; [apply bind_run_Ok; reflexivity|].
  cbn beta zeta. rewrite Hkeys. cbn [map fst length for_keys].
  etrans; [apply bind_run_Ok; reflexivity|].
  rewrite Hkeys. cbn [length]. rewrite Nat.eqb_refl. cbn [negb].
  etrans; [apply bind_run_Ok; reflexivity|].
  assert (run_body (eval f) body env (set_var env var k st1) = (Ok true, st2)) as Hrun.
  { unfold run_body. by rewrite Hbody. }
  etrans; [apply bind_run_Ok; exact Hrun|].
  cbn beta iota. rewrite Hkeys in Hsize. cbn [length] in Hsize.
  apply Nat.eqb_neq in Hsize.
  destruct rest as [|kv rest']; cbn [map for_keys];
    (etrans; [apply bind_run_Ok; reflexivity|]); by rewrite Hsize.
Qed.

Lemma changing_the_keys_of_a_map_in_a_loop_over_it_is_an_internal_error_witness :
  let st := (new_dict [(VStr "a", VInt 1)] fresh).2 in
  let st0 := set_var global_env "m" (VDict 0) st in
  ∃ st2,
    eval 3 (ForEachNode "k" (IdentifierNode "m")
              (IndexSetNode (IdentifierNode "m") (StringNode "b") (num 2)))
      global_env st0
    = (Raised (Host PyRuntimeError), st2).
Proof.
  intros st st0. eexists.
  exact (proj1 (changing_the_keys_of_a_map_in_a_loop_over_it_is_an_internal_error
                  2 "k" (IdentifierNode "m")
                  (IndexSetNode (IdentifierNode "m") (StringNode "b") (num 2))
                  global_env st0 st0 _ 0%nat (VStr "a") (VInt 1) (VInt 2) []
                  eq_refl eq_refl eq_refl ltac:(vm_compute; discriminate))).
Defined.

(** ** What say prints for a list *)

(** The display form of a value that is not a list, a map, a float or a
    function. *)
Definition atom_text (v : Value) : option string :=
  match v with
  | VNone => Some "none"
  | VBool b => Some (if b then "true" else "false")
  | VInt z => Some (pretty z)
  | VStr s => Some s
  | _ => None
  end.

Lemma format_value_go_atom (n : nat) (st : State) (v : Value) (text : string) :
  atom_text v = Some text → format_value_go n st v = Ok text.
Proof. destruct v, n; cbn; intros [= <-]; done. Qed.

Lemma format_value_go_atoms (n : nat) (st : State) (xs : list Value) (texts : list string) :
  mapM atom_text xs = Some texts → mapM (format_value_go n st) xs = Ok texts.
Proof.
  revert texts. induction xs as [|x xs IH]; intros texts; cbn.
  - by intros [= <-].
  - destruct (atom_text x) as [t|] eqn:E; [|done]. cbn.
    destruct (mapM atom_text xs) as [ts|]; [|done]. cbn. intros [= <-].
    rewrite (format_value_go_atom n st x t E). cbn. by rewrite (IH ts eq_refl).
Qed.

(** X29.  [say] of a list whose elements are [none], booleans, integers or
    strings prints the display forms of the elements, separated by a comma
    and a blank, between brackets: strings without quotes, [none], [true]
    and [false] in lower case.  The text of the modifiers follows; the
    statement yields [none] and changes nothing but the output. *)
Theorem say_prints_the_elements_of_a_list_in_their_display_form
    (f : nat) (expr : Node) (modifiers : list string) (env : loc) (st st1 : State)
    (l : loc) (texts : list string)
    (Hexpr : eval f expr env st = (Ok (VList l), st1))
    (Hl : is_Some (lists st1 !! l))
    (Htexts : mapM atom_text (list_get st1 l) = Some texts) :
  eval (S f) (SayNode expr modifiers) env st
  = (Ok VNone,
     (print (("[" +:+ join ", " texts +:+ "]") +:+ modifier_end modifiers) st1).2).
Proof.
  cbn [eval]. unfold eval_SayNode.
  etrans; [apply bind_run_Ok; exact Hexpr|].
  etrans; [apply bind_run_Ok; reflexivity|].
  assert (_format_value st1 (VList l) = Ok ("[" +:+ join ", " texts +:+ "]")) as Hf.
  { unfold _format_value, containers.
    destruct Hl as [xs Hxs]. apply lookup_lt_Some in Hxs.
    destruct (length (lists st1)) as [|n]; [lia|]. cbn [Nat.add format_value_go].
    by rewrite (format_value_go_atoms _ _ _ _ Htexts). }
  unfold mbind at 1, ST_bind at 1, lift at 1. rewrite Hf. reflexivity.
Qed.

Lemma say_prints_the_elements_of_a_list_in_their_display_form_witness :
  let st := (new_list [VStr "a"; VNone; VBool true; VInt 1] fresh).2 in
  let st0 := set_var global_env "l" (VList 0) st in
  eval 2 (SayNode (IdentifierNode "l") []) global_env st0
  = (Ok VNone, (print "[a, none, true, 1]" st0).2).
Proof.
  intros st st0.
  exact (say_prints_the_elements_of_a_list_in_their_display_form 1 (IdentifierNode "l") []
           global_env st0 st0 0%nat ["a"; "none"; "true"; "1"]
           eq_refl (mk_is_Some _ _ eq_refl) eq_refl).
Defined.

(** ** The driver and its reports *)

Example splitlines_of_a_text :
  splitlines ("a" +:+ String (ascii_of_N 13) nl +:+ "b" +:+ nl +:+ nl +:+ "c" +:+ nl)
  = ["a"; "b"; ""; "c"].
Proof. vm_compute. reflexivity. Qed.

Example report_of_a_lexer_error :
  format_error
    (LexerError [Lit "Unknown character ';'"] 1 6 "Remove the character or check for a typo.")
    (splitlines "x = 1; y = 2")
  = Ok (lines [""; "  SyntaxError at line 1:"; "    x = 1; y = 2"; "         ^";
               "  Unknown character ';'";
               "  Hint: Remove the character or check for a typo."; ""]).
Proof. vm_compute. reflexivity. Qed.

Example report_of_an_error_in_a_module :
  let text := lines ["x = 1"; "say(x)"; "use m"] in
  let e := LexerError [Lit "Unknown character ';'"] 1 3
             "Remove the character or check for a typo." in
  let st' := (run_source 20 text (fresh_with "/elang/m.elang" "y ;")).2 in
  (run_source 20 text (fresh_with "/elang/m.elang" "y ;")).1 = Failure Structured e
  ∧ own_var st' global_env "x" = Some (VInt 1)
  ∧ output st' = ["1"]
  ∧ format_error e (splitlines text)
    = Ok (lines [""; "  SyntaxError at line 1:"; "    x = 1"; "      ^";
                 "  Unknown character ';'";
                 "  Hint: Remove the character or check for a typo."; ""]).
Proof. repeat split; vm_compute; reflexivity. Qed.


